(** * Entity resolution of the Premier League Fantasy Draft Assistant

    A shallow embedding of the player matcher
    ([src/data/processors/player_mapper.py]), of the team name normalizer it
    calls ([src/data/processors/data_cleaner.py]) and of the standard
    library routines both rely on ([str.lower], [str.strip], [int],
    [difflib.SequenceMatcher]), followed by the properties of the matcher.

    Conventions.
    - A Python [str] is a [string]; a character is a code point below 256.
    - A Python [float] similarity is the exact rational it rounds, kept in
      lowest terms ([Qred]); comparisons are comparisons of rationals, and
      the threshold is a rational too.
    - A [DataFrame] is the list of its rows, in index order, with the columns
      the matcher selects ([id], name, team) already resolved: primary ids
      are integers, secondary ids are strings, names and teams are strings
      (so [pd.notna] holds of every team cell).
    - The manual overlay is the dict [json.load] returns, a list of pairs of
      strings in insertion order.
    - Exceptions are the [Raise] branch of [result].
    - Of the calls to the logger, those of the load are recorded; those of
      [map_players] are not, except that evaluating the argument of the
      closing one may raise.
    - The interpreter's limit on the number of digits [int] accepts is not
      modelled. *)

From Stdlib Require Import String Ascii Bool Arith ZArith QArith Lia.
From Stdlib Require Import DecimalString DecimalPos Sorted List.
Import ListNotations.

Set Implicit Arguments.
Open Scope nat_scope.

(** ** Exceptions *)

Inductive exn : Type :=
| ValueError
| KeyError
| OSError
| JSONDecodeError.

Inductive result (A : Type) : Type :=
| Ok (x : A)
| Raise (e : exn).

Arguments Ok {A} x.
Arguments Raise {A} e.

Definition bind {A B : Type} (m : result A) (f : A -> result B) : result B :=
  match m with
  | Ok x => f x
  | Raise e => Raise e
  end.

Notation "x <- m ;; k" := (bind m (fun x => k))
  (at level 61, m at next level, right associativity).

(** [try: body  except Exception as e: handler e] *)
Definition try_except {A : Type} (body : result A) (handler : exn -> result A)
  : result A :=
  match body with
  | Ok x => Ok x
  | Raise e => handler e
  end.

(** ** Python strings *)

Module PyStr.

(** [str.lower] on one character: A-Z, and the Latin-1 capitals
    U+00C0..U+00DE except the multiplication sign U+00D7. *)
Definition lower_char (c : ascii) : ascii :=
  let n := nat_of_ascii c in
  if ((65 <=? n) && (n <=? 90))
     || ((192 <=? n) && (n <=? 222) && negb (n =? 215))
  then ascii_of_nat (n + 32)
  else c.

(** [str.isspace] on one character, as used by [str.strip]. *)
Definition isspace (c : ascii) : bool :=
  let n := nat_of_ascii c in
  ((9 <=? n) && (n <=? 13)) || ((28 <=? n) && (n <=? 32))
  || (n =? 133) || (n =? 160).

Definition lower (s : string) : string :=
  string_of_list_ascii (map lower_char (list_ascii_of_string s)).

Fixpoint lstrip_chars (l : list ascii) : list ascii :=
  match l with
  | [] => []
  | c :: l' => if isspace c then lstrip_chars l' else l
  end.

Definition strip_chars (l : list ascii) : list ascii :=
  rev (lstrip_chars (rev (lstrip_chars l))).

Definition strip (s : string) : string :=
  string_of_list_ascii (strip_chars (list_ascii_of_string s)).

(** Values that reach [str(...)] in the matcher: a cell of a name column
    holds a string, or an integer, a boolean, [None] or a NaN when the
    source delivered something else. *)
Inductive pyval : Type :=
| VStr (s : string)
| VInt (z : Z)
| VBool (b : bool)
| VNone
| VNaN.

(** [str(x)] *)
Definition str (x : pyval) : string :=
  match x with
  | VStr s => s
  | VInt z => NilZero.string_of_int (Z.to_int z)
  | VBool true => "True"
  | VBool false => "False"
  | VNone => "None"
  | VNaN => "nan"
  end.

(** [int(s)] for a string [s]: surrounding white space is dropped (the
    white space [int] knows: TAB..CR, SPACE, U+0085 and U+00A0), one sign
    is allowed, and the digits may be grouped by single underscores.
    Anything else raises [ValueError]. *)
Definition int_isspace (c : ascii) : bool :=
  let n := nat_of_ascii c in
  ((9 <=? n) && (n <=? 13)) || (n =? 32) || (n =? 133) || (n =? 160).

Fixpoint int_lstrip (l : list ascii) : list ascii :=
  match l with
  | [] => []
  | c :: l' => if int_isspace c then int_lstrip l' else l
  end.

Definition digit_of (c : ascii) : option Z :=
  let n := nat_of_ascii c in
  if (48 <=? n) && (n <=? 57) then Some (Z.of_nat (n - 48)) else None.

(** [digits acc prev l]: the digits of [l] read after the value [acc];
    [prev] tells whether the character just read was a digit, which is
    what an underscore needs before it and the end of the text too. *)
Fixpoint digits (acc : Z) (prev : bool) (l : list ascii) : option Z :=
  match l with
  | [] => if prev then Some acc else None
  | c :: l' =>
      match digit_of c with
      | Some d => digits (10 * acc + d) true l'
      | None =>
          if (nat_of_ascii c =? 95) && prev then digits acc false l'
          else None
      end
  end.

Definition int_chars (l : list ascii) : option Z :=
  match rev (int_lstrip (rev (int_lstrip l))) with
  | [] => None
  | c :: l' =>
      if nat_of_ascii c =? 43 then digits 0 false l'
      else if nat_of_ascii c =? 45 then option_map Z.opp (digits 0 false l')
      else digits 0 false (c :: l')
  end.

Definition int (s : string) : result Z :=
  match int_chars (list_ascii_of_string s) with
  | Some z => Ok z
  | None => Raise ValueError
  end.

End PyStr.

(** ** [difflib.SequenceMatcher]

    The part of the standard library's matcher that [ratio()] runs, for
    [SequenceMatcher(None, a, b)]: no junk predicate, [autojunk] on. *)

Module Difflib.

Definition zero_char : ascii := Ascii.zero.

(** [b2j]: for each element of [b], the indices where it occurs, in
    increasing order; a dict kept in insertion order. *)
Definition b2j_t : Type := list (ascii * list nat).

Fixpoint b2j_get (d : b2j_t) (elt : ascii) : option (list nat) :=
  match d with
  | [] => None
  | (e, idxs) :: d' => if Ascii.eqb e elt then Some idxs else b2j_get d' elt
  end.

(** [indices = b2j.setdefault(elt, []); indices.append(i)] *)
Fixpoint b2j_append (d : b2j_t) (elt : ascii) (i : nat) : b2j_t :=
  match d with
  | [] => [(elt, [i])]
  | (e, idxs) :: d' =>
      if Ascii.eqb e elt then (e, idxs ++ [i]) :: d'
      else (e, idxs) :: b2j_append d' elt i
  end.

(** [for i, elt in enumerate(b): ...] *)
Fixpoint chain_loop (b : list ascii) (i : nat) (d : b2j_t) : b2j_t :=
  match b with
  | [] => d
  | elt :: b' => chain_loop b' (S i) (b2j_append d elt i)
  end.

(** [len(idxs) > ntest] with [ntest = n // 100 + 1] *)
Definition is_popular (n : nat) (idxs : list nat) : bool :=
  n / 100 + 1 <? length idxs.

(** [__chain_b]: the junk set stays empty because [isjunk] is [None];
    with [autojunk] and [n >= 200] the popular elements are deleted. *)
Definition chain_b (b : list ascii) : b2j_t :=
  let d := chain_loop b 0 [] in
  let n := length b in
  if 200 <=? n
  then filter (fun kv => negb (is_popular n (snd kv))) d
  else d.

Record SequenceMatcher : Type := mkSequenceMatcher {
  seq_a : list ascii;
  seq_b : list ascii;
  b2j : b2j_t;
  bjunk : list ascii
}.

(** [SequenceMatcher(None, a, b)] *)
Definition new (a b : list ascii) : SequenceMatcher :=
  {| seq_a := a; seq_b := b; b2j := chain_b b; bjunk := [] |}.

Definition isbjunk (sm : SequenceMatcher) (c : ascii) : bool :=
  existsb (Ascii.eqb c) (bjunk sm).

(** [j2len]: a dict from an index of [b] to a length. *)
Definition j2len_t : Type := list (nat * nat).

Fixpoint j2len_get (d : j2len_t) (j : nat) : nat :=
  match d with
  | [] => 0
  | (j', k) :: d' => if j' =? j then k else j2len_get d' j
  end.

(** [j2lenget(j-1, 0)]: the key [-1] is never present. *)
Definition j2len_prev (d : j2len_t) (j : nat) : nat :=
  match j with
  | 0 => 0
  | S j' => j2len_get d j'
  end.

Definition match_t : Type := (nat * nat * nat)%type.

(** The body of [for j in b2j.get(a[i], nothing)], with its [continue]
    and its [break]. *)
Fixpoint scan_js (js : list nat) (i blo bhi : nat) (j2len newj2len : j2len_t)
  (best : match_t) : j2len_t * match_t :=
  match js with
  | [] => (newj2len, best)
  | j :: js' =>
      if j <? blo then scan_js js' i blo bhi j2len newj2len best
      else if bhi <=? j then (newj2len, best)
      else
        let k := j2len_prev j2len j + 1 in
        let '(besti, bestj, bestsize) := best in
        scan_js js' i blo bhi j2len ((j, k) :: newj2len)
          (if bestsize <? k then (i + 1 - k, j + 1 - k, k) else best)
  end.

(** [for i in range(alo, ahi)], run for the [n] rows that start at [i]. *)
Fixpoint scan_rows (sm : SequenceMatcher) (n i blo bhi : nat) (j2len : j2len_t)
  (best : match_t) : match_t :=
  match n with
  | 0 => best
  | S n' =>
      let js := match b2j_get (b2j sm) (nth i (seq_a sm) zero_char) with
                | Some idxs => idxs
                | None => []
                end in
      let '(newj2len, best') := scan_js js i blo bhi j2len [] best in
      scan_rows sm n' (S i) blo bhi newj2len best'
  end.

(** [while besti > alo and bestj > blo and (junk test on b[bestj-1]) and
    a[besti-1] == b[bestj-1]]; [want_junk] selects the third loop. *)
Fixpoint extend_back (sm : SequenceMatcher) (want_junk : bool) (alo blo : nat)
  (besti bestj bestsize : nat) : match_t :=
  match besti, bestj with
  | S i', S j' =>
      if (alo <? besti) && (blo <? bestj)
         && Bool.eqb (isbjunk sm (nth j' (seq_b sm) zero_char)) want_junk
         && Ascii.eqb (nth i' (seq_a sm) zero_char) (nth j' (seq_b sm) zero_char)
      then extend_back sm want_junk alo blo i' j' (S bestsize)
      else (besti, bestj, bestsize)
  | _, _ => (besti, bestj, bestsize)
  end.

(** [while besti+bestsize < ahi and bestj+bestsize < bhi and (junk test)
    and a[besti+bestsize] == b[bestj+bestsize]], run for at most the [n]
    positions left below [ahi]. *)
Fixpoint extend_fwd (sm : SequenceMatcher) (want_junk : bool) (n ahi bhi : nat)
  (besti bestj bestsize : nat) : match_t :=
  match n with
  | 0 => (besti, bestj, bestsize)
  | S n' =>
      if (besti + bestsize <? ahi) && (bestj + bestsize <? bhi)
         && Bool.eqb (isbjunk sm (nth (bestj + bestsize) (seq_b sm) zero_char))
              want_junk
         && Ascii.eqb (nth (besti + bestsize) (seq_a sm) zero_char)
              (nth (bestj + bestsize) (seq_b sm) zero_char)
      then extend_fwd sm want_junk n' ahi bhi besti bestj (S bestsize)
      else (besti, bestj, bestsize)
  end.

Definition find_longest_match (sm : SequenceMatcher) (alo ahi blo bhi : nat)
  : match_t :=
  let '(i1, j1, k1) := scan_rows sm (ahi - alo) alo blo bhi [] (alo, blo, 0) in
  let '(i2, j2, k2) := extend_back sm false alo blo i1 j1 k1 in
  let '(i3, j3, k3) := extend_fwd sm false (ahi - (i2 + k2)) ahi bhi i2 j2 k2 in
  let '(i4, j4, k4) := extend_back sm true alo blo i3 j3 k3 in
  extend_fwd sm true (ahi - (i4 + k4)) ahi bhi i4 j4 k4.

Definition range_t : Type := (nat * nat * nat * nat)%type.

(** [while queue: ...] of [get_matching_blocks]; [queue.pop()] takes the
    entry pushed last, which is the head of the list here. *)
Fixpoint blocks_loop (sm : SequenceMatcher) (fuel : nat) (queue : list range_t)
  (matching_blocks : list match_t) : list match_t :=
  match fuel, queue with
  | _, [] => matching_blocks
  | 0, _ => matching_blocks
  | S fuel', (alo, ahi, blo, bhi) :: queue' =>
      let '(i, j, k) := find_longest_match sm alo ahi blo bhi in
      if k =? 0 then blocks_loop sm fuel' queue' matching_blocks
      else
        let q1 := if (alo <? i) && (blo <? j)
                  then (alo, i, blo, j) :: queue' else queue' in
        let q2 := if (i + k <? ahi) && (j + k <? bhi)
                  then (i + k, ahi, j + k, bhi) :: q1 else q1 in
        blocks_loop sm fuel' q2 (matching_blocks ++ [(i, j, k)])
  end.

(** Tuple order, for [matching_blocks.sort()]. *)
Definition match_leb (x y : match_t) : bool :=
  let '(i1, j1, k1) := x in
  let '(i2, j2, k2) := y in
  (i1 <? i2) || ((i1 =? i2) && ((j1 <? j2) || ((j1 =? j2) && (k1 <=? k2)))).

Fixpoint insert_match (x : match_t) (l : list match_t) : list match_t :=
  match l with
  | [] => [x]
  | y :: l' => if match_leb x y then x :: l else y :: insert_match x l'
  end.

Fixpoint sort_matches (l : list match_t) : list match_t :=
  match l with
  | [] => []
  | x :: l' => insert_match x (sort_matches l')
  end.

(** The loop that merges adjacent blocks. *)
Fixpoint collapse (l : list match_t) (i1 j1 k1 : nat)
  (non_adjacent : list match_t) : list match_t :=
  match l with
  | [] => if k1 =? 0 then non_adjacent else non_adjacent ++ [(i1, j1, k1)]
  | (i2, j2, k2) :: l' =>
      if (i1 + k1 =? i2) && (j1 + k1 =? j2)
      then collapse l' i1 j1 (k1 + k2) non_adjacent
      else collapse l' i2 j2 k2
             (if k1 =? 0 then non_adjacent else non_adjacent ++ [(i1, j1, k1)])
  end.

(** Every turn of the queue loop either drops a range or splits it around
    a non-empty block, so [2 * la + 1] turns empty the queue
    ([blocks_loop_fuel] below). *)
Definition get_matching_blocks (sm : SequenceMatcher) : list match_t :=
  let la := length (seq_a sm) in
  let lb := length (seq_b sm) in
  let matching_blocks := blocks_loop sm (2 * la + 1) [(0, la, 0, lb)] [] in
  collapse (sort_matches matching_blocks) 0 0 0 [] ++ [(la, lb, 0)].

Definition sum_sizes (l : list match_t) : nat :=
  fold_right (fun x acc => snd x + acc) 0 l.

(** [_calculate_ratio(matches, length)] *)
Definition calculate_ratio (matches length : nat) : Q :=
  if length =? 0 then 1%Q
  else Qred (Z.of_nat (2 * matches) # Pos.of_nat length).

Definition ratio (sm : SequenceMatcher) : Q :=
  let matches := sum_sizes (get_matching_blocks sm) in
  calculate_ratio matches (length (seq_a sm) + length (seq_b sm)).

End Difflib.

(** ** Tables *)

(** A row of a player table: the id, name and team cells the matcher
    reads, and the [normalized_<team>] cell once the cleaner has added that
    column ([None] while the column is absent). *)
Record row (I : Type) : Type := mkRow {
  row_id : I;
  row_name : string;
  row_team : string;
  row_normalized : option string
}.

Arguments mkRow {I} _ _ _ _.

Definition DataFrame (I : Type) : Type := list (row I).

(** [df.empty] *)
Definition empty {A : Type} (df : list A) : bool :=
  match df with
  | [] => true
  | _ :: _ => false
  end.

(** [x in ids], the test behind [Series.isin] and [Series == x]. *)
Definition isin {I : Type} (eqb : I -> I -> bool) (x : I) (ids : list I) : bool :=
  existsb (eqb x) ids.

(** ** [data_cleaner.DataCleaner] *)

Module DataCleaner.

Open Scope string_scope.

Definition team_mapping : list (string * string) :=
  [ ("manchester united", "man utd");
    ("manchester city", "man city");
    ("newcastle united", "newcastle");
    ("tottenham", "spurs");
    ("tottenham hotspur", "spurs");
    ("wolverhampton", "wolves");
    ("wolverhampton wanderers", "wolves");
    ("brighton", "brighton");
    ("brighton and hove albion", "brighton");
    ("brighton & hove albion", "brighton");
    ("leicester", "leicester");
    ("leicester city", "leicester") ].

(** [d.get(key, default)] *)
Fixpoint dict_get (d : list (string * string)) (key default : string) : string :=
  match d with
  | [] => default
  | (k, v) :: d' => if String.eqb k key then v else dict_get d' key default
  end.

(** The lambda applied to each cell of the team column, on a cell that
    holds a string: [team_mapping.get(str(x).lower(), x)]. *)
Definition normalize_cell (x : string) : string :=
  dict_get team_mapping (PyStr.lower x) x.

(** [normalize_team_names(df, team_col)]: an empty table comes back as it
    is, without the new column; otherwise every row of the copy gets its
    [normalized_<team_col>] cell. *)
Definition normalize_team_names {I : Type} (df : DataFrame I) : DataFrame I :=
  if empty df then df
  else map (fun r => mkRow (row_id r) (row_name r) (row_team r)
                       (Some (normalize_cell (row_team r)))) df.

(** What the spec's sentence describes instead: lower-case, strip, look
    up, and let an unknown name through lower-cased. *)
Definition normalize_described (x : string) : string :=
  let key := PyStr.strip (PyStr.lower x) in
  dict_get team_mapping key key.

End DataCleaner.

(** ** [player_mapper.PlayerMapper] *)

Module PlayerMapper.

Inductive match_type : Type :=
| manual
| automated.

(** One dict appended to [mappings]. *)
Record mapping : Type := mkMapping {
  fpl_id : Z;
  understat_id : string;
  fpl_name : string;
  understat_name : string;
  matching_type : match_type;
  similarity : Q
}.

(** What the manual mapping file is found to be when it is loaded. *)
Inductive file_state : Type :=
| Absent                                  (* os.path.exists is False *)
| Unreadable                              (* open() raises *)
| Malformed                               (* json.load raises *)
| Holds (d : list (string * string)).     (* json.load returns this dict *)

Inductive log_record : Type :=
| InfoLoaded (n : nat)
| ErrorLoading (e : exn)
| InfoInitialized.

(** The object's attributes, and the records it has sent to the logger. *)
Record t : Type := mkMapper {
  mapping_file : file_state;
  manual_mappings : list (string * string);
  logged : list log_record
}.

Definition log (r : log_record) (self : t) : t :=
  mkMapper (mapping_file self) (manual_mappings self) (logged self ++ [r]).

Definition set_manual_mappings (d : list (string * string)) (self : t) : t :=
  mkMapper (mapping_file self) d (logged self).

(** [open(self.mapping_file, 'r')] followed by [json.load(f)] *)
Definition read_json (f : file_state) : result (list (string * string)) :=
  match f with
  | Absent | Unreadable => Raise OSError
  | Malformed => Raise JSONDecodeError
  | Holds d => Ok d
  end.

Definition path_exists (f : file_state) : bool :=
  match f with
  | Absent => false
  | _ => true
  end.

Definition _load_mappings (self : t) : result t :=
  try_except
    (if path_exists (mapping_file self)
     then d <- read_json (mapping_file self) ;;
          Ok (log (InfoLoaded (length d)) (set_manual_mappings d self))
     else Ok self)
    (fun e => Ok (set_manual_mappings [] (log (ErrorLoading e) self))).

(** [PlayerMapper(mapping_file)] *)
Definition init (file : file_state) : result t :=
  self <- _load_mappings (mkMapper file [] []) ;;
  Ok (log InfoInitialized self).

Definition get_name_similarity (name1 name2 : PyStr.pyval) : Q :=
  let name1 := PyStr.strip (PyStr.lower (PyStr.str name1)) in
  let name2 := PyStr.strip (PyStr.lower (PyStr.str name2)) in
  Difflib.ratio (Difflib.new (list_ascii_of_string name1)
                             (list_ascii_of_string name2)).

(** The loop over [self.manual_mappings.items()]. *)
Fixpoint manual_loop (fpl_df : DataFrame Z) (understat_df : DataFrame string)
  (items : list (string * string)) (mappings : list mapping)
  : result (list mapping) :=
  match items with
  | [] => Ok mappings
  | (fpl_id_str, understat_id) :: items' =>
      fpl_id <- PyStr.int fpl_id_str ;;
      match filter (fun r => Z.eqb (row_id r) fpl_id) fpl_df with
      | [] => manual_loop fpl_df understat_df items' mappings
      | fpl_player :: _ =>
          match filter (fun r => String.eqb (row_id r) understat_id)
                  understat_df with
          | [] => manual_loop fpl_df understat_df items' mappings
          | understat_player :: _ =>
              manual_loop fpl_df understat_df items'
                (mappings ++
                 [mkMapping fpl_id understat_id (row_name fpl_player)
                    (row_name understat_player) manual 1%Q])
          end
      end
  end.

(** [[int(fpl_id) for fpl_id in self.manual_mappings.keys()]] *)
Fixpoint int_keys (keys : list string) : result (list Z) :=
  match keys with
  | [] => Ok []
  | k :: keys' =>
      z <- PyStr.int k ;;
      zs <- int_keys keys' ;;
      Ok (z :: zs)
  end.

(** [row.get('normalized_<team>', row[<team>])] *)
Definition team_key {I : Type} (r : row I) : string :=
  match row_normalized r with
  | Some k => k
  | None => row_team r
  end.

(** The loop over [same_team_players.iterrows()]: the state is
    [(best_match, best_similarity)]. *)
Fixpoint best_loop (fpl_name : string) (players : list (row string))
  (best_match : option (row string)) (best_similarity : Q)
  : option (row string) * Q :=
  match players with
  | [] => (best_match, best_similarity)
  | understat_player :: players' =>
      let sim := get_name_similarity (PyStr.VStr fpl_name)
                   (PyStr.VStr (row_name understat_player)) in
      if Qlt_le_dec best_similarity sim
      then best_loop fpl_name players' (Some understat_player) sim
      else best_loop fpl_name players' best_match best_similarity
  end.

(** The body of the loop over [remaining_fpl.iterrows()]: what one FPL
    row appends to [mappings]. *)
Definition match_row (threshold : Q) (remaining_understat : DataFrame string)
  (fpl_player : row Z) : list mapping :=
  let fpl_team := team_key fpl_player in
  let same_team_players :=
    filter (fun r => String.eqb (team_key r) fpl_team) remaining_understat in
  match best_loop (row_name fpl_player) same_team_players None 0%Q with
  | (Some best_match, best_similarity) =>
      if Qle_bool threshold best_similarity
      then [mkMapping (row_id fpl_player) (row_id best_match)
              (row_name fpl_player) (row_name best_match) automated
              best_similarity]
      else []
  | (None, _) => []
  end.

Fixpoint automated_loop (threshold : Q) (remaining_understat : DataFrame string)
  (remaining_fpl : DataFrame Z) (mappings : list mapping) : list mapping :=
  match remaining_fpl with
  | [] => mappings
  | fpl_player :: rest =>
      automated_loop threshold remaining_understat rest
        (mappings ++ match_row threshold remaining_understat fpl_player)
  end.

(** The list [mappings] as it stands when the loops are over. *)
Definition collect_mappings (self : t) (fpl_df : DataFrame Z)
  (understat_df : DataFrame string) (threshold : Q) : result (list mapping) :=
  mappings <- manual_loop fpl_df understat_df (manual_mappings self) [] ;;
  matched_fpl_ids <- int_keys (map fst (manual_mappings self)) ;;
  let matched_understat_ids := map snd (manual_mappings self) in
  let remaining_fpl :=
    filter (fun r => negb (isin Z.eqb (row_id r) matched_fpl_ids)) fpl_df in
  let remaining_understat :=
    filter (fun r => negb (isin String.eqb (row_id r) matched_understat_ids))
      understat_df in
  let remaining_fpl := DataCleaner.normalize_team_names remaining_fpl in
  let remaining_understat :=
    DataCleaner.normalize_team_names remaining_understat in
  Ok (automated_loop threshold remaining_understat remaining_fpl mappings).

(** [map_players(fpl_df, understat_df, threshold)].  The table returned is
    the list of its rows.  [pd.DataFrame(mappings)] of an empty list has no
    columns, so the [mappings_df['matching_type']] of the closing log call
    raises [KeyError] on it. *)
Definition map_players (self : t) (fpl_df : DataFrame Z)
  (understat_df : DataFrame string) (threshold : Q) : result (list mapping) :=
  if empty fpl_df || empty understat_df then Ok []
  else
    mappings <- collect_mappings self fpl_df understat_df threshold ;;
    match mappings with
    | [] => Raise KeyError
    | _ :: _ => Ok mappings
    end.

Definition default_threshold : Q := 8 # 10.

(** [export_missing_mappings(fpl_df, mappings_df)], the table it returns
    (writing the CSV file is left out). *)
Definition export_missing_mappings (fpl_df : DataFrame Z)
  (mappings_df : list mapping) : DataFrame Z :=
  if empty fpl_df then []
  else
    let mapped_ids := if negb (empty mappings_df)
                      then map fpl_id mappings_df else [] in
    filter (fun r => negb (isin Z.eqb (row_id r) mapped_ids)) fpl_df.

End PlayerMapper.

(** ** [PlayerMapper.add_manual_mapping] and [PlayerMapper._save_mappings] *)

Module ManualStore.

Import PlayerMapper.

(** [d[key] = value]: an existing key keeps its place. *)
Fixpoint dict_set (d : list (string * string)) (key value : string)
  : list (string * string) :=
  match d with
  | [] => [(key, value)]
  | (k, v) :: d' =>
      if String.eqb k key then (k, value) :: d'
      else (k, v) :: dict_set d' key value
  end.

(** [d.get(key)] *)
Fixpoint dict_find (d : list (string * string)) (key : string) : option string :=
  match d with
  | [] => None
  | (k, v) :: d' => if String.eqb k key then Some v else dict_find d' key
  end.

(** What the disk does when the mapping file is written. *)
Inductive disk : Type :=
| Writable   (* the write goes through *)
| ReadOnly   (* [os.makedirs] or [open(..., 'w')] raises *)
| CutShort   (* [open] has emptied the file; [json.dump] or the flush
                raises before the text is complete *)
| CloseFails. (* the text is written; the close raises *)

Inductive save_record : Type :=
| InfoSaved (n : nat)
| ErrorSaving (e : exn)
| InfoAdded (fpl_id : Z) (understat_id : string).

(** The mapper, and the records its save and add have sent to the
    logger. *)
Record t : Type := mkStore {
  mapper : PlayerMapper.t;
  save_logged : list save_record
}.

Definition log_save (r : save_record) (self : t) : t :=
  mkStore (mapper self) (save_logged self ++ [r]).

(** [os.makedirs(...)], [open(self.mapping_file, 'w')] and
    [json.dump(self.manual_mappings, f, indent=2)]: what the file holds
    afterwards, and how the statements end.  When [open] raises the file
    is as it was; once [open] has succeeded the old text is gone, and a
    failure after that leaves either a text that is empty or stops
    before the closing brace, which [json.load] rejects, or the whole
    text. *)
Definition write_json (dk : disk) (file : file_state)
  (d : list (string * string)) : file_state * result unit :=
  match dk with
  | Writable => (Holds d, Ok tt)
  | ReadOnly => (file, Raise OSError)
  | CutShort => (Malformed, Raise OSError)
  | CloseFails => (Holds d, Raise OSError)
  end.

Definition _save_mappings (dk : disk) (self : t) : result t :=
  let (file, outcome) :=
    write_json dk (mapping_file (mapper self))
      (manual_mappings (mapper self)) in
  let self :=
    mkStore (mkMapper file (manual_mappings (mapper self))
               (logged (mapper self)))
      (save_logged self) in
  try_except
    (_ <- outcome ;;
     Ok (log_save (InfoSaved (length (manual_mappings (mapper self)))) self))
    (fun e => Ok (log_save (ErrorSaving e) self)).

(** The longest integer, in decimal digits, that CPython writes as text
    ([sys.int_info.default_max_str_digits]). *)
Definition max_str_digits : nat := 4300.

(** The number of decimal digits of an integer. *)
Definition str_digits (z : Z) : nat :=
  String.length (PyStr.str (PyStr.VInt (Z.abs z))).

(** [str(fpl_id)] for an [int]: [ValueError] for more digits than the
    limit. *)
Definition str_int (z : Z) : result string :=
  if max_str_digits <? str_digits z then Raise ValueError
  else Ok (PyStr.str (PyStr.VInt z)).

Definition add_manual_mapping (dk : disk) (self : t) (fpl_id : Z)
  (understat_id : string) : result t :=
  key <- str_int fpl_id ;;
  let self :=
    mkStore (set_manual_mappings
               (dict_set (manual_mappings (mapper self)) key understat_id)
               (mapper self))
      (save_logged self) in
  self <- _save_mappings dk self ;;
  Ok (log_save (InfoAdded fpl_id understat_id) self).

(** [PlayerMapper(mapping_file)], with nothing saved yet. *)
Definition init (file : file_state) : result t :=
  m <- PlayerMapper.init file ;;
  Ok (mkStore m []).

(** A run of calls [add_manual_mapping(fpl_id, understat_id)], each with
    the state of the disk it meets. *)
Fixpoint add_all (self : t) (calls : list (disk * Z * string)) : result t :=
  match calls with
  | [] => Ok self
  | (dk, fpl_id, understat_id) :: calls' =>
      self <- add_manual_mapping dk self fpl_id understat_id ;;
      add_all self calls'
  end.

End ManualStore.

(** ** [DataCleaner.validate_player_data] *)

Module Validation.

Open Scope string_scope.

(** A row of the table to validate: its [minutes], [goals] and
    [position] cells ([None] for a missing value, which compares false
    with every number and is in no list), and its [data_flags] cell once
    the column exists. *)
Record stats_row : Type := mkStats {
  minutes : option Z;
  goals : option Z;
  position : option string;
  data_flags : option string
}.

(** The table: which of the three columns it has, and its rows. *)
Record stats_df : Type := mkStatsDf {
  has_minutes : bool;
  has_goals : bool;
  has_position : bool;
  stats_rows : list stats_row
}.

(** [cell > bound] on a numeric column *)
Definition gt (cell : option Z) (bound : Z) : bool :=
  match cell with
  | Some z => Z.ltb bound z
  | None => false
  end.

(** [cell.isin(values)] *)
Definition cell_isin (cell : option string) (values : list string) : bool :=
  match cell with
  | Some s => existsb (String.eqb s) values
  | None => false
  end.

(** [s.rstrip(',')] *)
Fixpoint lstrip_commas (l : list ascii) : list ascii :=
  match l with
  | [] => []
  | c :: l' => if Ascii.eqb c "," then lstrip_commas l' else l
  end.

Definition rstrip_commas (s : string) : string :=
  string_of_list_ascii (rev (lstrip_commas (rev (list_ascii_of_string s)))).

Definition set_flags (flags : string) (r : stats_row) : stats_row :=
  mkStats (minutes r) (goals r) (position r) (Some flags).

Definition flags_of (r : stats_row) : string :=
  match data_flags r with
  | Some f => f
  | None => ""
  end.

(** [df.loc[mask, 'data_flags'] += text] *)
Definition add_flag (mask : stats_row -> bool) (text : string)
  (rows : list stats_row) : list stats_row :=
  map (fun r => if mask r then set_flags (flags_of r ++ text) r else r) rows.

Definition validate_player_data (df : stats_df) : stats_df :=
  if empty (stats_rows df) then df
  else
    let rows := map (set_flags "") (stats_rows df) in
    let rows :=
      if has_minutes df
      then add_flag (fun r => gt (minutes r) 3420) "high_minutes," rows
      else rows in
    let rows :=
      if has_goals df && has_position df
      then add_flag
             (fun r => cell_isin (position r) ["Defender"; "Goalkeeper"]
                       && gt (goals r) 10)
             "high_goals_for_position," rows
      else rows in
    let rows := map (fun r => set_flags (rstrip_commas (flags_of r)) r) rows in
    mkStatsDf (has_minutes df) (has_goals df) (has_position df) rows.

End Validation.

(** ** [DataCleaner.clean_player_names] *)

Module NameCleaning.

(** The [special_chars] dict: the code point of an accented letter, and
    the letter that replaces it. *)
Definition special_chars : list (nat * ascii) :=
  [
    (225, "a"%char);
    (224, "a"%char);
    (227, "a"%char);
    (226, "a"%char);
    (228, "a"%char);
    (233, "e"%char);
    (232, "e"%char);
    (234, "e"%char);
    (235, "e"%char);
    (237, "i"%char);
    (236, "i"%char);
    (238, "i"%char);
    (239, "i"%char);
    (243, "o"%char);
    (242, "o"%char);
    (245, "o"%char);
    (244, "o"%char);
    (246, "o"%char);
    (250, "u"%char);
    (249, "u"%char);
    (251, "u"%char);
    (252, "u"%char);
    (231, "c"%char);
    (241, "n"%char) ].

(** [s.replace(char, replacement)] for a single character *)
Definition replace_char (char : nat) (replacement : ascii) (l : list ascii)
  : list ascii :=
  map (fun c => if nat_of_ascii c =? char then replacement else c) l.

(** [for char, replacement in special_chars.items(): ...] *)
Fixpoint replace_all (table : list (nat * ascii)) (l : list ascii) : list ascii :=
  match table with
  | [] => l
  | (char, replacement) :: table' =>
      replace_all table' (replace_char char replacement l)
  end.

(** [l] starts with the text [w]; what follows it. *)
Fixpoint after_prefix (w l : list ascii) : option (list ascii) :=
  match w, l with
  | [], _ => Some l
  | _ :: _, [] => None
  | x :: w', c :: l' => if Ascii.eqb x c then after_prefix w' l' else None
  end.

(** Where [$] matches: at the end, or before a newline that ends the
    text. *)
Definition at_end (l : list ascii) : bool :=
  match l with
  | [] => true
  | [c] => nat_of_ascii c =? 10
  | _ => false
  end.

(** [\.?$] after a suffix word: the dot is taken when the end follows
    it, left out when the end is there without it. *)
Definition dot_then_end (l : list ascii) : option (list ascii) :=
  match l with
  | c :: l' =>
      if (nat_of_ascii c =? 46) && at_end l' then Some l'
      else if at_end l then Some l else None
  | [] => Some []
  end.

(** [(jr|sr|i{1,3}|iv)\.?$], the alternatives in the order the matcher
    tries them; what is left after the match. *)
Fixpoint suffix_word (words : list (list ascii)) (l : list ascii)
  : option (list ascii) :=
  match words with
  | [] => None
  | w :: words' =>
      match after_prefix w l with
      | Some rest =>
          match dot_then_end rest with
          | Some remainder => Some remainder
          | None => suffix_word words' l
          end
      | None => suffix_word words' l
      end
  end.

Definition suffix_words : list (list ascii) :=
  map list_ascii_of_string ["jr"; "sr"; "iii"; "ii"; "i"; "iv"]%string.

(** A match of [\s+(jr|sr|i{1,3}|iv)\.?$] at the head of [l]: what is
    left after it, which is nothing or the closing newline. *)
Definition match_suffix (l : list ascii) : option (list ascii) :=
  match l with
  | c :: l' =>
      if PyStr.isspace c then suffix_word suffix_words (PyStr.lstrip_chars l')
      else None
  | [] => None
  end.

(** [re.sub(pattern, '', text)] for that pattern: after a match only a
    closing newline can be left, where the pattern does not match
    again. *)
Fixpoint remove_suffix (l : list ascii) : list ascii :=
  match l with
  | [] => []
  | c :: l' =>
      match match_suffix l with
      | Some remainder => remainder
      | None => c :: remove_suffix l'
      end
  end.

Definition is_az (c : ascii) : bool :=
  (97 <=? nat_of_ascii c) && (nat_of_ascii c <=? 122).

(** A match of [\s+[a-z]\.?\s+] at the head of [l]: what is left after
    it. *)
Definition match_initial (l : list ascii) : option (list ascii) :=
  match l with
  | c :: l' =>
      if PyStr.isspace c then
        match PyStr.lstrip_chars l' with
        | x :: r =>
            if is_az x then
              let r := match r with
                       | d :: r' => if nat_of_ascii d =? 46 then r' else r
                       | [] => r
                       end in
              match r with
              | w :: r' =>
                  if PyStr.isspace w then Some (PyStr.lstrip_chars r')
                  else None
              | [] => None
              end
            else None
        | [] => None
        end
      else None
  | [] => None
  end.

(** [re.sub(pattern, ' ', text)] for that pattern; [skip] counts the
    characters of the match in progress that are still to be passed
    over. *)
Fixpoint replace_initials (skip : nat) (l : list ascii) : list ascii :=
  match l with
  | [] => []
  | c :: l' =>
      match skip with
      | S skip' => replace_initials skip' l'
      | 0 =>
          match match_initial l with
          | Some remainder =>
              " "%char :: replace_initials (length l' - length remainder) l'
          | None => c :: replace_initials 0 l'
          end
      end
  end.

(** The cell of the [clean_<name>] column for a name. *)
Definition clean_name (name : string) : string :=
  string_of_list_ascii
    (replace_initials 0
       (remove_suffix
          (replace_all special_chars
             (list_ascii_of_string (PyStr.lower name))))).

(** A row of the table: the name, and the clean name once the column
    exists. *)
Record named_row : Type := mkNamed {
  name_cell : string;
  clean_cell : option string
}.

(** [clean_player_names(df)] for a table whose name column is there and
    holds strings: an empty table comes back as it is, any other gets
    the clean name of each row.  The line written to the log is left
    out. *)
Definition clean_player_names (df : list named_row) : list named_row :=
  if empty df then df
  else map (fun r => mkNamed (name_cell r) (Some (clean_name (name_cell r)))) df.

End NameCleaning.

(** ** Notions derived from the matcher, used to state its properties *)

Module Matcher.

Import PlayerMapper.

(** The keys and the values of the overlay. *)
Definition overlay_keys (self : t) : list string := map fst (manual_mappings self).
Definition overlay_values (self : t) : list string := map snd (manual_mappings self).

(** What one overlay pair, with its key converted, appends in the manual
    pass. *)
Definition manual_entry (fpl_df : DataFrame Z) (understat_df : DataFrame string)
  (pair : Z * string) : list mapping :=
  match filter (fun r => Z.eqb (row_id r) (fst pair)) fpl_df with
  | [] => []
  | fpl_player :: _ =>
      match filter (fun r => String.eqb (row_id r) (snd pair)) understat_df with
      | [] => []
      | understat_player :: _ =>
          [mkMapping (fst pair) (snd pair) (row_name fpl_player)
             (row_name understat_player) manual 1%Q]
      end
  end.

(** [r] is the first row of the table that carries the id [i]: what
    [df[df[id_col] == i].iloc[0]] is. *)
Definition first_with_id {I : Type} (df : DataFrame I) (i : I) (r : row I)
  : Prop :=
  exists before after,
    df = (before ++ r :: after)%list
    /\ row_id r = i
    /\ forall q, In q before -> row_id q <> i.

(** The two tables the automated pass works on. *)
Definition remaining_fpl (matched_fpl_ids : list Z) (fpl_df : DataFrame Z)
  : DataFrame Z :=
  DataCleaner.normalize_team_names
    (filter (fun r => negb (isin Z.eqb (row_id r) matched_fpl_ids)) fpl_df).

Definition remaining_understat (matched_understat_ids : list string)
  (understat_df : DataFrame string) : DataFrame string :=
  DataCleaner.normalize_team_names
    (filter (fun r => negb (isin String.eqb (row_id r) matched_understat_ids))
       understat_df).

(** The similarity the automated pass computes for a pair of rows. *)
Definition row_similarity (p : row Z) (c : row string) : Q :=
  get_name_similarity (PyStr.VStr (row_name p)) (PyStr.VStr (row_name c)).

(** The key a row is bucketed by. *)
Definition normalized_team {I : Type} (r : row I) : string :=
  DataCleaner.normalize_cell (row_team r).

(** [c] is a row the automated pass may compare with [p]: it is left over
    from the manual pass and sits in the same team bucket. *)
Definition candidate (self : t) (understat_df : DataFrame string) (p : row Z)
  (c : row string) : Prop :=
  In c understat_df
  /\ ~ In (row_id c) (overlay_values self)
  /\ normalized_team c = normalized_team p.

(** The entry that pairs [p] and [c] automatically with score [s]. *)
Definition automated_entry (p : row Z) (c : row string) (s : Q) : mapping :=
  mkMapping (row_id p) (row_id c) (row_name p) (row_name c) automated s.

(** The characters of a name as the scorer compares them. *)
Definition cleaned (x : PyStr.pyval) : list ascii :=
  list_ascii_of_string (PyStr.strip (PyStr.lower (PyStr.str x))).

End Matcher.

(** ** Notions used to reason about the sequence matcher *)

Module Blocks.

Import Difflib.

(** The size of a block. *)
Definition size (m : match_t) : nat := snd m.

(** A range of the queue is well formed. *)
Definition range_ok (r : range_t) : Prop :=
  let '(alo, ahi, blo, bhi) := r in alo <= ahi /\ blo <= bhi.

(** A block lies inside a range. *)
Definition within (m : match_t) (r : range_t) : Prop :=
  let '(i, j, k) := m in
  let '(alo, ahi, blo, bhi) := r in
  alo <= i /\ i + k <= ahi /\ blo <= j /\ j + k <= bhi.

(** The lengths [j2len] keeps for row [i] fit above [alo] and [blo]. *)
Definition row_fits (alo blo : nat) (d : j2len_t) (i : nat) : Prop :=
  forall j, j2len_get d j <= i + 1 - alo /\ j2len_get d j <= j + 1 - blo.

(** The same, seen from the row after. *)
Definition prev_fits (alo blo : nat) (d : j2len_t) (i : nat) : Prop :=
  forall j, j2len_prev d j <= i - alo /\ j2len_prev d j <= j - blo.

(** The elements of [a], and of [b], that the ranges of the queue cover. *)
Fixpoint width_a (queue : list range_t) : nat :=
  match queue with
  | [] => 0
  | (alo, ahi, _, _) :: queue' => (ahi - alo) + width_a queue'
  end.

Fixpoint width_b (queue : list range_t) : nat :=
  match queue with
  | [] => 0
  | (_, _, blo, bhi) :: queue' => (bhi - blo) + width_b queue'
  end.

(** A bound on the turns the queue loop still takes. *)
Fixpoint turns (queue : list range_t) : nat :=
  match queue with
  | [] => 0
  | (alo, ahi, _, _) :: queue' => 2 * (ahi - alo) + 1 + turns queue'
  end.

(** The indices, counted from [off], at which [c] stands in [l]. *)
Fixpoint positions (c : ascii) (l : list ascii) (off : nat) : list nat :=
  match l with
  | [] => []
  | e :: l' =>
      if Ascii.eqb e c then off :: positions c l' (S off)
      else positions c l' (S off)
  end.

(** The list behind [b2j.get(elt, nothing)]. *)
Definition listed (o : option (list nat)) : list nat :=
  match o with
  | Some idxs => idxs
  | None => []
  end.

(** The indices [b2j] lists for the element at index [x] of [a]. *)
Definition indices_at (sm : SequenceMatcher) (x : nat) : list nat :=
  match b2j_get (b2j sm) (nth x (seq_a sm) zero_char) with
  | Some idxs => idxs
  | None => []
  end.





End Blocks.

(** ** Notions used to reason about [int] and [str] *)

Module Digits.

(** The number that the digits of [d] spell after the digits that spell
    [acc]. *)
Fixpoint uint_value (acc : Z) (d : Decimal.uint) : Z :=
  match d with
  | Decimal.Nil => acc
  | Decimal.D0 d => uint_value (10 * acc + 0) d
  | Decimal.D1 d => uint_value (10 * acc + 1) d
  | Decimal.D2 d => uint_value (10 * acc + 2) d
  | Decimal.D3 d => uint_value (10 * acc + 3) d
  | Decimal.D4 d => uint_value (10 * acc + 4) d
  | Decimal.D5 d => uint_value (10 * acc + 5) d
  | Decimal.D6 d => uint_value (10 * acc + 6) d
  | Decimal.D7 d => uint_value (10 * acc + 7) d
  | Decimal.D8 d => uint_value (10 * acc + 8) d
  | Decimal.D9 d => uint_value (10 * acc + 9) d
  end.

Definition uint_chars (d : Decimal.uint) : list ascii :=
  list_ascii_of_string (NilEmpty.string_of_uint d).

End Digits.

(** ** Notions used to state the properties of the manual store *)

Module Overlay.

(** The keys are the texts of integers, as [add_manual_mapping] writes
    them, and no key occurs twice. *)
Definition canonical (d : list (string * string)) : Prop :=
  NoDup (map fst d)
  /\ forall k, In k (map fst d) -> exists z, k = PyStr.str (PyStr.VInt z).

(** What the file holds after a save. *)
Definition file_after (dk : ManualStore.disk) (file : PlayerMapper.file_state)
  (d : list (string * string)) : PlayerMapper.file_state :=
  fst (ManualStore.write_json dk file d).

(** What the save sends to the logger. *)
Definition save_line (dk : ManualStore.disk) (d : list (string * string))
  : ManualStore.save_record :=
  match dk with
  | ManualStore.Writable => ManualStore.InfoSaved (length d)
  | ManualStore.ReadOnly | ManualStore.CutShort | ManualStore.CloseFails =>
      ManualStore.ErrorSaving OSError
  end.

End Overlay.

(** ** Notions used to state the properties of the validation *)

Module Flags.

Import Validation.

Open Scope string_scope.

(** The two checks of [validate_player_data] on a row of a table. *)
Definition high_minutes (df : stats_df) (r : stats_row) : bool :=
  has_minutes df && gt (minutes r) 3420.

Definition high_goals (df : stats_df) (r : stats_row) : bool :=
  has_goals df && has_position df
  && cell_isin (position r) ["Defender"; "Goalkeeper"] && gt (goals r) 10.

(** The text a row is flagged with. *)
Definition flag_text (df : stats_df) (r : stats_row) : string :=
  match high_minutes df r, high_goals df r with
  | true, true => "high_minutes,high_goals_for_position"
  | true, false => "high_minutes"
  | false, true => "high_goals_for_position"
  | false, false => ""
  end.

End Flags.

(** ** Sample data *)

Module Samples.

Import PlayerMapper.

Open Scope string_scope.

(** A mapper whose overlay file does not exist. *)
Definition no_overlay : PlayerMapper.t := mkMapper Absent [] [].

Definition de_bruyne_fpl : DataFrame Z :=
  [mkRow 2%Z "Kevin De Bruyne" "Man City" None].

Definition de_bruyne_understat : DataFrame string :=
  [mkRow "u2" "K. De Bruyne" "Manchester City" None].

(** Two primary rows named alike, one secondary row. *)
Definition kane_twice_fpl : DataFrame Z :=
  [mkRow 1%Z "Harry Kane" "Spurs" None; mkRow 2%Z "Harry Kane" "Spurs" None].

Definition kane_understat : DataFrame string :=
  [mkRow "u1" "Harry Kane" "Spurs" None].

(** An overlay that gives the first Kane to [u1], and a secondary table
    with a second, differently spelled Kane. *)
Definition kane_overlay : PlayerMapper.t := mkMapper Absent [("1", "u1")] [].

Definition kane_two_understat : DataFrame string :=
  [mkRow "u1" "Harry Kane" "Spurs" None; mkRow "u2" "H. Kane" "Spurs" None].

(** An overlay whose two keys read as the same integer. *)
Definition aliased_overlay : PlayerMapper.t :=
  mkMapper Absent [("1", "u1"); ("01", "u2")] [].

(** An overlay whose pair points at a secondary id that is gone. *)
Definition stale_overlay : PlayerMapper.t := mkMapper Absent [("1", "u9")] [].

(** A pair that shares no letter, next to a pair that agrees. *)
Definition disjoint_fpl : DataFrame Z :=
  [mkRow 1%Z "ab" "Spurs" None; mkRow 2%Z "Harry Kane" "Arsenal" None].

Definition disjoint_understat : DataFrame string :=
  [mkRow "u1" "cd" "Spurs" None; mkRow "u2" "Harry Kane" "Arsenal" None].

(** Two secondary rows named alike on one team. *)
Definition kane_two_alike : DataFrame string :=
  [mkRow "u1" "Harry Kane" "Spurs" None; mkRow "u2" "Harry Kane" "Spurs" None].

(** A midfielder with 30 goals and 3420 minutes; a defender with 11 goals
    and 3421 minutes. *)
Definition boundary_stats : Validation.stats_df :=
  Validation.mkStatsDf true true true
    [Validation.mkStats (Some 3420%Z) (Some 30%Z) (Some "Midfielder") None;
     Validation.mkStats (Some 3421%Z) (Some 11%Z) (Some "Defender") None].

End Samples.

(** * Vocabulary for name cleaning *)

Module Names.

Import NameCleaning.

Open Scope string_scope.

(** What a table of replacements makes of one character, the entries
    applied in order. *)
Definition replace_in (table : list (nat * ascii)) (c : ascii) : ascii :=
  fold_left
    (fun (c : ascii) (p : nat * ascii) =>
       if (nat_of_ascii c =? fst p)%nat then snd p else c) table c.

(** A character after the [special_chars] replacements. *)
Definition deaccent (c : ascii) : ascii := replace_in special_chars c.

(** No character of the text is white space. *)
Definition spaceless (l : list ascii) : Prop :=
  forall c, In c l -> PyStr.isspace c = false.

(** [r] closes [l]. *)
Definition closes (r l : list ascii) : Prop := exists p, l = (p ++ r)%list.

(** The lower-case spellings of a generational suffix. *)
Definition suffix_spellings : list string :=
  ["jr"; "jr."; "sr"; "sr."; "i"; "i."; "ii"; "ii."; "iii"; "iii.";
   "iv"; "iv."].

(** A table of three players, the column not yet there. *)
Definition three_names : list named_row :=
  [mkNamed "Harry Kane" None; mkNamed "John F. Stones" None;
   mkNamed "Neymar Jr." None].

End Names.

(** * Properties of the matcher *)

Unset Implicit Arguments.

Module MatcherFacts.

Import PlayerMapper Matcher.

Lemma isin_string_In (x : string) (l : list string) :
  isin String.eqb x l = true <-> In x l.
Proof.
  unfold isin. rewrite existsb_exists. split.
  - intros [y [Hy He]]. apply String.eqb_eq in He. now subst.
  - intros H. exists x. split; [assumption | apply String.eqb_refl].
Qed.

Lemma isin_Z_In (x : Z) (l : list Z) : isin Z.eqb x l = true <-> In x l.
Proof.
  unfold isin. rewrite existsb_exists. split.
  - intros [y [Hy He]]. apply Z.eqb_eq in He. now subst.
  - intros H. exists x. split; [assumption | apply Z.eqb_refl].
Qed.

Lemma int_ok_or_value_error (k : string) :
  (exists z, PyStr.int k = Ok z) \/ PyStr.int k = Raise ValueError.
Proof.
  unfold PyStr.int. destruct (PyStr.int_chars _); [left; eauto | now right].
Qed.

Lemma automated_loop_flat_map thr ru rf acc :
  automated_loop thr ru rf acc = acc ++ flat_map (match_row thr ru) rf.
Proof.
  revert acc. induction rf as [|p rf IH]; intros acc; simpl.
  - now rewrite app_nil_r.
  - rewrite IH. now rewrite app_assoc.
Qed.

Lemma manual_loop_ok fpl us items : forall acc zs,
  int_keys (map fst items) = Ok zs ->
  manual_loop fpl us items acc
  = Ok (acc ++ flat_map (manual_entry fpl us) (combine zs (map snd items))).
Proof.
  induction items as [|[k v] items IH]; intros acc zs H; simpl in *.
  - inversion H; subst. simpl. now rewrite app_nil_r.
  - destruct (PyStr.int k) as [z|e]; simpl in *; [|discriminate].
    destruct (int_keys (map fst items)) as [zs'|e]; simpl in *; [|discriminate].
    inversion H; subst; clear H. simpl.
    unfold manual_entry at 1. simpl.
    destruct (filter _ fpl) as [|p ?].
    + now apply IH.
    + destruct (filter _ us) as [|u ?].
      * now apply IH.
      * rewrite (IH _ zs' eq_refl). now rewrite <- app_assoc.
Qed.

Lemma manual_loop_inv fpl us items : forall acc m,
  manual_loop fpl us items acc = Ok m ->
  exists zs, int_keys (map fst items) = Ok zs.
Proof.
  induction items as [|[k v] items IH]; intros acc m H; simpl in *.
  - eauto.
  - destruct (PyStr.int k) as [z|e]; simpl in *; [|discriminate].
    assert (exists acc', manual_loop fpl us items acc' = Ok m) as [acc' H'].
    { destruct (filter _ fpl); [eauto|]. destruct (filter _ us); eauto. }
    destruct (IH _ _ H') as [zs Hzs]. rewrite Hzs. simpl. eauto.
Qed.

Lemma int_keys_length keys : forall zs,
  int_keys keys = Ok zs -> length zs = length keys.
Proof.
  induction keys as [|k keys IH]; intros zs H; simpl in *.
  - now inversion H.
  - destruct (PyStr.int k); simpl in *; [|discriminate].
    destruct (int_keys keys); simpl in *; [|discriminate].
    inversion H; subst. simpl. f_equal. now apply IH.
Qed.

(** The key of [zs] that stands at the place of the overlay key [k]. *)
Lemma int_keys_In keys : forall zs k,
  int_keys keys = Ok zs -> In k keys ->
  exists z, PyStr.int k = Ok z /\ In z zs.
Proof.
  induction keys as [|k0 keys IH]; intros zs k H Hin; simpl in *.
  - contradiction.
  - destruct (PyStr.int k0) as [z0|] eqn:E0; simpl in *; [|discriminate].
    destruct (int_keys keys) as [zs'|]; simpl in *; [|discriminate].
    inversion H; subst; clear H.
    destruct Hin as [->|Hin].
    + exists z0. split; [assumption | now left].
    + destruct (IH _ _ eq_refl Hin) as [z [Hz Hz']]. exists z.
      split; [assumption | now right].
Qed.

Lemma int_keys_combine (items : list (string * string)) : forall zs z v,
  int_keys (map fst items) = Ok zs ->
  In (z, v) (combine zs (map snd items)) ->
  exists k, In (k, v) items /\ PyStr.int k = Ok z.
Proof.
  induction items as [|[k0 v0] items IH]; intros zs z v H Hin; simpl in *.
  - inversion H; subst. contradiction.
  - destruct (PyStr.int k0) as [z0|] eqn:E0; simpl in *; [|discriminate].
    destruct (int_keys (map fst items)) as [zs'|]; simpl in *; [|discriminate].
    inversion H; subst; clear H. simpl in Hin.
    destruct Hin as [Heq|Hin].
    + inversion Heq; subst. exists k0. split; [now left | assumption].
    + destruct (IH _ _ _ eq_refl Hin) as [k [Hk Hk']].
      exists k. split; [now right | assumption].
Qed.

(** The shape of the list the loops build. *)
Lemma collect_mappings_ok self fpl us thr zs :
  int_keys (overlay_keys self) = Ok zs ->
  collect_mappings self fpl us thr
  = Ok (flat_map (manual_entry fpl us) (combine zs (overlay_values self))
        ++ flat_map (match_row thr (remaining_understat (overlay_values self) us))
             (remaining_fpl zs fpl)).
Proof.
  intros H. unfold collect_mappings.
  rewrite (manual_loop_ok fpl us (manual_mappings self) [] zs H). simpl.
  unfold overlay_keys in H. rewrite H. simpl.
  now rewrite automated_loop_flat_map.
Qed.

Lemma collect_mappings_inv self fpl us thr m :
  collect_mappings self fpl us thr = Ok m ->
  exists zs, int_keys (overlay_keys self) = Ok zs
    /\ m = flat_map (manual_entry fpl us) (combine zs (overlay_values self))
           ++ flat_map (match_row thr (remaining_understat (overlay_values self) us))
                (remaining_fpl zs fpl).
Proof.
  intros H.
  assert (exists zs, int_keys (overlay_keys self) = Ok zs) as [zs Hzs].
  { unfold collect_mappings in H.
    destruct (manual_loop fpl us (manual_mappings self) []) eqn:E; simpl in H;
      [|discriminate].
    eapply manual_loop_inv; eauto. }
  exists zs. split; [assumption|].
  rewrite (collect_mappings_ok self fpl us thr zs Hzs) in H. now inversion H.
Qed.

Lemma map_players_inv self fpl us thr m :
  map_players self fpl us thr = Ok m ->
  m = [] \/
  exists zs, int_keys (overlay_keys self) = Ok zs
    /\ m = flat_map (manual_entry fpl us) (combine zs (overlay_values self))
           ++ flat_map (match_row thr (remaining_understat (overlay_values self) us))
                (remaining_fpl zs fpl).
Proof.
  unfold map_players. intros H.
  destruct (empty fpl || empty us).
  - left. now inversion H.
  - right. destruct (collect_mappings self fpl us thr) as [l|] eqn:E; simpl in H;
      [|discriminate].
    destruct l; [discriminate|]. inversion H; subst.
    now apply collect_mappings_inv.
Qed.

(** Rows of a normalized table. *)
Lemma normalize_team_names_In {I : Type} (df : DataFrame I) (r' : row I) :
  In r' (DataCleaner.normalize_team_names df) ->
  exists r, In r df /\ row_id r' = row_id r /\ row_name r' = row_name r
            /\ team_key r' = normalized_team r.
Proof.
  unfold DataCleaner.normalize_team_names. destruct df as [|r0 df]; simpl.
  - contradiction.
  - intros [<-|H].
    + exists r0. repeat split. now left.
    + apply in_map_iff in H. destruct H as [r [<- Hr]].
      exists r. repeat split. now right.
Qed.

Lemma normalize_team_names_In_conv {I : Type} (df : DataFrame I) (r : row I) :
  In r df ->
  In (mkRow (row_id r) (row_name r) (row_team r) (Some (normalized_team r)))
     (DataCleaner.normalize_team_names df).
Proof.
  unfold DataCleaner.normalize_team_names. destruct df as [|r0 df]; [contradiction|].
  intros H. cbn [empty].
  apply (in_map (fun r => mkRow (row_id r) (row_name r) (row_team r)
                            (Some (DataCleaner.normalize_cell (row_team r))))) in H.
  exact H.
Qed.

Lemma normalize_team_names_ids {I : Type} (df : DataFrame I) :
  map (@row_id I) (DataCleaner.normalize_team_names df) = map (@row_id I) df.
Proof.
  unfold DataCleaner.normalize_team_names. destruct df as [|r0 df]; [reflexivity|].
  cbn [empty]. rewrite map_map. reflexivity.
Qed.

Lemma remaining_fpl_In zs fpl p' :
  In p' (remaining_fpl zs fpl) ->
  exists p, In p fpl /\ ~ In (row_id p) zs /\ row_id p' = row_id p
            /\ row_name p' = row_name p /\ team_key p' = normalized_team p.
Proof.
  unfold remaining_fpl. intros H.
  apply normalize_team_names_In in H. destruct H as [p [Hp H]].
  apply filter_In in Hp. destruct Hp as [Hp Hn].
  exists p. split; [assumption|]. split; [|assumption].
  intros Hin. apply isin_Z_In in Hin. rewrite Hin in Hn. discriminate.
Qed.

Lemma remaining_understat_In vals us c' :
  In c' (remaining_understat vals us) ->
  exists c, In c us /\ ~ In (row_id c) vals /\ row_id c' = row_id c
            /\ row_name c' = row_name c /\ team_key c' = normalized_team c.
Proof.
  unfold remaining_understat. intros H.
  apply normalize_team_names_In in H. destruct H as [c [Hc H]].
  apply filter_In in Hc. destruct Hc as [Hc Hn].
  exists c. split; [assumption|]. split; [|assumption].
  intros Hin. apply isin_string_In in Hin. rewrite Hin in Hn. discriminate.
Qed.

Lemma remaining_fpl_In_conv zs fpl p :
  In p fpl -> ~ In (row_id p) zs ->
  In (mkRow (row_id p) (row_name p) (row_team p) (Some (normalized_team p)))
     (remaining_fpl zs fpl).
Proof.
  intros Hp Hn. unfold remaining_fpl.
  apply (normalize_team_names_In_conv _ p).
  apply filter_In. split; [assumption|].
  destruct (isin Z.eqb (row_id p) zs) eqn:E; [|reflexivity].
  apply isin_Z_In in E. contradiction.
Qed.

Lemma remaining_understat_In_conv vals us c :
  In c us -> ~ In (row_id c) vals ->
  In (mkRow (row_id c) (row_name c) (row_team c) (Some (normalized_team c)))
     (remaining_understat vals us).
Proof.
  intros Hc Hn. unfold remaining_understat.
  apply (normalize_team_names_In_conv _ c).
  apply filter_In. split; [assumption|].
  destruct (isin String.eqb (row_id c) vals) eqn:E; [|reflexivity].
  apply isin_string_In in E. contradiction.
Qed.

(** The inner loop keeps the first row that reaches the highest score
    above the score it starts from. *)
Lemma best_loop_spec name players : forall bm bs bm' bs',
  best_loop name players bm bs = (bm', bs') ->
  (bs <= bs')%Q
  /\ (forall c, In c players ->
        (get_name_similarity (PyStr.VStr name) (PyStr.VStr (row_name c)) <= bs')%Q)
  /\ ((bm' = bm /\ bs' = bs)
      \/ exists c, In c players /\ bm' = Some c
           /\ bs' = get_name_similarity (PyStr.VStr name) (PyStr.VStr (row_name c))).
Proof.
  induction players as [|c players IH]; intros bm bs bm' bs' H; simpl in H.
  - inversion H; subst. split; [apply Qle_refl|]. split; [contradiction | now left].
  - destruct (Qlt_le_dec bs _) as [Hlt|Hle].
    + apply IH in H. destruct H as [H1 [H2 H3]].
      split; [eapply Qle_trans; [apply Qlt_le_weak; eassumption | assumption]|].
      split.
      * intros c' [<-|Hc']; [assumption | now apply H2].
      * right. destruct H3 as [[-> ->]|[c' [Hc' [-> ->]]]].
        -- exists c. repeat split. now left.
        -- exists c'. repeat split. now right.
    + apply IH in H. destruct H as [H1 [H2 H3]].
      split; [assumption|]. split.
      * intros c' [<-|Hc']; [eapply Qle_trans; eassumption | now apply H2].
      * destruct H3 as [[-> ->]|[c' [Hc' [-> ->]]]]; [now left|].
        right. exists c'. repeat split. now right.
Qed.

(** One FPL row appends nothing or one entry. *)
Lemma match_row_cases thr ru p :
  match_row thr ru p = []
  \/ exists c,
       In c ru /\ team_key c = team_key p
       /\ (thr <= get_name_similarity (PyStr.VStr (row_name p))
                    (PyStr.VStr (row_name c)))%Q
       /\ (forall c', In c' ru -> team_key c' = team_key p ->
             (get_name_similarity (PyStr.VStr (row_name p))
                (PyStr.VStr (row_name c'))
              <= get_name_similarity (PyStr.VStr (row_name p))
                   (PyStr.VStr (row_name c)))%Q)
       /\ match_row thr ru p
          = [mkMapping (row_id p) (row_id c) (row_name p) (row_name c) automated
               (get_name_similarity (PyStr.VStr (row_name p))
                  (PyStr.VStr (row_name c)))].
Proof.
  unfold match_row.
  destruct (best_loop _ _ None 0%Q) as [bm bs] eqn:E.
  apply best_loop_spec in E. destruct E as [H1 [H2 H3]].
  destruct H3 as [[-> ->]|[c [Hc [-> ->]]]]; [now left|].
  destruct (Qle_bool thr _) eqn:Ht; [|now left].
  right. exists c. apply filter_In in Hc. destruct Hc as [Hc Hk].
  apply String.eqb_eq in Hk. apply Qle_bool_iff in Ht.
  repeat split; try assumption.
  intros c' Hc' Hk'. apply H2. apply filter_In. split; [assumption|].
  now apply String.eqb_eq.
Qed.

(** When some row of the bucket scores above zero, the row is paired
    exactly when the highest score reaches the threshold. *)
Lemma match_row_emits thr ru p c :
  In c ru -> team_key c = team_key p ->
  (0 < get_name_similarity (PyStr.VStr (row_name p)) (PyStr.VStr (row_name c)))%Q ->
  (thr <= get_name_similarity (PyStr.VStr (row_name p)) (PyStr.VStr (row_name c)))%Q ->
  match_row thr ru p <> [].
Proof.
  intros Hc Hk Hpos Hthr. unfold match_row.
  destruct (best_loop _ _ None 0%Q) as [bm bs] eqn:E.
  apply best_loop_spec in E. destruct E as [H1 [H2 H3]].
  assert (Hin : In c (filter (fun r => String.eqb (team_key r) (team_key p)) ru)).
  { apply filter_In. split; [assumption | now apply String.eqb_eq]. }
  specialize (H2 c Hin).
  destruct H3 as [[-> ->]|[c' [Hc' [-> ->]]]].
  - exfalso. apply (Qlt_irrefl 0). eapply Qlt_le_trans; eassumption.
  - assert (Ht : Qle_bool thr (get_name_similarity (PyStr.VStr (row_name p))
                                 (PyStr.VStr (row_name c'))) = true).
    { apply Qle_bool_iff. eapply Qle_trans; eassumption. }
    rewrite Ht. discriminate.
Qed.

Lemma manual_entry_In fpl us pair e :
  In e (manual_entry fpl us pair) ->
  matching_type e = manual /\ fpl_id e = fst pair /\ understat_id e = snd pair
  /\ similarity e = 1%Q
  /\ (exists p, In p fpl /\ row_id p = fst pair /\ fpl_name e = row_name p)
  /\ (exists u, In u us /\ row_id u = snd pair /\ understat_name e = row_name u).
Proof.
  unfold manual_entry.
  destruct (filter _ fpl) as [|p l] eqn:Ep; [contradiction|].
  destruct (filter _ us) as [|u l'] eqn:Eu; [contradiction|].
  intros [<-|[]]. simpl.
  assert (Hp : In p (filter (fun r => Z.eqb (row_id r) (fst pair)) fpl))
    by (rewrite Ep; now left).
  assert (Hu : In u (filter (fun r => String.eqb (row_id r) (snd pair)) us))
    by (rewrite Eu; now left).
  apply filter_In in Hp. apply filter_In in Hu.
  destruct Hp as [Hp Hp']. destruct Hu as [Hu Hu'].
  apply Z.eqb_eq in Hp'. apply String.eqb_eq in Hu'.
  repeat split; eauto.
Qed.

(** A pair whose secondary id is in no row of the secondary table
    appends nothing. *)
Lemma manual_entry_stale fpl us pair :
  ~ In (snd pair) (map (@row_id string) us) -> manual_entry fpl us pair = [].
Proof.
  intros H. unfold manual_entry.
  destruct (filter _ fpl) as [|p l]; [reflexivity|].
  destruct (filter _ us) as [|u l'] eqn:Eu; [reflexivity|].
  exfalso. apply H.
  assert (Hu : In u (filter (fun r => String.eqb (row_id r) (snd pair)) us))
    by (rewrite Eu; now left).
  apply filter_In in Hu. destruct Hu as [Hu Hu'].
  apply String.eqb_eq in Hu'. rewrite <- Hu'. now apply in_map.
Qed.

(** Every entry of the automated pass pairs a row left over from the
    manual pass with the best of its candidates. *)
Lemma automated_In self fpl us thr zs e :
  In e (flat_map (match_row thr (remaining_understat (overlay_values self) us))
          (remaining_fpl zs fpl)) ->
  exists p c,
    In p fpl /\ ~ In (row_id p) zs /\ candidate self us p c
    /\ e = automated_entry p c (row_similarity p c)
    /\ (thr <= row_similarity p c)%Q
    /\ (forall c', candidate self us p c' ->
          (row_similarity p c' <= row_similarity p c)%Q).
Proof.
  intros H. apply in_flat_map in H. destruct H as [p' [Hp' He]].
  destruct (match_row_cases thr (remaining_understat (overlay_values self) us) p')
    as [Hnil|[c' [Hc' [Hk [Hthr [Hmax Heq]]]]]].
  - rewrite Hnil in He. contradiction.
  - rewrite Heq in He. destruct He as [<-|[]].
    apply remaining_fpl_In in Hp'.
    destruct Hp' as [p [Hp [Hnp [Hid [Hname Hteam]]]]].
    apply remaining_understat_In in Hc'.
    destruct Hc' as [c [Hc [Hnc [Hcid [Hcname Hcteam]]]]].
    rewrite Hname, Hcname in Hthr. rewrite Hname in Hmax. rewrite Hcname in Hmax.
    rewrite Hid, Hname, Hcid, Hcname.
    exists p, c. unfold candidate, automated_entry, row_similarity.
    split; [assumption|]. split; [assumption|].
    split; [split; [assumption|]; split; [assumption | congruence]|].
    split; [reflexivity|]. split; [assumption|].
    intros c2 [Hc2 [Hn2 Hk2]].
    pose proof (remaining_understat_In_conv _ _ _ Hc2 Hn2) as Hin2.
    specialize (Hmax _ Hin2). simpl in Hmax. apply Hmax.
    unfold team_key at 1. simpl. congruence.
Qed.

Lemma manual_In fpl us (zs : list Z) (vals : list string) e :
  In e (flat_map (manual_entry fpl us) (combine zs vals)) ->
  matching_type e = manual /\ In (fpl_id e) zs /\ In (understat_id e) vals
  /\ In (fpl_id e, understat_id e) (combine zs vals)
  /\ similarity e = 1%Q
  /\ In (fpl_id e) (map (@row_id Z) fpl)
  /\ In (understat_id e) (map (@row_id string) us).
Proof.
  intros H. apply in_flat_map in H. destruct H as [[z v] [Hzv He]].
  apply manual_entry_In in He. simpl in He.
  destruct He as [Ht [Hf [Hu [Hs [[p [Hp [Hpid _]]] [u [Hu' [Huid _]]]]]]]].
  rewrite Hf, Hu. repeat split; try assumption.
  - eapply in_combine_l; eassumption.
  - eapply in_combine_r; eassumption.
  - rewrite <- Hpid. now apply in_map.
  - rewrite <- Huid. now apply in_map.
Qed.

(** *** Uniqueness of ids *)

Lemma NoDup_map_filter {A B : Type} (f : A -> B) (g : A -> bool) (l : list A) :
  NoDup (map f l) -> NoDup (map f (filter g l)).
Proof.
  induction l as [|x l IH]; simpl; intros H; [constructor|].
  apply NoDup_cons_iff in H. destruct H as [Hx Hl].
  destruct (g x); simpl; [|now apply IH].
  constructor; [|now apply IH].
  intros Hin. apply Hx. apply in_map_iff in Hin. destruct Hin as [y [Hy Hin]].
  apply filter_In in Hin. destruct Hin as [Hin _].
  rewrite <- Hy. now apply in_map.
Qed.

Lemma NoDup_map_eq {A B : Type} (f : A -> B) (l : list A) x y :
  NoDup (map f l) -> In x l -> In y l -> f x = f y -> x = y.
Proof.
  induction l as [|a l IH]; simpl; intros H Hx Hy Hf; [contradiction|].
  apply NoDup_cons_iff in H. destruct H as [Ha Hl].
  destruct Hx as [->|Hx], Hy as [->|Hy].
  - reflexivity.
  - exfalso. apply Ha. rewrite Hf. now apply in_map.
  - exfalso. apply Ha. rewrite <- Hf. now apply in_map.
  - now apply IH.
Qed.

Lemma manual_ids_NoDup fpl us (zs : list Z) : forall vals : list string,
  NoDup zs ->
  NoDup (map fpl_id (flat_map (manual_entry fpl us) (combine zs vals))).
Proof.
  induction zs as [|z zs IH]; intros vals H; simpl; [constructor|].
  destruct vals as [|v vals]; simpl; [constructor|].
  apply NoDup_cons_iff in H. destruct H as [Hz Hzs].
  rewrite map_app. apply NoDup_app.
  - unfold manual_entry. simpl.
    destruct (filter _ fpl); [constructor|].
    destruct (filter _ us); [constructor|].
    simpl. constructor; [intros [] | constructor].
  - now apply IH.
  - intros a Ha Hb. apply in_map_iff in Ha. destruct Ha as [e [<- He]].
    apply manual_entry_In in He. destruct He as [_ [Hid _]]. simpl in Hid.
    apply in_map_iff in Hb. destruct Hb as [e' [Heq He']].
    apply manual_In in He'. destruct He' as [_ [Hin _]].
    apply Hz. congruence.
Qed.

Lemma match_row_ids thr ru p :
  map fpl_id (match_row thr ru p) = []
  \/ map fpl_id (match_row thr ru p) = [row_id p].
Proof.
  destruct (match_row_cases thr ru p) as [->|[c [_ [_ [_ [_ ->]]]]]];
    [now left | now right].
Qed.

Lemma automated_ids_In thr ru rf z :
  In z (map fpl_id (flat_map (match_row thr ru) rf)) ->
  In z (map (@row_id Z) rf).
Proof.
  induction rf as [|p rf IH]; simpl; [tauto|].
  rewrite map_app. intros H. apply in_app_or in H. destruct H as [H|H].
  - destruct (match_row_ids thr ru p) as [E|E]; rewrite E in H.
    + contradiction.
    + destruct H as [<-|[]]. now left.
  - right. now apply IH.
Qed.

Lemma automated_ids_NoDup thr ru rf :
  NoDup (map (@row_id Z) rf) ->
  NoDup (map fpl_id (flat_map (match_row thr ru) rf)).
Proof.
  induction rf as [|p rf IH]; simpl; intros H; [constructor|].
  apply NoDup_cons_iff in H. destruct H as [Hp Hrf].
  rewrite map_app. apply NoDup_app.
  - destruct (match_row_ids thr ru p) as [E|E]; rewrite E.
    + constructor.
    + constructor; [intros [] | constructor].
  - now apply IH.
  - intros a Ha Hb. apply automated_ids_In in Hb.
    destruct (match_row_ids thr ru p) as [E|E]; rewrite E in Ha.
    + contradiction.
    + destruct Ha as [<-|[]]. contradiction.
Qed.

Lemma remaining_fpl_ids_NoDup zs fpl :
  NoDup (map (@row_id Z) fpl) -> NoDup (map (@row_id Z) (remaining_fpl zs fpl)).
Proof.
  intros H. unfold remaining_fpl. rewrite normalize_team_names_ids.
  now apply NoDup_map_filter.
Qed.

(** *** Conversion of the keys *)

Lemma int_keys_total keys :
  (forall k, In k keys -> exists z, PyStr.int k = Ok z) ->
  exists zs, int_keys keys = Ok zs.
Proof.
  induction keys as [|k keys IH]; intros H; simpl.
  - eauto.
  - destruct (H k (or_introl eq_refl)) as [z ->]. simpl.
    destruct IH as [zs ->]; [intros; apply H; now right|]. simpl. eauto.
Qed.

Lemma int_keys_In_conv keys : forall zs z,
  int_keys keys = Ok zs -> In z zs ->
  exists k, In k keys /\ PyStr.int k = Ok z.
Proof.
  induction keys as [|k0 keys IH]; intros zs z H Hin; simpl in *.
  - inversion H; subst. contradiction.
  - destruct (PyStr.int k0) as [z0|] eqn:E0; simpl in *; [|discriminate].
    destruct (int_keys keys) as [zs'|]; simpl in *; [|discriminate].
    inversion H; subst; clear H.
    destruct Hin as [<-|Hin].
    + exists k0. split; [now left | assumption].
    + destruct (IH _ _ eq_refl Hin) as [k [Hk Hk']].
      exists k. split; [now right | assumption].
Qed.

(** *** The unmatched set *)

Lemma export_missing_mappings_In fpl m p :
  In p fpl -> (forall e, In e m -> fpl_id e <> row_id p) ->
  In p (export_missing_mappings fpl m).
Proof.
  intros Hp Hm. unfold export_missing_mappings.
  destruct fpl as [|p0 fpl']; [contradiction|]. cbn [empty].
  apply filter_In. split; [assumption|].
  destruct (isin Z.eqb (row_id p) _) eqn:E; [|reflexivity].
  apply isin_Z_In in E. destruct m as [|e0 m']; [contradiction|].
  cbn [empty negb] in E. apply in_map_iff in E. destruct E as [e [He Hin]].
  exfalso. eapply Hm; eassumption.
Qed.

(** *** The two passes in the returned table *)

Lemma map_players_ok self fpl us thr l p c :
  In p fpl -> In c us -> l <> [] ->
  collect_mappings self fpl us thr = Ok l ->
  map_players self fpl us thr = Ok l.
Proof.
  intros Hp Hc Hl H. unfold map_players.
  destruct fpl; [contradiction|]. destruct us; [contradiction|].
  cbn [empty orb]. rewrite H. simpl. destruct l; [contradiction | reflexivity].
Qed.

Lemma automated_not_overlay_key self fpl us thr m k e :
  map_players self fpl us thr = Ok m ->
  In k (overlay_keys self) -> In e m -> matching_type e = automated ->
  PyStr.int k <> Ok (fpl_id e).
Proof.
  intros H Hk He Ht Hint.
  apply map_players_inv in H. destruct H as [->|[zs [Hzs ->]]]; [contradiction|].
  apply in_app_or in He. destruct He as [He|He].
  - apply manual_In in He. destruct He as [Hm _]. congruence.
  - apply automated_In in He.
    destruct He as [p [c [_ [Hn [_ [-> _]]]]]]. simpl in Hint.
    destruct (int_keys_In _ _ k Hzs Hk) as [z [Hz Hz']].
    rewrite Hint in Hz. inversion Hz; subst. contradiction.
Qed.

Lemma automated_not_overlay_value self fpl us thr m e :
  map_players self fpl us thr = Ok m ->
  In e m -> matching_type e = automated ->
  ~ In (understat_id e) (overlay_values self).
Proof.
  intros H He Ht.
  apply map_players_inv in H. destruct H as [->|[zs [Hzs ->]]]; [contradiction|].
  apply in_app_or in He. destruct He as [He|He].
  - apply manual_In in He. destruct He as [Hm _]. congruence.
  - apply automated_In in He.
    destruct He as [p [c [_ [_ [[_ [Hn _]] [-> _]]]]]]. exact Hn.
Qed.

(** The best candidate of a row left over from the manual pass is paired
    with it as soon as its score is positive and reaches the threshold. *)
Lemma best_candidate_paired self fpl us thr zs p c :
  In p fpl -> ~ In (row_id p) zs -> candidate self us p c ->
  (0 < row_similarity p c)%Q -> (thr <= row_similarity p c)%Q ->
  exists c',
    candidate self us p c'
    /\ (row_similarity p c <= row_similarity p c')%Q
    /\ In (automated_entry p c' (row_similarity p c'))
         (flat_map (match_row thr (remaining_understat (overlay_values self) us))
            (remaining_fpl zs fpl)).
Proof.
  intros Hp Hnp [Hc [Hnc Hk]] Hpos Hthr.
  pose proof (remaining_fpl_In_conv zs fpl p Hp Hnp) as Hp'.
  pose proof (remaining_understat_In_conv _ _ _ Hc Hnc) as Hc'.
  set (p' := mkRow (row_id p) (row_name p) (row_team p) (Some (normalized_team p))) in *.
  set (c0 := mkRow (row_id c) (row_name c) (row_team c) (Some (normalized_team c))) in *.
  set (ru := remaining_understat (overlay_values self) us) in *.
  assert (Hne : match_row thr ru p' <> []).
  { apply (@match_row_emits thr ru p' c0); assumption. }
  destruct (match_row_cases thr ru p') as [Hnil|[c1 [Hc1 [Hk1 [Ht1 [Hmax Heq]]]]]];
    [contradiction|].
  destruct (remaining_understat_In _ _ _ Hc1)
    as [c2 [Hc2 [Hn2 [Hid2 [Hname2 Hteam2]]]]].
  exists c2. split; [|split].
  - split; [assumption|]. split; [assumption|].
    rewrite <- Hteam2, Hk1. reflexivity.
  - unfold row_similarity. rewrite <- Hname2.
    apply (Hmax c0 Hc'). unfold team_key, p', c0. simpl. assumption.
  - apply in_flat_map. exists p'. split; [assumption|].
    rewrite Heq. left. unfold automated_entry, row_similarity.
    rewrite Hid2, Hname2. reflexivity.
Qed.

(** *** The overlay of a mapper that loaded nothing *)

Lemma filter_all {A : Type} (f : A -> bool) (l : list A) :
  (forall x, In x l -> f x = true) -> filter f l = l.
Proof.
  induction l as [|x l IH]; intros H; simpl; [reflexivity|].
  rewrite (H x (or_introl eq_refl)). f_equal. apply IH.
  intros y Hy. apply H. now right.
Qed.

Lemma collect_mappings_no_overlay self fpl us thr :
  manual_mappings self = [] ->
  collect_mappings self fpl us thr
  = Ok (flat_map (match_row thr (DataCleaner.normalize_team_names us))
          (DataCleaner.normalize_team_names fpl)).
Proof.
  intros H.
  rewrite (collect_mappings_ok self fpl us thr []);
    [|unfold overlay_keys; now rewrite H].
  unfold overlay_values, remaining_understat, remaining_fpl. rewrite H. simpl.
  rewrite !filter_all; [reflexivity | |]; intros; reflexivity.
Qed.

Lemma match_row_automated thr ru p e :
  In e (match_row thr ru p) -> matching_type e = automated.
Proof.
  destruct (match_row_cases thr ru p) as [->|[c [_ [_ [_ [_ ->]]]]]].
  - contradiction.
  - intros [<-|[]]. reflexivity.
Qed.

(** *** The errors of the matcher *)

Lemma manual_loop_raises fpl us items : forall acc e,
  manual_loop fpl us items acc = Raise e -> e = ValueError.
Proof.
  induction items as [|[k0 v0] items IH]; intros acc e H; simpl in H;
    [discriminate|].
  destruct (int_ok_or_value_error k0) as [[z Hz]|Hz]; rewrite Hz in H;
    simpl in H; [|congruence].
  destruct (filter _ fpl); [now apply IH in H|].
  destruct (filter _ us); now apply IH in H.
Qed.

Lemma int_keys_raises keys : forall e,
  int_keys keys = Raise e -> e = ValueError.
Proof.
  induction keys as [|k0 keys IH]; intros e H; simpl in H; [discriminate|].
  destruct (int_ok_or_value_error k0) as [[z Hz]|Hz]; rewrite Hz in H;
    simpl in H; [|congruence].
  destruct (int_keys keys) as [zs|e1]; simpl in H; [discriminate|].
  inversion H; subst. now apply IH.
Qed.

Lemma collect_mappings_raises self fpl us thr e :
  collect_mappings self fpl us thr = Raise e -> e = ValueError.
Proof.
  unfold collect_mappings. intros H.
  destruct (manual_loop fpl us (manual_mappings self) []) as [l|e0] eqn:E0;
    simpl in H.
  - destruct (int_keys (map fst (manual_mappings self))) as [zs|e1] eqn:E1;
      simpl in H; [discriminate|].
    inversion H; subst. now apply int_keys_raises in E1.
  - inversion H; subst. now apply manual_loop_raises in E0.
Qed.

(** Tables that are not empty and give no entry make the call raise. *)
Lemma map_players_nothing_matched self fpl us thr p c :
  In p fpl -> In c us -> collect_mappings self fpl us thr = Ok [] ->
  map_players self fpl us thr = Raise KeyError.
Proof.
  intros Hp Hc H. unfold map_players.
  destruct fpl; [contradiction|]. destruct us; [contradiction|].
  cbn [empty orb]. rewrite H. reflexivity.
Qed.

(** An overlay key that [int] rejects makes the call raise. *)
Lemma map_players_bad_key self fpl us thr p c k :
  In p fpl -> In c us -> In k (overlay_keys self) ->
  PyStr.int k = Raise ValueError ->
  map_players self fpl us thr = Raise ValueError.
Proof.
  intros Hp Hc Hk Hint. unfold map_players.
  destruct fpl as [|p0 fpl']; [contradiction|].
  destruct us as [|c0 us']; [contradiction|].
  cbn [empty orb].
  destruct (collect_mappings self (p0 :: fpl') (c0 :: us') thr) as [l|e] eqn:El.
  - exfalso. apply collect_mappings_inv in El. destruct El as [zs [Hzs _]].
    destruct (int_keys_In _ _ k Hzs Hk) as [z [Hz _]]. congruence.
  - apply collect_mappings_raises in El. subst. reflexivity.
Qed.

(** *** A score of zero is never chosen *)

Lemma best_loop_positive name players : forall bm bs bm' bs',
  (0 <= bs)%Q -> (forall c, bm = Some c -> (0 < bs)%Q) ->
  best_loop name players bm bs = (bm', bs') ->
  forall c, bm' = Some c -> (0 < bs')%Q.
Proof.
  induction players as [|c0 players IH]; intros bm bs bm' bs' H0 Hb H c Hc;
    cbn [best_loop] in H.
  - inversion H; subst. now apply (Hb c).
  - destruct (Qlt_le_dec bs _) as [Hlt|Hle].
    + apply (IH _ _ _ _ (Qle_trans _ _ _ H0 (Qlt_le_weak _ _ Hlt))
               (fun _ _ => Qle_lt_trans _ _ _ H0 Hlt) H c Hc).
    + apply (IH _ _ _ _ H0 Hb H c Hc).
Qed.

Lemma match_row_positive thr ru p e :
  In e (match_row thr ru p) -> (0 < similarity e)%Q /\ (thr <= similarity e)%Q.
Proof.
  unfold match_row.
  destruct (best_loop _ _ None 0%Q) as [bm bs] eqn:E.
  destruct bm as [c|]; [|contradiction].
  destruct (Qle_bool thr bs) eqn:Ht; [|contradiction].
  intros [<-|[]]. cbn [similarity]. split.
  - apply (best_loop_positive _ _ None 0%Q (Some c) bs (Qle_refl 0)
             (fun c' (H : None = Some c') =>
                match H in (_ = o) return
                  (match o with None => True | Some _ => (0 < 0)%Q end)
                with eq_refl => I end) E c eq_refl).
  - now apply Qle_bool_iff.
Qed.

Lemma match_row_automated_In self fpl us thr zs e :
  In e (flat_map (match_row thr (remaining_understat (overlay_values self) us))
          (remaining_fpl zs fpl)) ->
  matching_type e = automated.
Proof.
  intro H. apply in_flat_map in H. destruct H as [p [_ He]].
  now apply match_row_automated in He.
Qed.

Lemma automated_positive self fpl us thr m e :
  map_players self fpl us thr = Ok m -> In e m ->
  matching_type e = automated ->
  (0 < similarity e)%Q /\ (thr <= similarity e)%Q.
Proof.
  intros H He Ht. apply map_players_inv in H.
  destruct H as [->|[zs [_ ->]]]; [contradiction|].
  apply in_app_or in He. destruct He as [He|He].
  - apply manual_In in He. destruct He as [Hm _]. congruence.
  - apply in_flat_map in He. destruct He as [p [_ He]].
    now apply match_row_positive in He.
Qed.

End MatcherFacts.

(** * Properties of the cleaner *)

Module CleanerFacts.

Import DataCleaner.

Lemma dict_get_In d key default v :
  NoDup (map fst d) -> In (key, v) d -> dict_get d key default = v.
Proof.
  induction d as [|[k0 v0] d IH]; simpl; intros Hnd Hin; [contradiction|].
  apply NoDup_cons_iff in Hnd. destruct Hnd as [Hk0 Hnd].
  destruct Hin as [Heq|Hin].
  - inversion Heq; subst. now rewrite String.eqb_refl.
  - destruct (String.eqb k0 key) eqn:E.
    + apply String.eqb_eq in E. subst. exfalso. apply Hk0.
      change key with (fst (key, v)). now apply in_map.
    + now apply IH.
Qed.

Lemma dict_get_absent d key default :
  ~ In key (map fst d) -> dict_get d key default = default.
Proof.
  induction d as [|[k0 v0] d IH]; simpl; intros H; [reflexivity|].
  destruct (String.eqb k0 key) eqn:E.
  - apply String.eqb_eq in E. subst. exfalso. apply H. now left.
  - apply IH. intros Hin. apply H. now right.
Qed.

Lemma team_mapping_keys_NoDup : NoDup (map fst team_mapping).
Proof.
  unfold team_mapping. simpl.
  repeat (constructor; [simpl; intuition discriminate|]). constructor.
Qed.

End CleanerFacts.

(** * Properties of the sequence matcher *)

Module DifflibFacts.

Import Difflib Blocks.

(** ** Every block found lies in its range *)

Section Bounds.

Variable sm : SequenceMatcher.
Variables alo ahi blo bhi : nat.

Lemma row_fits_next d i :
  alo <= i -> row_fits alo blo d i -> prev_fits alo blo d (S i).
Proof.
  intros Hi H j. destruct j as [|j']; cbn [j2len_prev]; [lia|].
  destruct (H j') as [H1 H2]. lia.
Qed.

Lemma prev_fits_nil i : prev_fits alo blo [] i.
Proof. intros [|j']; cbn [j2len_prev j2len_get]; lia. Qed.

Lemma row_fits_nil i : row_fits alo blo [] i.
Proof. intros j. cbn [j2len_get]. lia. Qed.

Lemma scan_js_within js i j2len : forall newj2len best newj2len' best',
  alo <= i -> i < ahi -> prev_fits alo blo j2len i ->
  row_fits alo blo newj2len i -> within best (alo, ahi, blo, bhi) ->
  scan_js js i blo bhi j2len newj2len best = (newj2len', best') ->
  row_fits alo blo newj2len' i /\ within best' (alo, ahi, blo, bhi).
Proof.
  induction js as [|j js IH]; intros new best new' best' Hlo Hhi Hprev Hnew Hbest H;
    simpl in H.
  - inversion H; subst. now split.
  - destruct (j <? blo) eqn:E1; [now apply (IH _ _ _ _ Hlo Hhi Hprev Hnew Hbest H)|].
    destruct (bhi <=? j) eqn:E2; [inversion H; subst; now split|].
    apply Nat.ltb_ge in E1. apply Nat.leb_gt in E2.
    destruct best as [[bi bj] bk].
    destruct (Hprev j) as [Hp1 Hp2].
    apply (IH _ _ _ _ Hlo Hhi Hprev) in H; [exact H| |].
    + intros j0. cbn [j2len_get]. destruct (j =? j0) eqn:E.
      * apply Nat.eqb_eq in E. subst j0. lia.
      * apply Hnew.
    + destruct (bk <? j2len_prev j2len j + 1); [|exact Hbest].
      unfold within in *. lia.
Qed.

Lemma scan_rows_within n : forall i j2len best,
  alo <= i -> i + n <= ahi -> prev_fits alo blo j2len i ->
  within best (alo, ahi, blo, bhi) ->
  within (scan_rows sm n i blo bhi j2len best) (alo, ahi, blo, bhi).
Proof.
  induction n as [|n IH]; intros i j2len best Hlo Hhi Hprev Hbest; simpl.
  - exact Hbest.
  - destruct (scan_js _ i blo bhi j2len [] best) as [new best'] eqn:E.
    apply scan_js_within in E; try assumption; [|lia|apply row_fits_nil].
    destruct E as [Hnew Hbest'].
    apply IH; [lia | lia | now apply row_fits_next | exact Hbest'].
Qed.

Lemma extend_back_within want besti : forall bestj bestsize,
  within (besti, bestj, bestsize) (alo, ahi, blo, bhi) ->
  within (extend_back sm want alo blo besti bestj bestsize) (alo, ahi, blo, bhi).
Proof.
  induction besti as [|i' IH]; intros bestj bestsize H; simpl; [exact H|].
  destruct bestj as [|j']; [exact H|].
  destruct (_ && _) eqn:E; [|exact H].
  apply andb_prop in E. destruct E as [E _].
  apply andb_prop in E. destruct E as [E _].
  apply andb_prop in E. destruct E as [E1 E2].
  apply Nat.ltb_lt in E1. apply Nat.ltb_lt in E2.
  apply IH. simpl in *. lia.
Qed.

Lemma extend_fwd_within want n : forall besti bestj bestsize,
  within (besti, bestj, bestsize) (alo, ahi, blo, bhi) ->
  within (extend_fwd sm want n ahi bhi besti bestj bestsize) (alo, ahi, blo, bhi).
Proof.
  induction n as [|n IH]; intros besti bestj bestsize H; simpl; [exact H|].
  destruct (_ && _) eqn:E; [|exact H].
  apply andb_prop in E. destruct E as [E _].
  apply andb_prop in E. destruct E as [E _].
  apply andb_prop in E. destruct E as [E1 E2].
  apply Nat.ltb_lt in E1. apply Nat.ltb_lt in E2.
  apply IH. simpl in *. lia.
Qed.

Lemma find_longest_match_within :
  alo <= ahi -> blo <= bhi ->
  within (find_longest_match sm alo ahi blo bhi) (alo, ahi, blo, bhi).
Proof.
  intros Ha Hb. unfold find_longest_match.
  pose proof (scan_rows_within (ahi - alo) alo [] (alo, blo, 0)) as H1.
  destruct (scan_rows sm (ahi - alo) alo blo bhi [] (alo, blo, 0)) as [[i1 j1] k1].
  assert (W1 : within (i1, j1, k1) (alo, ahi, blo, bhi)).
  { apply H1; [lia | lia | apply prev_fits_nil | simpl; lia]. }
  pose proof (extend_back_within false i1 j1 k1 W1) as W2.
  destruct (extend_back sm false alo blo i1 j1 k1) as [[i2 j2] k2].
  pose proof (extend_fwd_within false (ahi - (i2 + k2)) i2 j2 k2 W2) as W3.
  destruct (extend_fwd sm false (ahi - (i2 + k2)) ahi bhi i2 j2 k2) as [[i3 j3] k3].
  pose proof (extend_back_within true i3 j3 k3 W3) as W4.
  destruct (extend_back sm true alo blo i3 j3 k3) as [[i4 j4] k4].
  apply extend_fwd_within. exact W4.
Qed.

End Bounds.

(** ** The blocks cover no more than the sequences hold *)

Lemma sum_sizes_app l1 l2 : sum_sizes (l1 ++ l2) = sum_sizes l1 + sum_sizes l2.
Proof.
  induction l1 as [|x l1 IH]; simpl; [reflexivity|]. rewrite IH. lia.
Qed.

Lemma blocks_loop_sum sm fuel : forall queue blocks,
  Forall range_ok queue ->
  sum_sizes (blocks_loop sm fuel queue blocks) <= sum_sizes blocks + width_a queue
  /\ sum_sizes (blocks_loop sm fuel queue blocks) <= sum_sizes blocks + width_b queue.
Proof.
  induction fuel as [|fuel IH]; intros queue blocks Hq.
  - destruct queue; simpl; lia.
  - destruct queue as [|[[[alo ahi] blo] bhi] queue]; [simpl; lia|].
    inversion Hq as [|r q Hr Hq']; subst. destruct Hr as [Ha Hb].
    cbn [blocks_loop].
    pose proof (find_longest_match_within sm alo ahi blo bhi Ha Hb) as W.
    destruct (find_longest_match sm alo ahi blo bhi) as [[i j] k].
    destruct W as [W1 [W2 [W3 W4]]].
    destruct (k =? 0) eqn:Ek.
    + destruct (IH queue blocks Hq') as [IH1 IH2]. simpl. lia.
    + destruct ((alo <? i) && (blo <? j)) eqn:E1;
        destruct ((i + k <? ahi) && (j + k <? bhi)) eqn:E2;
        match goal with
        | |- context [blocks_loop sm fuel ?q ?bl] =>
            destruct (IH q bl) as [IH1 IH2];
              [repeat (constructor; [unfold range_ok; lia|]); exact Hq'|];
              rewrite sum_sizes_app in IH1, IH2; simpl in IH1, IH2; simpl; lia
        end.
Qed.

(** The queue is empty before the turns are used up: more fuel changes
    nothing. *)
Lemma blocks_loop_fuel sm fuel : forall queue blocks extra,
  Forall range_ok queue -> turns queue <= fuel ->
  blocks_loop sm (fuel + extra) queue blocks = blocks_loop sm fuel queue blocks.
Proof.
  induction fuel as [|fuel IH]; intros queue blocks extra Hq Hf.
  - destruct queue as [|[[[alo ahi] blo] bhi] queue]; [|simpl in Hf; lia].
    simpl. destruct extra; reflexivity.
  - destruct queue as [|[[[alo ahi] blo] bhi] queue]; [reflexivity|].
    inversion Hq as [|r q Hr Hq']; subst. destruct Hr as [Ha Hb].
    cbn [blocks_loop Nat.add].
    pose proof (find_longest_match_within sm alo ahi blo bhi Ha Hb) as W.
    destruct (find_longest_match sm alo ahi blo bhi) as [[i j] k].
    destruct W as [W1 [W2 [W3 W4]]].
    cbn [turns] in Hf.
    destruct (k =? 0) eqn:Ek.
    + apply IH; [exact Hq' | lia].
    + apply Nat.eqb_neq in Ek.
      destruct ((alo <? i) && (blo <? j)) eqn:E1;
        destruct ((i + k <? ahi) && (j + k <? bhi)) eqn:E2;
        (apply IH;
         [repeat (constructor; [unfold range_ok; lia|]); exact Hq'
         |cbn [turns]; lia]).
Qed.

(** [get_matching_blocks] gives its loop enough turns. *)
Lemma get_matching_blocks_fuel sm extra :
  blocks_loop sm (2 * length (seq_a sm) + 1 + extra)
    [(0, length (seq_a sm), 0, length (seq_b sm))] []
  = blocks_loop sm (2 * length (seq_a sm) + 1)
      [(0, length (seq_a sm), 0, length (seq_b sm))] [].
Proof.
  apply blocks_loop_fuel.
  - constructor; [unfold range_ok; lia | constructor].
  - cbn [turns]. lia.
Qed.

(** Sorting and merging keep the sum of the sizes. *)
Lemma sum_sizes_insert x l : sum_sizes (insert_match x l) = snd x + sum_sizes l.
Proof.
  induction l as [|y l IH]; simpl; [reflexivity|].
  destruct (match_leb x y); simpl; [reflexivity|]. rewrite IH. lia.
Qed.

Lemma sum_sizes_sort l : sum_sizes (sort_matches l) = sum_sizes l.
Proof.
  induction l as [|x l IH]; simpl; [reflexivity|].
  now rewrite sum_sizes_insert, IH.
Qed.

Lemma sum_sizes_collapse l : forall i1 j1 k1 acc,
  sum_sizes (collapse l i1 j1 k1 acc) = sum_sizes acc + k1 + sum_sizes l.
Proof.
  induction l as [|[[i2 j2] k2] l IH]; intros i1 j1 k1 acc; simpl.
  - destruct (k1 =? 0) eqn:E.
    + apply Nat.eqb_eq in E. lia.
    + rewrite sum_sizes_app. simpl. lia.
  - destruct (_ && _).
    + rewrite IH. lia.
    + rewrite IH. destruct (k1 =? 0) eqn:E.
      * apply Nat.eqb_eq in E. lia.
      * rewrite sum_sizes_app. simpl. lia.
Qed.

Lemma matches_le_lengths sm :
  sum_sizes (get_matching_blocks sm) <= length (seq_a sm)
  /\ sum_sizes (get_matching_blocks sm) <= length (seq_b sm).
Proof.
  unfold get_matching_blocks.
  rewrite sum_sizes_app, sum_sizes_collapse, sum_sizes_sort. simpl.
  destruct (blocks_loop_sum sm (2 * length (seq_a sm) + 1)
              [(0, length (seq_a sm), 0, length (seq_b sm))] []) as [H1 H2].
  { constructor; [simpl; lia | constructor]. }
  simpl in H1, H2. simpl. lia.
Qed.

(** ** The ratio is a fraction between 0 and 1 *)

Lemma Zpos_of_nat n : n <> 0 -> Z.pos (Pos.of_nat n) = Z.of_nat n.
Proof.
  intros H. rewrite <- (Nat2Pos.id n H) at 2. now rewrite positive_nat_Z.
Qed.

Lemma calculate_ratio_bounds matches length :
  2 * matches <= length ->
  (0 <= calculate_ratio matches length)%Q /\ (calculate_ratio matches length <= 1)%Q.
Proof.
  intros H. unfold calculate_ratio.
  destruct (length =? 0) eqn:E.
  - split; [discriminate | apply Qle_refl].
  - apply Nat.eqb_neq in E. rewrite Qred_correct.
    unfold Qle. cbn [Qnum Qden]. rewrite (Zpos_of_nat length E). split; lia.
Qed.

Lemma ratio_bounds sm : (0 <= ratio sm)%Q /\ (ratio sm <= 1)%Q.
Proof.
  unfold ratio. apply calculate_ratio_bounds.
  destruct (matches_le_lengths sm). lia.
Qed.

Lemma sum_sizes_get_matching_blocks sm :
  sum_sizes (get_matching_blocks sm)
  = sum_sizes (blocks_loop sm (2 * length (seq_a sm) + 1)
                 [(0, length (seq_a sm), 0, length (seq_b sm))] []).
Proof.
  unfold get_matching_blocks.
  rewrite sum_sizes_app, sum_sizes_collapse, sum_sizes_sort. simpl. lia.
Qed.

(** ** What [b2j] lists *)

Lemma b2j_get_append d e i c :
  b2j_get (b2j_append d e i) c
  = if Ascii.eqb e c then Some (listed (b2j_get d c) ++ [i]) else b2j_get d c.
Proof.
  induction d as [|[e0 l0] d IH]; simpl.
  - destruct (Ascii.eqb e c); reflexivity.
  - destruct (Ascii.eqb e0 e) eqn:E0; simpl.
    + apply Ascii.eqb_eq in E0. subst e0.
      destruct (Ascii.eqb e c); reflexivity.
    + destruct (Ascii.eqb e0 c) eqn:E1.
      * apply Ascii.eqb_eq in E1. subst e0. now rewrite Ascii.eqb_sym, E0.
      * exact IH.
Qed.

Lemma chain_loop_get b : forall i d c,
  b2j_get (chain_loop b i d) c
  = match positions c b i with
    | [] => b2j_get d c
    | _ :: _ => Some (listed (b2j_get d c) ++ positions c b i)
    end.
Proof.
  induction b as [|e b IH]; intros i d c; simpl; [reflexivity|].
  rewrite IH, b2j_get_append.
  destruct (Ascii.eqb e c); [|reflexivity].
  destruct (positions c b (S i)); simpl; [reflexivity|].
  now rewrite <- app_assoc.
Qed.

Lemma b2j_get_Some_In d c l : b2j_get d c = Some l -> In (c, l) d.
Proof.
  induction d as [|[e0 l0] d IH]; simpl; [discriminate|].
  destruct (Ascii.eqb e0 c) eqn:E.
  - apply Ascii.eqb_eq in E. subst. intros H. inversion H. now left.
  - intros H. right. now apply IH.
Qed.

Lemma In_b2j_get d c l :
  NoDup (map fst d) -> In (c, l) d -> b2j_get d c = Some l.
Proof.
  induction d as [|[e0 l0] d IH]; simpl; intros Hnd Hin; [contradiction|].
  apply NoDup_cons_iff in Hnd. destruct Hnd as [He0 Hnd].
  destruct Hin as [Heq|Hin].
  - inversion Heq; subst. now rewrite Ascii.eqb_refl.
  - destruct (Ascii.eqb e0 c) eqn:E.
    + apply Ascii.eqb_eq in E. subst. exfalso. apply He0.
      change c with (fst (c, l)). now apply in_map.
    + now apply IH.
Qed.

Lemma b2j_append_keys d e i k :
  In k (map fst (b2j_append d e i)) <-> k = e \/ In k (map fst d).
Proof.
  induction d as [|[e0 l0] d IH]; simpl.
  - intuition.
  - destruct (Ascii.eqb e0 e) eqn:E; simpl.
    + apply Ascii.eqb_eq in E. subst. intuition.
    + rewrite IH. intuition.
Qed.

Lemma b2j_append_NoDup d e i :
  NoDup (map fst d) -> NoDup (map fst (b2j_append d e i)).
Proof.
  induction d as [|[e0 l0] d IH]; simpl; intros H.
  - constructor; [intros [] | constructor].
  - apply NoDup_cons_iff in H. destruct H as [He0 Hnd].
    destruct (Ascii.eqb e0 e) eqn:E; simpl.
    + constructor; assumption.
    + constructor; [|now apply IH].
      intros Hin. apply b2j_append_keys in Hin. destruct Hin as [->|Hin].
      * now rewrite Ascii.eqb_refl in E.
      * contradiction.
Qed.

Lemma chain_loop_NoDup b : forall i d,
  NoDup (map fst d) -> NoDup (map fst (chain_loop b i d)).
Proof.
  induction b as [|e b IH]; intros i d H; simpl; [exact H|].
  apply IH. now apply b2j_append_NoDup.
Qed.

(** An element [b2j] lists is listed with all its indices in [b]. *)
Lemma chain_b_get b c l :
  b2j_get (chain_b b) c = Some l -> l = positions c b 0 /\ l <> [].
Proof.
  intros H.
  assert (H0 : b2j_get (chain_loop b 0 []) c = Some l).
  { unfold chain_b in H. destruct (200 <=? length b); [|exact H].
    apply b2j_get_Some_In in H. apply filter_In in H. destruct H as [H _].
    apply In_b2j_get; [|exact H]. apply chain_loop_NoDup. constructor. }
  rewrite chain_loop_get in H0. simpl in H0.
  destruct (positions c b 0) as [|j ps]; [discriminate|].
  inversion H0; subst. split; [reflexivity | discriminate].
Qed.

Lemma positions_In c l : forall off j,
  In j (positions c l off)
  <-> off <= j /\ j < off + length l /\ nth (j - off) l zero_char = c.
Proof.
  induction l as [|e l IH]; intros off j; simpl.
  - split; [contradiction | lia].
  - destruct (Ascii.eqb e c) eqn:E.
    + apply Ascii.eqb_eq in E. subst e. simpl. rewrite IH. split.
      * intros [<-|[H1 [H2 H3]]].
        -- rewrite Nat.sub_diag. repeat split; lia.
        -- replace (j - off) with (S (j - S off)) by lia.
           repeat split; [lia | lia | exact H3].
      * intros [H1 [H2 H3]]. destruct (Nat.eq_dec off j) as [->|Hne]; [now left|].
        right. replace (j - off) with (S (j - S off)) in H3 by lia.
        repeat split; [lia | lia | exact H3].
    + rewrite IH. split.
      * intros [H1 [H2 H3]].
        replace (j - off) with (S (j - S off)) by lia.
        repeat split; [lia | lia | exact H3].
      * intros [H1 [H2 H3]]. destruct (Nat.eq_dec off j) as [->|Hne].
        -- rewrite Nat.sub_diag in H3. subst e. now rewrite Ascii.eqb_refl in E.
        -- replace (j - off) with (S (j - S off)) in H3 by lia.
           repeat split; [lia | lia | exact H3].
Qed.


(** ** Sequences without a common element *)

Lemma isbjunk_new a b c : isbjunk (new a b) c = false.
Proof. reflexivity. Qed.

(** With no junk the two loops that take junk in do nothing. *)
Lemma extend_back_junk a b alo blo besti bestj bestsize :
  extend_back (new a b) true alo blo besti bestj bestsize
  = (besti, bestj, bestsize).
Proof.
  destruct besti as [|i']; [reflexivity|]. destruct bestj as [|j']; [reflexivity|].
  simpl. now rewrite andb_false_r.
Qed.

Lemma extend_fwd_junk a b n ahi bhi besti bestj bestsize :
  extend_fwd (new a b) true n ahi bhi besti bestj bestsize
  = (besti, bestj, bestsize).
Proof.
  destruct n as [|n]; [reflexivity|]. simpl. now rewrite andb_false_r.
Qed.

Lemma scan_rows_nothing_listed sm n : forall i blo bhi j2len best,
  (forall x, i <= x < i + n -> indices_at sm x = []) ->
  scan_rows sm n i blo bhi j2len best = best.
Proof.
  induction n as [|n IH]; intros i blo bhi j2len best H; simpl; [reflexivity|].
  pose proof (H i ltac:(lia)) as Hi. unfold indices_at in Hi. rewrite Hi. simpl.
  apply IH. intros x Hx. apply H. lia.
Qed.

Lemma indices_at_In a b x j :
  In j (indices_at (new a b) x) ->
  j < length b /\ nth j b zero_char = nth x a zero_char.
Proof.
  unfold indices_at. simpl.
  destruct (b2j_get (chain_b b) (nth x a zero_char)) as [l|] eqn:E; [|contradiction].
  apply chain_b_get in E. destruct E as [-> _].
  intros H. apply positions_In in H. rewrite Nat.sub_0_r in H. simpl in H. tauto.
Qed.

Lemma find_longest_match_disjoint a b :
  (forall c, In c a -> ~ In c b) ->
  find_longest_match (new a b) 0 (length a) 0 (length b) = (0, 0, 0).
Proof.
  intros Hd. unfold find_longest_match.
  rewrite scan_rows_nothing_listed.
  - cbn [extend_back]. rewrite Nat.sub_0_r.
    assert (E : extend_fwd (new a b) false (length a) (length a) (length b) 0 0 0
                = (0, 0, 0)).
    { destruct a as [|ca a']; [reflexivity|]. destruct b as [|cb b']; [reflexivity|].
      simpl. destruct (Ascii.eqb ca cb) eqn:E; [|reflexivity].
      apply Ascii.eqb_eq in E. subst. exfalso.
      apply (Hd cb); now left. }
    rewrite E. rewrite extend_back_junk. apply extend_fwd_junk.
  - intros x Hx. destruct (indices_at (new a b) x) as [|j l] eqn:E; [reflexivity|].
    exfalso. destruct (indices_at_In a b x j) as [Hj Hn]; [rewrite E; now left|].
    apply (Hd (nth x a zero_char)).
    + apply nth_In. lia.
    + rewrite <- Hn. now apply nth_In.
Qed.

Lemma ratio_disjoint a b :
  (forall c, In c a -> ~ In c b) -> a <> [] \/ b <> [] ->
  ratio (new a b) = 0%Q.
Proof.
  intros Hd Hne. unfold ratio. rewrite sum_sizes_get_matching_blocks.
  cbn [seq_a seq_b new].
  replace (2 * length a + 1) with (S (2 * length a)) by lia.
  generalize (2 * length a). intros f.
  cbn [blocks_loop]. rewrite (find_longest_match_disjoint a b Hd).
  cbn [Nat.eqb].
  unfold calculate_ratio.
  destruct (length a + length b =? 0) eqn:E0.
  - apply Nat.eqb_eq in E0.
    destruct Hne as [H|H]; exfalso; apply H; apply length_zero_iff_nil; lia.
  - destruct f; reflexivity.
Qed.

(** ** A sequence compared with itself *)

Section Identical.

Variable s : list ascii.

Let sm : SequenceMatcher := new s s.
Let n : nat := length s.











End Identical.

End DifflibFacts.

(** * Properties of the cleaned names *)

Module NameFacts.

Import PyStr Matcher.

Lemma lower_char_idempotent c : lower_char (lower_char c) = lower_char c.
Proof. destruct c as [[] [] [] [] [] [] [] []]; reflexivity. Qed.

(** Stripping on the left drops a prefix, and leaves no white space in
    front. *)
Lemma lstrip_chars_suffix l : exists pre, l = pre ++ lstrip_chars l.
Proof.
  induction l as [|c l [pre IH]]; simpl.
  - exists []. reflexivity.
  - destruct (isspace c).
    + exists (c :: pre). simpl. now rewrite <- IH.
    + exists []. reflexivity.
Qed.

Lemma lstrip_chars_head l c l' :
  lstrip_chars l = c :: l' -> isspace c = false.
Proof.
  induction l as [|c0 l IH]; simpl; [discriminate|].
  destruct (isspace c0) eqn:E; [exact IH|].
  intros H. inversion H; subst. exact E.
Qed.


Lemma strip_chars_first l c l' :
  strip_chars l = c :: l' -> isspace c = false.
Proof.
  unfold strip_chars. intros H.
  destruct (lstrip_chars_suffix (rev (lstrip_chars l))) as [pre E].
  apply (f_equal (@rev ascii)) in H. rewrite rev_involutive in H.
  rewrite H in E. simpl in E.
  apply (f_equal (@rev ascii)) in E. rewrite rev_involutive in E.
  rewrite !rev_app_distr, rev_involutive in E. simpl in E.
  now apply lstrip_chars_head in E.
Qed.


Lemma cleaned_unfold x :
  cleaned x = strip_chars (map lower_char (list_ascii_of_string (str x))).
Proof.
  unfold cleaned, strip, lower.
  now rewrite !list_ascii_of_string_of_list_ascii.
Qed.

End NameFacts.

(** * Properties of the conversions between integers and text *)

Module DigitsFacts.

Import PyStr Digits.

Lemma of_uint_acc_value d : forall acc,
  Z.pos (Pos.of_uint_acc d acc) = uint_value (Z.pos acc) d.
Proof.
  induction d; intros acc; cbn [Pos.of_uint_acc uint_value]; try reflexivity;
    rewrite IHd; f_equal; lia.
Qed.

Lemma of_uint_value d : Z.of_N (Pos.of_uint d) = uint_value 0 d.
Proof.
  induction d; cbn [Pos.of_uint uint_value]; try reflexivity;
    try (exact IHd);
    cbn [Z.of_N]; rewrite of_uint_acc_value; reflexivity.
Qed.

Lemma digits_uint d : forall acc prev,
  d <> Decimal.Nil \/ prev = true ->
  digits acc prev (uint_chars d) = Some (uint_value acc d).
Proof.
  unfold uint_chars.
  induction d; intros acc prev H;
    try (cbn [NilEmpty.string_of_uint list_ascii_of_string digits uint_value];
         change (digit_of _) with (Some 0%Z)
         || change (digit_of _) with (Some 1%Z)
         || change (digit_of _) with (Some 2%Z)
         || change (digit_of _) with (Some 3%Z)
         || change (digit_of _) with (Some 4%Z)
         || change (digit_of _) with (Some 5%Z)
         || change (digit_of _) with (Some 6%Z)
         || change (digit_of _) with (Some 7%Z)
         || change (digit_of _) with (Some 8%Z)
         || change (digit_of _) with (Some 9%Z);
         cbv iota beta; apply IHd; now right).
  simpl. destruct H as [H | ->]; [contradiction | reflexivity].
Qed.

Lemma uint_chars_no_space d :
  Forall (fun c => int_isspace c = false) (uint_chars d).
Proof.
  unfold uint_chars.
  induction d; cbn [NilEmpty.string_of_uint list_ascii_of_string];
    constructor; try reflexivity; assumption.
Qed.

Lemma int_lstrip_no_space l :
  Forall (fun c => int_isspace c = false) l -> int_lstrip l = l.
Proof.
  intros H. destruct H as [|c l Hc Hl]; simpl; [reflexivity|]. now rewrite Hc.
Qed.

Lemma int_strip_no_space l :
  Forall (fun c => int_isspace c = false) l ->
  rev (int_lstrip (rev (int_lstrip l))) = l.
Proof.
  intros H. rewrite (int_lstrip_no_space l H).
  rewrite int_lstrip_no_space; [apply rev_involutive|].
  apply Forall_forall. intros c Hc. apply in_rev in Hc.
  rewrite Forall_forall in H. now apply H.
Qed.

Lemma int_chars_uint d :
  d <> Decimal.Nil -> int_chars (uint_chars d) = Some (uint_value 0 d).
Proof.
  intros Hd. unfold int_chars.
  rewrite (int_strip_no_space _ (uint_chars_no_space d)).
  pose proof (digits_uint d 0 false (or_introl Hd)) as H.
  unfold uint_chars in *.
  destruct d; try contradiction;
    cbn [NilEmpty.string_of_uint list_ascii_of_string] in *; exact H.
Qed.

Lemma int_chars_minus_uint d :
  d <> Decimal.Nil ->
  int_chars ("-"%char :: uint_chars d) = Some (- uint_value 0 d)%Z.
Proof.
  intros Hd. unfold int_chars.
  rewrite int_strip_no_space.
  - change (nat_of_ascii "-" =? 43) with false.
    change (nat_of_ascii "-" =? 45) with true. cbv iota.
    now rewrite (digits_uint d 0 false (or_introl Hd)).
  - constructor; [reflexivity | apply uint_chars_no_space].
Qed.

(** [int(str(z)) == z] *)
Lemma int_str (z : Z) : PyStr.int (PyStr.str (VInt z)) = Ok z.
Proof.
  unfold PyStr.int. cbn [PyStr.str].
  destruct z as [|p|p].
  - reflexivity.
  - cbn [Z.to_int NilZero.string_of_int].
    assert (Hn := DecimalPos.Unsigned.to_uint_nonnil p).
    assert (E : NilZero.string_of_uint (Pos.to_uint p)
                = NilEmpty.string_of_uint (Pos.to_uint p)).
    { unfold NilZero.string_of_uint. destruct (Pos.to_uint p); try reflexivity.
      contradiction. }
    rewrite E. fold (uint_chars (Pos.to_uint p)).
    rewrite (int_chars_uint _ Hn), <- of_uint_value, DecimalPos.Unsigned.of_to.
    reflexivity.
  - cbn [Z.to_int NilZero.string_of_int].
    assert (Hn := DecimalPos.Unsigned.to_uint_nonnil p).
    assert (E : NilZero.string_of_uint (Pos.to_uint p)
                = NilEmpty.string_of_uint (Pos.to_uint p)).
    { unfold NilZero.string_of_uint. destruct (Pos.to_uint p); try reflexivity.
      contradiction. }
    rewrite E. cbn [list_ascii_of_string]. fold (uint_chars (Pos.to_uint p)).
    rewrite (int_chars_minus_uint _ Hn), <- of_uint_value,
      DecimalPos.Unsigned.of_to.
    reflexivity.
Qed.

Lemma str_int_injective (z1 z2 : Z) :
  PyStr.str (VInt z1) = PyStr.str (VInt z2) -> z1 = z2.
Proof.
  intros H. pose proof (int_str z1) as H1. rewrite H, int_str in H1.
  now inversion H1.
Qed.

End DigitsFacts.

(** * Properties of the manual store *)

Module StoreFacts.

Import PlayerMapper ManualStore Overlay Matcher MatcherFacts DigitsFacts.

Lemma dict_find_set_same d key value :
  dict_find (dict_set d key value) key = Some value.
Proof.
  induction d as [|[k v] d IH]; simpl.
  - now rewrite String.eqb_refl.
  - destruct (String.eqb k key) eqn:E; simpl; rewrite E; [reflexivity | exact IH].
Qed.

Lemma dict_find_set_other d key value k' :
  k' <> key -> dict_find (dict_set d key value) k' = dict_find d k'.
Proof.
  intros Hne. induction d as [|[k v] d IH]; simpl.
  - destruct (String.eqb key k') eqn:E; [|reflexivity].
    apply String.eqb_eq in E. congruence.
  - destruct (String.eqb k key) eqn:E; simpl.
    + apply String.eqb_eq in E. subst k.
      destruct (String.eqb key k') eqn:E'; [|reflexivity].
      apply String.eqb_eq in E'. congruence.
    + now rewrite IH.
Qed.

Lemma dict_set_keys d key value k' :
  In k' (map fst (dict_set d key value)) <-> k' = key \/ In k' (map fst d).
Proof.
  induction d as [|[k v] d IH]; simpl.
  - intuition.
  - destruct (String.eqb k key) eqn:E; simpl.
    + apply String.eqb_eq in E. subst. intuition.
    + rewrite IH. intuition.
Qed.

Lemma dict_set_NoDup d key value :
  NoDup (map fst d) -> NoDup (map fst (dict_set d key value)).
Proof.
  induction d as [|[k v] d IH]; simpl; intros H.
  - constructor; [intros [] | constructor].
  - apply NoDup_cons_iff in H. destruct H as [Hk Hd].
    destruct (String.eqb k key) eqn:E; simpl.
    + now constructor.
    + constructor; [|now apply IH].
      intros Hin. apply dict_set_keys in Hin. destruct Hin as [->|Hin].
      * now rewrite String.eqb_refl in E.
      * contradiction.
Qed.

Lemma dict_set_In d key value :
  In (key, value) (dict_set d key value).
Proof.
  induction d as [|[k v] d IH]; simpl; [now left|].
  destruct (String.eqb k key) eqn:E.
  - apply String.eqb_eq in E. subst. now left.
  - right. exact IH.
Qed.

Lemma dict_set_length d key value :
  length d <= length (dict_set d key value) <= S (length d).
Proof.
  induction d as [|[k v] d IH]; simpl; [lia|].
  destruct (String.eqb k key); simpl; lia.
Qed.

Lemma dict_set_canonical d z value :
  canonical d -> canonical (dict_set d (PyStr.str (PyStr.VInt z)) value).
Proof.
  intros [Hnd Hk]. split; [now apply dict_set_NoDup|].
  intros k Hin. apply dict_set_keys in Hin. destruct Hin as [->|Hin]; eauto.
Qed.

Lemma str_int_short z :
  str_digits z <= max_str_digits -> str_int z = Ok (PyStr.str (PyStr.VInt z)).
Proof.
  intro H. unfold str_int.
  destruct (max_str_digits <? str_digits z) eqn:E; [|reflexivity].
  apply Nat.ltb_lt in E. lia.
Qed.

Lemma str_int_long z :
  max_str_digits < str_digits z -> str_int z = Raise ValueError.
Proof.
  intro H. unfold str_int. apply Nat.ltb_lt in H. now rewrite H.
Qed.

Lemma str_int_ok z k : str_int z = Ok k -> k = PyStr.str (PyStr.VInt z).
Proof.
  unfold str_int. destruct (max_str_digits <? str_digits z); [discriminate|].
  intro H. now inversion H.
Qed.

(** What a call of [add_manual_mapping] leaves. *)
Lemma add_manual_mapping_result dk self z u :
  str_digits z <= max_str_digits ->
  exists self',
    add_manual_mapping dk self z u = Ok self'
    /\ manual_mappings (mapper self')
       = dict_set (manual_mappings (mapper self)) (PyStr.str (PyStr.VInt z)) u
    /\ logged (mapper self') = logged (mapper self)
    /\ mapping_file (mapper self')
       = file_after dk (mapping_file (mapper self))
           (manual_mappings (mapper self'))
    /\ save_logged self'
       = (save_logged self
          ++ [save_line dk (manual_mappings (mapper self'));
              InfoAdded z u])%list.
Proof.
  intro Hz. unfold add_manual_mapping. rewrite (str_int_short z Hz).
  cbn [bind].
  destruct dk; eexists; (split; [reflexivity|]); cbn;
    rewrite <- ?app_assoc; repeat split; reflexivity.
Qed.

Lemma add_manual_mapping_ok dk self z u self' :
  add_manual_mapping dk self z u = Ok self' ->
  str_digits z <= max_str_digits.
Proof.
  unfold add_manual_mapping, str_int.
  destruct (max_str_digits <? str_digits z) eqn:E; [discriminate|].
  intros _. apply Nat.ltb_ge in E. exact E.
Qed.

Lemma add_manual_mapping_raises dk self z u e :
  add_manual_mapping dk self z u = Raise e ->
  e = ValueError /\ max_str_digits < str_digits z.
Proof.
  intro H. destruct (Nat.le_gt_cases (str_digits z) max_str_digits) as [Hle|Hgt].
  - destruct (add_manual_mapping_result dk self z u Hle) as [s [E _]].
    rewrite E in H. discriminate.
  - unfold add_manual_mapping in H. rewrite (str_int_long z Hgt) in H.
    cbn [bind] in H. inversion H. now split.
Qed.

Lemma add_all_canonical calls : forall self self',
  canonical (manual_mappings (mapper self)) ->
  add_all self calls = Ok self' ->
  canonical (manual_mappings (mapper self')).
Proof.
  induction calls as [|[[dk z] u] calls IH]; intros self self' Hc H;
    cbn [add_all] in H.
  - inversion H; subst. exact Hc.
  - destruct (add_manual_mapping dk self z u) as [s1|e] eqn:E1;
      cbn [bind] in H; [|discriminate].
    pose proof (add_manual_mapping_ok _ _ _ _ _ E1) as Hz.
    destruct (add_manual_mapping_result dk self z u Hz) as [s1' [E [Hm _]]].
    rewrite E in E1. inversion E1; subst s1'.
    eapply IH; [|exact H]. rewrite Hm. now apply dict_set_canonical.
Qed.

Lemma add_all_ok calls : forall self,
  (forall dk z u, In (dk, z, u) calls -> str_digits z <= max_str_digits) ->
  exists self', add_all self calls = Ok self'.
Proof.
  induction calls as [|[[dk z] u] calls IH]; intros self Hz; cbn [add_all];
    [eauto|].
  destruct (add_manual_mapping_result dk self z u) as [s1 [E _]].
  { apply (Hz dk z u). now left. }
  rewrite E. cbn [bind]. apply IH.
  intros dk' z' u' H. apply (Hz dk' z' u'). now right.
Qed.

(** Canonical keys are read back as pairwise different integers. *)
Lemma canonical_int_keys (d : list (string * string)) :
  canonical d ->
  exists zs, int_keys (map fst d) = Ok zs /\ NoDup zs.
Proof.
  induction d as [|[k v] d IH]; intros [Hnd Hk]; cbn [map fst] in *.
  - exists []. split; [reflexivity | constructor].
  - apply NoDup_cons_iff in Hnd. destruct Hnd as [Hk0 Hnd].
    destruct IH as [zs [Hzs Hzsnd]].
    { split; [exact Hnd|]. intros k' Hk'. apply Hk. now right. }
    destruct (Hk k (or_introl eq_refl)) as [z Hz]. subst k.
    cbn [int_keys]. rewrite int_str, Hzs. cbn [bind].
    exists (z :: zs). split; [reflexivity|].
    constructor; [|exact Hzsnd].
    intros Hin. destruct (int_keys_In_conv _ _ z Hzs Hin) as [k' [Hk' Hint]].
    destruct (Hk k' (or_intror Hk')) as [z' Hz']. subst k'.
    rewrite int_str in Hint. inversion Hint; subst. contradiction.
Qed.

End StoreFacts.

(** * Further properties of the two passes *)

Module PassFacts.

Import PlayerMapper Matcher MatcherFacts DifflibFacts.

Lemma row_similarity_bounds p c :
  (0 <= row_similarity p c)%Q /\ (row_similarity p c <= 1)%Q.
Proof. unfold row_similarity, get_name_similarity. apply ratio_bounds. Qed.

(** Unique ids in the primary table and keys read as different integers
    give unique primary ids in the table returned. *)
Lemma primary_ids_NoDup self fpl us thr m zs :
  NoDup (map (@row_id Z) fpl) ->
  int_keys (overlay_keys self) = Ok zs -> NoDup zs ->
  map_players self fpl us thr = Ok m ->
  NoDup (map fpl_id m).
Proof.
  intros Hfpl Hzs Hnd H.
  apply map_players_inv in H. destruct H as [->|[zs' [Hzs' ->]]]; [constructor|].
  rewrite Hzs in Hzs'. inversion Hzs'; subst zs'.
  rewrite map_app. apply NoDup_app.
  - now apply manual_ids_NoDup.
  - apply automated_ids_NoDup. now apply remaining_fpl_ids_NoDup.
  - intros z Hm Ha.
    apply in_map_iff in Hm. destruct Hm as [e [<- He]].
    apply manual_In in He. destruct He as [_ [Hin _]].
    apply in_map_iff in Ha. destruct Ha as [e' [Heq He']].
    apply automated_In in He'.
    destruct He' as [p [c [_ [Hn [_ [-> _]]]]]]. simpl in Heq.
    apply Hn. now rewrite Heq.
Qed.

(** The pair of an overlay item, with its key converted. *)
Lemma int_keys_pair (items : list (string * string)) : forall zs k v z,
  int_keys (map fst items) = Ok zs -> In (k, v) items -> PyStr.int k = Ok z ->
  In (z, v) (combine zs (map snd items)).
Proof.
  induction items as [|[k0 v0] items IH]; intros zs k v z H Hin Hint;
    cbn [map fst snd int_keys] in *.
  - contradiction.
  - destruct (PyStr.int k0) as [z0|] eqn:E0; cbn [bind] in H; [|discriminate].
    destruct (int_keys (map fst items)) as [zs'|]; cbn [bind] in H;
      [|discriminate].
    inversion H; subst; clear H. cbn [combine].
    destruct Hin as [Heq|Hin].
    + inversion Heq; subst. left. congruence.
    + right. eapply IH; eauto.
Qed.

(** A pair whose two ids are in the tables appends the entry of the first
    rows that carry them. *)
Lemma manual_entry_present fpl us z v :
  In z (map (@row_id Z) fpl) -> In v (map (@row_id string) us) ->
  exists p u,
    manual_entry fpl us (z, v)
    = [mkMapping z v (row_name p) (row_name u) manual 1%Q]
    /\ In p fpl /\ row_id p = z /\ In u us /\ row_id u = v.
Proof.
  intros Hz Hv. unfold manual_entry. cbn [fst snd].
  apply in_map_iff in Hz. destruct Hz as [p0 [Hp0 Hin0]].
  apply in_map_iff in Hv. destruct Hv as [u0 [Hu0 Hinu0]].
  destruct (filter (fun r => Z.eqb (row_id r) z) fpl) as [|p l] eqn:Ep.
  - exfalso.
    assert (H : In p0 (filter (fun r => Z.eqb (row_id r) z) fpl)).
    { apply filter_In. split; [assumption | now apply Z.eqb_eq]. }
    rewrite Ep in H. contradiction.
  - destruct (filter (fun r => String.eqb (row_id r) v) us) as [|u l'] eqn:Eu.
    + exfalso.
      assert (H : In u0 (filter (fun r => String.eqb (row_id r) v) us)).
      { apply filter_In. split; [assumption | now apply String.eqb_eq]. }
      rewrite Eu in H. contradiction.
    + exists p, u. split; [reflexivity|].
      assert (Hp : In p (filter (fun r => Z.eqb (row_id r) z) fpl))
        by (rewrite Ep; now left).
      assert (Hu : In u (filter (fun r => String.eqb (row_id r) v) us))
        by (rewrite Eu; now left).
      apply filter_In in Hp. apply filter_In in Hu.
      destruct Hp as [Hp Hp']. destruct Hu as [Hu Hu'].
      apply Z.eqb_eq in Hp'. apply String.eqb_eq in Hu'. tauto.
Qed.

(** An overlay pair whose ids are in the tables is in the table returned,
    when every key converts. *)
Lemma manual_pair_honoured self fpl us thr k v z :
  (forall k', In k' (overlay_keys self) -> exists z', PyStr.int k' = Ok z') ->
  In (k, v) (manual_mappings self) -> PyStr.int k = Ok z ->
  In z (map (@row_id Z) fpl) -> In v (map (@row_id string) us) ->
  exists m p u,
    map_players self fpl us thr = Ok m
    /\ In (mkMapping z v (row_name p) (row_name u) manual 1%Q) m
    /\ In p fpl /\ row_id p = z /\ In u us /\ row_id u = v.
Proof.
  intros Hkeys Hin Hint Hz Hv.
  destruct (int_keys_total (overlay_keys self) Hkeys) as [zs Hzs].
  destruct (manual_entry_present fpl us z v Hz Hv)
    as [p [u [He [Hp [Hpid [Hu Huid]]]]]].
  assert (Hpair : In (z, v) (combine zs (overlay_values self))).
  { eapply int_keys_pair; eauto. }
  assert (Hm : In (mkMapping z v (row_name p) (row_name u) manual 1%Q)
                 (flat_map (manual_entry fpl us)
                    (combine zs (overlay_values self)))).
  { apply in_flat_map. exists (z, v). split; [exact Hpair|].
    rewrite He. now left. }
  eexists. exists p, u. split; [|split; [|tauto]].
  - eapply map_players_ok.
    + exact Hp.
    + exact Hu.
    + intros Hnil. apply app_eq_nil in Hnil. destruct Hnil as [Hnil _].
      rewrite Hnil in Hm. contradiction.
    + apply collect_mappings_ok. exact Hzs.
  - apply in_or_app. left. exact Hm.
Qed.

(** The head of a filtered list is the first element that passes. *)
Lemma filter_first {A : Type} (f : A -> bool) (l : list A) : forall x rest,
  filter f l = x :: rest ->
  exists l1 l2,
    l = (l1 ++ x :: l2)%list /\ f x = true
    /\ forall y, In y l1 -> f y = false.
Proof.
  induction l as [|a l IH]; intros x rest H; cbn [filter] in H;
    [discriminate|].
  destruct (f a) eqn:Ea.
  - inversion H; subst. exists [], l. split; [reflexivity|].
    split; [exact Ea | intros y []].
  - destruct (IH _ _ H) as (l1 & l2 & -> & Hx & Hl1).
    exists (a :: l1), l2. split; [reflexivity|]. split; [exact Hx|].
    intros y [<-|Hy]; [exact Ea | now apply Hl1].
Qed.

Lemma manual_entry_first fpl us z v :
  In z (map (@row_id Z) fpl) -> In v (map (@row_id string) us) ->
  exists p u,
    manual_entry fpl us (z, v)
    = [mkMapping z v (row_name p) (row_name u) manual 1%Q]
    /\ first_with_id fpl z p /\ first_with_id us v u.
Proof.
  intros Hz Hv. unfold manual_entry. cbn [fst snd].
  apply in_map_iff in Hz. destruct Hz as [p0 [Hp0 Hin0]].
  apply in_map_iff in Hv. destruct Hv as [u0 [Hu0 Hinu0]].
  destruct (filter (fun r => Z.eqb (row_id r) z) fpl) as [|p l] eqn:Ep.
  - exfalso.
    assert (H : In p0 (filter (fun r => Z.eqb (row_id r) z) fpl)).
    { apply filter_In. split; [assumption | now apply Z.eqb_eq]. }
    rewrite Ep in H. contradiction.
  - destruct (filter (fun r => String.eqb (row_id r) v) us) as [|u l'] eqn:Eu.
    + exfalso.
      assert (H : In u0 (filter (fun r => String.eqb (row_id r) v) us)).
      { apply filter_In. split; [assumption | now apply String.eqb_eq]. }
      rewrite Eu in H. contradiction.
    + exists p, u. split; [reflexivity|]. split.
      * destruct (filter_first _ _ _ _ Ep) as (l1 & l2 & E & Hx & Hl1).
        exists l1, l2. split; [exact E|]. split; [now apply Z.eqb_eq|].
        intros q Hq Hid. apply Hl1 in Hq. apply Z.eqb_neq in Hq. now apply Hq.
      * destruct (filter_first _ _ _ _ Eu) as (l1 & l2 & E & Hx & Hl1).
        exists l1, l2. split; [exact E|]. split; [now apply String.eqb_eq|].
        intros q Hq Hid. apply Hl1 in Hq. apply String.eqb_neq in Hq.
        now apply Hq.
Qed.

Lemma first_with_id_In {I : Type} (df : DataFrame I) (i : I) (r : row I) :
  first_with_id df i r -> In r df /\ row_id r = i.
Proof.
  intros (l1 & l2 & -> & Hid & _). split; [|exact Hid].
  apply in_or_app. right. now left.
Qed.

(** An overlay pair whose ids are in the tables is in the table returned,
    with the names of the first rows that carry the ids. *)
Lemma manual_pair_first self fpl us thr k v z :
  (forall k', In k' (overlay_keys self) -> exists z', PyStr.int k' = Ok z') ->
  In (k, v) (manual_mappings self) -> PyStr.int k = Ok z ->
  In z (map (@row_id Z) fpl) -> In v (map (@row_id string) us) ->
  exists m p u,
    map_players self fpl us thr = Ok m
    /\ In (mkMapping z v (row_name p) (row_name u) manual 1%Q) m
    /\ first_with_id fpl z p /\ first_with_id us v u.
Proof.
  intros Hkeys Hin Hint Hz Hv.
  destruct (int_keys_total (overlay_keys self) Hkeys) as [zs Hzs].
  destruct (manual_entry_first fpl us z v Hz Hv) as [p [u [He [Hp Hu]]]].
  assert (Hpair : In (z, v) (combine zs (overlay_values self))).
  { eapply int_keys_pair; eauto. }
  assert (Hm : In (mkMapping z v (row_name p) (row_name u) manual 1%Q)
                 (flat_map (manual_entry fpl us)
                    (combine zs (overlay_values self)))).
  { apply in_flat_map. exists (z, v). split; [exact Hpair|].
    rewrite He. now left. }
  eexists. exists p, u. split; [|split; [|split; assumption]].
  - eapply map_players_ok.
    + exact (proj1 (first_with_id_In _ _ _ Hp)).
    + exact (proj1 (first_with_id_In _ _ _ Hu)).
    + intros Hnil. apply app_eq_nil in Hnil. destruct Hnil as [Hnil _].
      rewrite Hnil in Hm. contradiction.
    + apply collect_mappings_ok. exact Hzs.
  - apply in_or_app. left. exact Hm.
Qed.

(** Every entry names rows of the two tables. *)
Lemma entry_rows self fpl us thr m e :
  map_players self fpl us thr = Ok m -> In e m ->
  (exists p, In p fpl /\ row_id p = fpl_id e /\ row_name p = fpl_name e)
  /\ (exists c, In c us /\ row_id c = understat_id e
                /\ row_name c = understat_name e)
  /\ (0 <= similarity e)%Q /\ (similarity e <= 1)%Q
  /\ (matching_type e = manual -> similarity e = 1%Q)
  /\ (matching_type e = automated -> (thr <= similarity e)%Q).
Proof.
  intros H He.
  apply map_players_inv in H. destruct H as [->|[zs [Hzs ->]]]; [contradiction|].
  apply in_app_or in He. destruct He as [He|He].
  - apply in_flat_map in He. destruct He as [[z v] [_ He]].
    apply manual_entry_In in He.
    destruct He as [Ht [Hf [Hu [Hs [[p [Hp [Hpid Hpn]]] [u [Hu' [Huid Hun]]]]]]]].
    cbn [fst snd] in *.
    split; [exists p; repeat split; congruence|].
    split; [exists u; repeat split; congruence|].
    rewrite Hs. split; [discriminate|]. split; [apply Qle_refl|].
    split; [reflexivity | congruence].
  - apply automated_In in He.
    destruct He as [p [c [Hp [_ [[Hc _] [-> [Hthr _]]]]]]].
    cbn [automated_entry fpl_id understat_id fpl_name understat_name
         similarity matching_type].
    split; [exists p; repeat split; assumption|].
    split; [exists c; repeat split; assumption|].
    split; [apply row_similarity_bounds|].
    split; [apply row_similarity_bounds|].
    split; [discriminate | intros _; exact Hthr].
Qed.

(** ** The first of the best candidates wins *)

Lemma best_loop_first name players : forall bm bs bm' bs',
  best_loop name players bm bs = (bm', bs') ->
  (bm' = bm /\ bs' = bs
   /\ forall c, In c players ->
        (get_name_similarity (PyStr.VStr name) (PyStr.VStr (row_name c)) <= bs)%Q)
  \/ exists l1 c l2,
       players = l1 ++ c :: l2 /\ bm' = Some c
       /\ bs' = get_name_similarity (PyStr.VStr name) (PyStr.VStr (row_name c))
       /\ (bs < bs')%Q
       /\ (forall c', In c' l1 ->
             (get_name_similarity (PyStr.VStr name) (PyStr.VStr (row_name c'))
              < bs')%Q)
       /\ (forall c', In c' l2 ->
             (get_name_similarity (PyStr.VStr name) (PyStr.VStr (row_name c'))
              <= bs')%Q).
Proof.
  induction players as [|c0 players IH]; intros bm bs bm' bs' H;
    cbn [best_loop] in H.
  - inversion H; subst. left. repeat split. intros c [].
  - destruct (Qlt_le_dec bs _) as [Hlt|Hle].
    + apply IH in H.
      destruct H as [[-> [-> Hall]]|[l1 [c [l2 [-> [-> [-> [Hgt [H1 H2]]]]]]]]].
      * right. exists [], c0, players. repeat split; try assumption.
        intros c' [].
      * right. exists (c0 :: l1), c, l2. repeat split.
        -- eapply Qlt_trans; eassumption.
        -- intros c' [<-|Hc']; [assumption | now apply H1].
        -- assumption.
    + apply IH in H.
      destruct H as [[-> [-> Hall]]|[l1 [c [l2 [-> [-> [-> [Hgt [H1 H2]]]]]]]]].
      * left. repeat split. intros c [<-|Hc]; [assumption | now apply Hall].
      * right. exists (c0 :: l1), c, l2. repeat split; try assumption.
        intros c' [<-|Hc']; [|now apply H1].
        eapply Qle_lt_trans; eassumption.
Qed.

Lemma normalize_team_names_map {I : Type} (df : DataFrame I) :
  DataCleaner.normalize_team_names df
  = map (fun r => mkRow (row_id r) (row_name r) (row_team r)
                    (Some (normalized_team r))) df.
Proof. destruct df; reflexivity. Qed.

(** A split of a filtered, mapped, filtered list comes from a split of the
    list. *)
Lemma filter_map_filter_split {A B : Type} (h : A -> bool) (g : A -> B)
  (f : B -> bool) (l : list A) : forall l1' c' l2',
  filter f (map g (filter h l)) = l1' ++ c' :: l2' ->
  exists l1 c l2,
    l = l1 ++ c :: l2 /\ h c = true /\ g c = c' /\ f c' = true
    /\ l1' = filter f (map g (filter h l1))
    /\ l2' = filter f (map g (filter h l2)).
Proof.
  induction l as [|x l IH]; intros l1' c' l2' H; cbn [filter map] in H.
  - destruct l1'; discriminate.
  - destruct (h x) eqn:Hx; cbn [map filter] in H.
    + destruct (f (g x)) eqn:Hf.
      * destruct l1' as [|y l1']; cbn [app] in H.
        -- inversion H; subst. exists [], x, l. cbn [filter map app].
           repeat split; assumption.
        -- inversion H; subst.
           destruct (IH _ _ _ H2) as [l1 [c [l2 [-> [Hc [Hg [Hfc [E1 E2]]]]]]]].
           exists (x :: l1), c, l2. cbn [filter map app].
           rewrite Hx. cbn [map filter]. rewrite Hf.
           repeat split; try assumption. now f_equal.
      * destruct (IH _ _ _ H) as [l1 [c [l2 [-> [Hc [Hg [Hfc [E1 E2]]]]]]]].
        exists (x :: l1), c, l2. cbn [filter map app].
        rewrite Hx. cbn [map filter]. rewrite Hf.
        repeat split; assumption.
    + destruct (IH _ _ _ H) as [l1 [c [l2 [-> [Hc [Hg [Hfc [E1 E2]]]]]]]].
      exists (x :: l1), c, l2. cbn [filter map app]. rewrite Hx.
      repeat split; assumption.
Qed.

Lemma match_row_first thr ru p e :
  In e (match_row thr ru p) ->
  exists l1 c l2,
    filter (fun r => String.eqb (team_key r) (team_key p)) ru = l1 ++ c :: l2
    /\ e = mkMapping (row_id p) (row_id c) (row_name p) (row_name c) automated
             (get_name_similarity (PyStr.VStr (row_name p))
                (PyStr.VStr (row_name c)))
    /\ (forall c', In c' l1 ->
          (get_name_similarity (PyStr.VStr (row_name p))
             (PyStr.VStr (row_name c'))
           < get_name_similarity (PyStr.VStr (row_name p))
               (PyStr.VStr (row_name c)))%Q)
    /\ (forall c', In c' l2 ->
          (get_name_similarity (PyStr.VStr (row_name p))
             (PyStr.VStr (row_name c'))
           <= get_name_similarity (PyStr.VStr (row_name p))
                (PyStr.VStr (row_name c)))%Q).
Proof.
  unfold match_row. intros H.
  destruct (best_loop _ _ None 0%Q) as [bm bs] eqn:E.
  apply best_loop_first in E.
  destruct E as [[-> [-> _]]|[l1 [c [l2 [Hsplit [-> [-> [_ [H1 H2]]]]]]]]];
    [contradiction|].
  destruct (Qle_bool thr _); [|contradiction].
  destruct H as [<-|[]]. exists l1, c, l2. repeat split; assumption.
Qed.

(** In the table returned, an automated entry pairs its primary row with
    the first, in the order of the secondary table, of the candidates
    that score highest. *)
Lemma automated_first_best self fpl us thr m e :
  map_players self fpl us thr = Ok m -> In e m ->
  matching_type e = automated ->
  exists p l1 c l2,
    In p fpl /\ us = l1 ++ c :: l2 /\ candidate self us p c
    /\ e = automated_entry p c (row_similarity p c)
    /\ (forall c', In c' l1 -> candidate self us p c' ->
          (row_similarity p c' < row_similarity p c)%Q)
    /\ (forall c', In c' l2 -> candidate self us p c' ->
          (row_similarity p c' <= row_similarity p c)%Q).
Proof.
  intros H He Ht.
  apply map_players_inv in H. destruct H as [->|[zs [Hzs ->]]]; [contradiction|].
  apply in_app_or in He. destruct He as [He|He].
  { apply manual_In in He. destruct He as [Hm _]. congruence. }
  apply in_flat_map in He. destruct He as [p' [Hp' He]].
  apply match_row_first in He.
  destruct He as [l1' [c' [l2' [Hsplit [-> [H1 H2]]]]]].
  apply remaining_fpl_In in Hp'.
  destruct Hp' as [p [Hp [Hnp [Hid [Hname Hteam]]]]].
  unfold remaining_understat in Hsplit.
  rewrite normalize_team_names_map in Hsplit.
  apply filter_map_filter_split in Hsplit.
  destruct Hsplit as [l1 [c [l2 [Hus [Hh [Hg [Hf [E1 E2]]]]]]]].
  assert (Hcand : forall l c0, In c0 l -> incl l us ->
            candidate self us p c0 ->
            In (mkRow (row_id c0) (row_name c0) (row_team c0)
                  (Some (normalized_team c0)))
               (filter (fun r => String.eqb (team_key r) (team_key p'))
                  (map (fun r => mkRow (row_id r) (row_name r) (row_team r)
                                   (Some (normalized_team r)))
                     (filter (fun r => negb (isin String.eqb (row_id r)
                                               (overlay_values self))) l)))).
  { intros l c0 Hc0 _ [_ [Hn Hk]].
    apply filter_In. split.
    - apply in_map_iff. exists c0. split; [reflexivity|].
      apply filter_In. split; [assumption|].
      destruct (isin String.eqb (row_id c0) (overlay_values self)) eqn:Ei;
        [|reflexivity].
      apply isin_string_In in Ei. contradiction.
    - apply String.eqb_eq. cbn [team_key row_normalized]. congruence. }
  exists p, l1, c, l2. subst c'.
  cbn [row_id row_name] in *.
  split; [assumption|]. split; [assumption|].
  assert (Hc : candidate self us p c).
  { split; [rewrite Hus; apply in_or_app; right; now left|]. split.
    - intros Hin. apply isin_string_In in Hin. rewrite Hin in Hh. discriminate.
    - apply String.eqb_eq in Hf. cbn [team_key row_normalized] in Hf. congruence. }
  split; [exact Hc|].
  split; [unfold automated_entry, row_similarity; now rewrite Hid, Hname|].
  split.
  - intros c0 Hc0 Hcand0. unfold row_similarity. rewrite <- Hname.
    apply (H1 (mkRow (row_id c0) (row_name c0) (row_team c0)
                 (Some (normalized_team c0)))).
    rewrite E1. apply (Hcand l1 c0 Hc0); [|exact Hcand0].
    rewrite Hus. intros x Hx. apply in_or_app. now left.
  - intros c0 Hc0 Hcand0. unfold row_similarity. rewrite <- Hname.
    apply (H2 (mkRow (row_id c0) (row_name c0) (row_team c0)
                 (Some (normalized_team c0)))).
    rewrite E2. apply (Hcand l2 c0 Hc0); [|exact Hcand0].
    rewrite Hus. intros x Hx. apply in_or_app. right. now right.
Qed.

(** ** The unmatched set *)

Lemma export_missing_mappings_filter fpl m :
  export_missing_mappings fpl m
  = filter (fun r => negb (isin Z.eqb (row_id r) (map fpl_id m))) fpl.
Proof.
  unfold export_missing_mappings.
  destruct fpl as [|p fpl]; [reflexivity|]. cbn [empty].
  destruct m; reflexivity.
Qed.

Lemma export_missing_mappings_iff fpl m p :
  In p (export_missing_mappings fpl m)
  <-> In p fpl /\ forall e, In e m -> fpl_id e <> row_id p.
Proof.
  rewrite export_missing_mappings_filter, filter_In. split.
  - intros [Hp Hn]. split; [assumption|]. intros e He Heq.
    assert (Hin : isin Z.eqb (row_id p) (map fpl_id m) = true).
    { apply isin_Z_In. rewrite <- Heq. now apply in_map. }
    rewrite Hin in Hn. discriminate.
  - intros [Hp Hn]. split; [assumption|].
    destruct (isin Z.eqb (row_id p) (map fpl_id m)) eqn:E; [|reflexivity].
    apply isin_Z_In in E. apply in_map_iff in E. destruct E as [e [He Hin]].
    exfalso. eapply Hn; eassumption.
Qed.

Lemma filter_length_split {A : Type} (f : A -> bool) (l : list A) :
  length (filter f l) + length (filter (fun x => negb (f x)) l) = length l.
Proof.
  induction l as [|x l IH]; cbn [filter]; [reflexivity|].
  destruct (f x); cbn [negb length]; lia.
Qed.

(** Ids that are unique, and taken from a list of unique ids, leave as
    many ids out as the difference of the lengths. *)
Lemma unmatched_count (ids matched : list Z) :
  NoDup ids -> NoDup matched -> incl matched ids ->
  length (filter (fun x => negb (isin Z.eqb x matched)) ids) + length matched
  = length ids.
Proof.
  intros Hids Hm Hincl.
  pose proof (filter_length_split (fun x => isin Z.eqb x matched) ids) as Hs.
  assert (E : length (filter (fun x => isin Z.eqb x matched) ids)
              = length matched).
  { apply Nat.le_antisymm.
    - apply NoDup_incl_length; [now apply NoDup_filter|].
      intros x Hx. apply filter_In in Hx. destruct Hx as [_ Hx].
      now apply isin_Z_In.
    - apply NoDup_incl_length; [assumption|].
      intros x Hx. apply filter_In. split; [now apply Hincl|].
      now apply isin_Z_In. }
  lia.
Qed.

End PassFacts.

(** * Properties of the validation *)

Module ValidationFacts.

Import Validation Flags.

Lemma rstrip_commas_cases :
  rstrip_commas "" = ""%string
  /\ rstrip_commas "high_minutes," = "high_minutes"%string
  /\ rstrip_commas "high_goals_for_position," = "high_goals_for_position"%string
  /\ rstrip_commas "high_minutes,high_goals_for_position,"
     = "high_minutes,high_goals_for_position"%string.
Proof. repeat split. Qed.

(** The rows of the validated table, one by one. *)
Lemma validate_player_data_rows df :
  stats_rows df <> [] ->
  stats_rows (validate_player_data df)
  = map (fun r => set_flags (flag_text df r) r) (stats_rows df).
Proof.
  intros Hne. unfold validate_player_data.
  destruct (stats_rows df) as [|r0 rows] eqn:E; [contradiction|].
  cbn [empty stats_rows].
  destruct rstrip_commas_cases as [R0 [R1 [R2 R3]]].
  set (l := r0 :: rows). clearbody l.
  unfold add_flag, flag_text, high_minutes, high_goals.
  destruct (has_minutes df), (has_goals df), (has_position df);
    cbn [andb]; rewrite ?map_map; apply map_ext; intros r;
    cbn [set_flags minutes goals position data_flags flags_of];
    destruct (gt (minutes r) 3420);
    cbn [set_flags minutes goals position data_flags flags_of];
    destruct (cell_isin (position r) ["Defender"%string; "Goalkeeper"%string]);
    cbn [andb set_flags minutes goals position data_flags flags_of];
    destruct (gt (goals r) 10);
    cbn [andb set_flags minutes goals position data_flags flags_of append];
    rewrite ?R0, ?R1, ?R2, ?R3; reflexivity.
Qed.

End ValidationFacts.

Module CleanerMoreFacts.

Import DataCleaner CleanerFacts.

(** A canonical key is left as it is. *)
Lemma normalize_cell_canonical v :
  In v (map snd team_mapping) -> normalize_cell v = v.
Proof.
  cbn [team_mapping map snd In]. intros H.
  repeat (destruct H as [<-|H]; [reflexivity|]). contradiction.
Qed.

Lemma dict_get_cases d key default :
  dict_get d key default = default \/ In (dict_get d key default) (map snd d).
Proof.
  induction d as [|[k v] d IH]; cbn [dict_get map snd]; [now left|].
  destruct (String.eqb k key); [right; now left|].
  destruct IH as [IH|IH]; [now left | right; now right].
Qed.

End CleanerMoreFacts.

(** * Further properties of the scorer *)

Module ScoreFacts.

Import PyStr Matcher Difflib Blocks DifflibFacts NameFacts.

(** ** Case and surrounding white space *)

Lemma isspace_lower_char c : isspace (lower_char c) = isspace c.
Proof. destruct c as [[] [] [] [] [] [] [] []]; reflexivity. Qed.

Lemma lstrip_chars_map_lower l :
  lstrip_chars (map lower_char l) = map lower_char (lstrip_chars l).
Proof.
  induction l as [|c l IH]; cbn [map lstrip_chars]; [reflexivity|].
  rewrite isspace_lower_char. destruct (isspace c); [exact IH | reflexivity].
Qed.

Lemma strip_chars_map_lower l :
  strip_chars (map lower_char l) = map lower_char (strip_chars l).
Proof.
  unfold strip_chars.
  now rewrite lstrip_chars_map_lower, <- map_rev, lstrip_chars_map_lower, map_rev.
Qed.

Lemma lstrip_chars_fixed l :
  (forall c l', l = c :: l' -> isspace c = false) -> lstrip_chars l = l.
Proof.
  destruct l as [|c l]; intros H; cbn [lstrip_chars]; [reflexivity|].
  now rewrite (H c l eq_refl).
Qed.

Lemma lstrip_chars_idempotent l : lstrip_chars (lstrip_chars l) = lstrip_chars l.
Proof.
  apply lstrip_chars_fixed. intros c l' H. eapply lstrip_chars_head; eassumption.
Qed.

Lemma strip_chars_idempotent l : strip_chars (strip_chars l) = strip_chars l.
Proof.
  assert (H : lstrip_chars (strip_chars l) = strip_chars l).
  { apply lstrip_chars_fixed. intros c l' E. eapply strip_chars_first; eassumption. }
  unfold strip_chars at 1. rewrite H.
  unfold strip_chars. now rewrite rev_involutive, lstrip_chars_idempotent.
Qed.

Lemma map_lower_idempotent l :
  map lower_char (map lower_char l) = map lower_char l.
Proof.
  rewrite map_map. apply map_ext. intros c. apply lower_char_idempotent.
Qed.

Lemma cleaned_lower s : cleaned (VStr (lower s)) = cleaned (VStr s).
Proof.
  rewrite !cleaned_unfold. cbn [str]. unfold lower.
  now rewrite list_ascii_of_string_of_list_ascii, map_lower_idempotent.
Qed.

Lemma cleaned_strip s : cleaned (VStr (strip s)) = cleaned (VStr s).
Proof.
  rewrite !cleaned_unfold. cbn [str]. unfold strip.
  rewrite list_ascii_of_string_of_list_ascii.
  now rewrite <- strip_chars_map_lower, strip_chars_idempotent,
    strip_chars_map_lower.
Qed.

(** ** A common character gives a positive score *)

Lemma scan_js_size js i blo bhi j2len : forall newj2len best newj2len' best',
  scan_js js i blo bhi j2len newj2len best = (newj2len', best') ->
  size best <= size best'
  /\ ((exists j, In j js /\ blo <= j) ->
      (forall j, In j js -> j < bhi) -> 1 <= size best').
Proof.
  induction js as [|j js IH]; intros new best new' best' H; cbn [scan_js] in H.
  - inversion H; subst. split; [lia|]. intros [j [[] _]].
  - destruct (j <? blo) eqn:E1.
    + apply IH in H. destruct H as [H1 H2]. split; [exact H1|].
      intros [j0 [[<-|Hj0] Hlo]] Hhi.
      * apply Nat.ltb_lt in E1. lia.
      * apply H2; [eauto | intros; apply Hhi; now right].
    + destruct (bhi <=? j) eqn:E2.
      * inversion H; subst. split; [lia|].
        intros _ Hhi. apply Nat.leb_le in E2.
        specialize (Hhi j (or_introl eq_refl)). lia.
      * destruct best as [[bi bj] bk].
        apply IH in H. destruct H as [H1 _].
        assert (Hk : 1 <= size best' /\ bk <= size best').
        { destruct (bk <? j2len_prev j2len j + 1) eqn:E3.
          - apply Nat.ltb_lt in E3. unfold size in *. cbn [snd] in *. lia.
          - apply Nat.ltb_ge in E3. unfold size in *. cbn [snd] in *. lia. }
        split; [unfold size at 1; cbn [snd]; lia|]. intros _ _. lia.
Qed.

Lemma scan_rows_size sm n : forall i blo bhi j2len best,
  size best <= size (scan_rows sm n i blo bhi j2len best)
  /\ ((exists x j, i <= x < i + n /\ In j (indices_at sm x) /\ blo <= j) ->
      (forall x j, In j (indices_at sm x) -> j < bhi) ->
      1 <= size (scan_rows sm n i blo bhi j2len best)).
Proof.
  induction n as [|n IH]; intros i blo bhi j2len best; cbn [scan_rows].
  - split; [lia|]. intros [x [j [Hx _]]]. lia.
  - change (match b2j_get (b2j sm) (nth i (seq_a sm) zero_char) with
            | Some idxs => idxs
            | None => []
            end) with (indices_at sm i).
    destruct (scan_js (indices_at sm i) i blo bhi j2len [] best)
      as [new best'] eqn:E.
    apply scan_js_size in E. destruct E as [E1 E2].
    destruct (IH (S i) blo bhi new best') as [I1 I2].
    split; [lia|].
    intros [x [j [Hx [Hj Hlo]]]] Hhi.
    destruct (Nat.eq_dec x i) as [->|Hne].
    + assert (1 <= size best'); [|lia].
      apply E2; [eauto | intros; eapply Hhi; eassumption].
    + apply I2; [|exact Hhi]. exists x, j. repeat split; try assumption; lia.
Qed.

Lemma extend_back_size sm want alo blo besti : forall bestj bestsize,
  bestsize <= size (extend_back sm want alo blo besti bestj bestsize).
Proof.
  induction besti as [|i' IH]; intros bestj bestsize; cbn [extend_back];
    [unfold size; cbn [snd]; lia|].
  destruct bestj as [|j']; [unfold size; cbn [snd]; lia|].
  destruct (_ && _); [|unfold size; cbn [snd]; lia].
  specialize (IH j' (S bestsize)). lia.
Qed.

Lemma extend_fwd_size sm want n ahi bhi besti bestj : forall bestsize,
  bestsize <= size (extend_fwd sm want n ahi bhi besti bestj bestsize).
Proof.
  induction n as [|n IH]; intros bestsize; cbn [extend_fwd];
    [unfold size; cbn [snd]; lia|].
  destruct (_ && _); [|unfold size; cbn [snd]; lia].
  specialize (IH (S bestsize)). lia.
Qed.

Lemma find_longest_match_size sm alo ahi blo bhi :
  size (scan_rows sm (ahi - alo) alo blo bhi [] (alo, blo, 0))
  <= size (find_longest_match sm alo ahi blo bhi).
Proof.
  unfold find_longest_match.
  destruct (scan_rows sm (ahi - alo) alo blo bhi [] (alo, blo, 0))
    as [[i1 j1] k1].
  pose proof (extend_back_size sm false alo blo i1 j1 k1) as H2.
  destruct (extend_back sm false alo blo i1 j1 k1) as [[i2 j2] k2].
  pose proof (extend_fwd_size sm false (ahi - (i2 + k2)) ahi bhi i2 j2 k2) as H3.
  destruct (extend_fwd sm false (ahi - (i2 + k2)) ahi bhi i2 j2 k2)
    as [[i3 j3] k3].
  pose proof (extend_back_size sm true alo blo i3 j3 k3) as H4.
  destruct (extend_back sm true alo blo i3 j3 k3) as [[i4 j4] k4].
  pose proof (extend_fwd_size sm true (ahi - (i4 + k4)) ahi bhi i4 j4 k4) as H5.
  unfold size in *. cbn [snd] in *. lia.
Qed.

Lemma blocks_loop_grows sm fuel : forall queue blocks,
  sum_sizes blocks <= sum_sizes (blocks_loop sm fuel queue blocks).
Proof.
  induction fuel as [|fuel IH]; intros queue blocks.
  - destruct queue; cbn [blocks_loop]; lia.
  - destruct queue as [|[[[alo ahi] blo] bhi] queue]; cbn [blocks_loop]; [lia|].
    destruct (find_longest_match sm alo ahi blo bhi) as [[i j] k].
    destruct (k =? 0); [apply IH|].
    match goal with
    | |- _ <= sum_sizes (blocks_loop sm fuel ?q ?bl) =>
        specialize (IH q bl); rewrite sum_sizes_app in IH
    end.
    lia.
Qed.

(** Below 200 elements nothing is purged from [b2j]. *)
Lemma indices_at_short a b x :
  length b < 200 ->
  indices_at (new a b) x = positions (nth x a zero_char) b 0.
Proof.
  intros Hb. unfold indices_at. cbn [new b2j seq_a]. unfold chain_b.
  replace (200 <=? length b) with false by (symmetry; apply Nat.leb_gt; lia).
  rewrite chain_loop_get. cbn [b2j_get listed app].
  destruct (positions (nth x a zero_char) b 0); reflexivity.
Qed.

Lemma ratio_positive a b :
  length b < 200 -> (exists c, In c a /\ In c b) -> (0 < ratio (new a b))%Q.
Proof.
  intros Hb [c [Ha Hc]].
  destruct (In_nth a c zero_char Ha) as [x [Hx Hnx]].
  destruct (In_nth b c zero_char Hc) as [j [Hj Hnj]].
  assert (Hin : In j (indices_at (new a b) x)).
  { rewrite (indices_at_short a b x Hb). apply positions_In.
    rewrite Nat.sub_0_r. repeat split; [lia | lia | congruence]. }
  assert (Hk : 1 <= size (find_longest_match (new a b) 0 (length a) 0 (length b))).
  { eapply Nat.le_trans; [|apply find_longest_match_size].
    apply scan_rows_size.
    - exists x, j. repeat split; [lia | lia | exact Hin | lia].
    - intros x' j' Hj'. now apply (indices_at_In a b x' j'). }
  unfold ratio. rewrite sum_sizes_get_matching_blocks.
  cbn [seq_a seq_b new].
  replace (2 * length a + 1) with (S (2 * length a)) by lia.
  generalize (2 * length a). intros f. cbn [blocks_loop].
  destruct (find_longest_match (new a b) 0 (length a) 0 (length b))
    as [[i0 j0] k0].
  unfold size in Hk. cbn [snd] in Hk.
  replace (k0 =? 0) with false by (symmetry; apply Nat.eqb_neq; lia).
  match goal with
  | |- context [blocks_loop ?s f ?q ?bl] =>
      pose proof (blocks_loop_grows s f q bl) as Hg
  end.
  cbn [app sum_sizes fold_right snd] in Hg.
  set (M := sum_sizes _) in *.
  unfold calculate_ratio.
  replace (length a + length b =? 0) with false
    by (symmetry; apply Nat.eqb_neq; lia).
  rewrite Qred_correct. unfold Qlt. cbn [Qnum Qden]. lia.
Qed.

Lemma common_char_dec (a b : list ascii) :
  (exists c, In c a /\ In c b) \/ (forall c, In c a -> ~ In c b).
Proof.
  induction a as [|x a IH].
  - right. intros c [].
  - destruct (in_dec ascii_dec x b) as [Hx|Hx].
    + left. exists x. split; [now left | exact Hx].
    + destruct IH as [[c [Hc1 Hc2]]|IH].
      * left. exists c. split; [now right | exact Hc2].
      * right. intros c [<-|Hc]; [exact Hx | now apply IH].
Qed.

End ScoreFacts.

(** * Properties of name cleaning *)

Module CleaningFacts.

Import PyStr NameCleaning Names ScoreFacts.

Open Scope string_scope.

(** ** The character replacements *)

Lemma replace_all_map table : forall l,
  replace_all table l = map (replace_in table) l.
Proof.
  induction table as [|[char replacement] table IH]; intro l.
  - cbn. now rewrite map_id.
  - cbn [replace_all]. rewrite IH. unfold replace_char. rewrite map_map.
    apply map_ext. intro c. reflexivity.
Qed.

Lemma isspace_deaccent c : isspace (deaccent c) = isspace c.
Proof. destruct c as [[] [] [] [] [] [] [] []]; reflexivity. Qed.

Lemma deaccent_lower_fixed c :
  lower_char (deaccent (lower_char c)) = deaccent (lower_char c)
  /\ deaccent (deaccent (lower_char c)) = deaccent (lower_char c).
Proof. destruct c as [[] [] [] [] [] [] [] []]; split; reflexivity. Qed.

Lemma chars_append (s t : string) :
  list_ascii_of_string (s ++ t)
  = (list_ascii_of_string s ++ list_ascii_of_string t)%list.
Proof. induction s as [|c s IH]; cbn; [reflexivity | now rewrite IH]. Qed.

(** The text the two substitutions work on. *)
Lemma clean_name_unfold name :
  clean_name name
  = string_of_list_ascii
      (replace_initials 0
         (remove_suffix
            (map (fun c => deaccent (lower_char c))
               (list_ascii_of_string name)))).
Proof.
  unfold clean_name, lower. rewrite list_ascii_of_string_of_list_ascii.
  rewrite replace_all_map, map_map. unfold deaccent. reflexivity.
Qed.

Lemma spaceless_cons c l :
  spaceless (c :: l) -> isspace c = false /\ spaceless l.
Proof.
  intro H. split; [apply H; now left | intros d Hd; apply H; now right].
Qed.

Lemma spaceless_prepared l :
  spaceless l -> spaceless (map (fun c => deaccent (lower_char c)) l).
Proof.
  intros H d Hd. apply in_map_iff in Hd. destruct Hd as (c & <- & Hc).
  rewrite isspace_deaccent, isspace_lower_char. now apply H.
Qed.

(** ** Texts without white space *)

Lemma remove_suffix_spaceless l : spaceless l -> remove_suffix l = l.
Proof.
  induction l as [|c l IH]; intro H; [reflexivity|].
  apply spaceless_cons in H. destruct H as [Hc Hl].
  cbn [remove_suffix match_suffix]. rewrite Hc. now rewrite IH.
Qed.

Lemma replace_initials_spaceless l : spaceless l -> replace_initials 0 l = l.
Proof.
  induction l as [|c l IH]; intro H; [reflexivity|].
  apply spaceless_cons in H. destruct H as [Hc Hl].
  cbn [replace_initials match_initial]. rewrite Hc. now rewrite IH.
Qed.

(** ** What a match leaves *)

Lemma closes_refl l : closes l l.
Proof. now exists []. Qed.

Lemma closes_cons c r l : closes r l -> closes r (c :: l).
Proof. intros [p ->]. now exists (c :: p). Qed.

Lemma closes_trans r m l : closes r m -> closes m l -> closes r l.
Proof. intros [p ->] [q ->]. exists (q ++ p)%list. now rewrite app_assoc. Qed.

Lemma closes_In r l c : closes r l -> In c r -> In c l.
Proof. intros [p ->] H. apply in_or_app. now right. Qed.

Lemma closes_length r l : closes r l -> length r <= length l.
Proof. intros [p ->]. rewrite length_app. lia. Qed.

Lemma closes_lstrip l : closes (lstrip_chars l) l.
Proof. destruct (NameFacts.lstrip_chars_suffix l) as [p Hp]. now exists p. Qed.

Lemma after_prefix_closes w : forall l r,
  after_prefix w l = Some r -> closes r l.
Proof.
  induction w as [|x w IH]; intros l r H.
  - cbn in H. injection H as <-. apply closes_refl.
  - destruct l as [|c l]; [discriminate|]. cbn in H.
    destruct (Ascii.eqb x c); [|discriminate].
    apply closes_cons. now apply IH.
Qed.

Lemma dot_then_end_closes l r : dot_then_end l = Some r -> closes r l.
Proof.
  destruct l as [|c l]; cbn [dot_then_end]; intro H.
  - injection H as <-. apply closes_refl.
  - destruct ((nat_of_ascii c =? 46)%nat && at_end l).
    + injection H as <-. apply closes_cons, closes_refl.
    + destruct (at_end (c :: l)); [|discriminate].
      injection H as <-. apply closes_refl.
Qed.

Lemma suffix_word_closes words : forall l r,
  suffix_word words l = Some r -> closes r l.
Proof.
  induction words as [|w words IH]; intros l r H; [discriminate|].
  cbn [suffix_word] in H.
  destruct (after_prefix w l) as [rest|] eqn:Hw; [|now apply IH].
  destruct (dot_then_end rest) as [remainder|] eqn:Hd; [|now apply IH].
  injection H as <-.
  apply closes_trans with (m := rest).
  - apply dot_then_end_closes. exact Hd.
  - apply after_prefix_closes with (w := w). exact Hw.
Qed.

Lemma match_suffix_closes l r : match_suffix l = Some r -> closes r l.
Proof.
  destruct l as [|c l]; [discriminate|]. cbn [match_suffix].
  destruct (isspace c); [|discriminate]. intro H.
  apply closes_cons. apply closes_trans with (m := lstrip_chars l).
  - apply suffix_word_closes with (words := suffix_words). exact H.
  - apply closes_lstrip.
Qed.

Lemma match_initial_closes l r : match_initial l = Some r -> closes r l.
Proof.
  destruct l as [|c l]; [discriminate|]. cbn [match_initial].
  destruct (isspace c); [|discriminate].
  pose proof (closes_lstrip l) as Hl.
  destruct (lstrip_chars l) as [|x t]; [discriminate|].
  destruct (is_az x); [|discriminate].
  intro H. apply closes_cons. eapply closes_trans; [|exact Hl].
  apply closes_cons.
  assert (Hgen : forall t',
    match t' with
    | w :: r' => if isspace w then Some (lstrip_chars r') else None
    | [] => None
    end = Some r -> closes r t').
  { intros [|w r'] Hm; [discriminate|].
    destruct (isspace w); [|discriminate]. injection Hm as <-.
    apply closes_cons, closes_lstrip. }
  destruct t as [|d t']; [discriminate|].
  destruct (nat_of_ascii d =? 46)%nat.
  - apply closes_cons. now apply Hgen.
  - now apply Hgen.
Qed.

(** ** Nothing new but a blank, and nothing longer *)

Lemma remove_suffix_In c l : In c (remove_suffix l) -> In c l.
Proof.
  induction l as [|x l IH]; [easy|]. cbn [remove_suffix].
  destruct (match_suffix (x :: l)) as [r|] eqn:Hm.
  - intro H. apply closes_In with (r := r); [|exact H].
    now apply match_suffix_closes.
  - intros [<-|H]; [now left | right; now apply IH].
Qed.

Lemma remove_suffix_length l : length (remove_suffix l) <= length l.
Proof.
  induction l as [|x l IH]; [apply Nat.le_refl|]. cbn [remove_suffix].
  destruct (match_suffix (x :: l)) as [r|] eqn:Hm.
  - apply closes_length. now apply match_suffix_closes.
  - cbn [length]. lia.
Qed.

Lemma replace_initials_In c l : forall skip,
  In c (replace_initials skip l) -> c = " "%char \/ In c l.
Proof.
  induction l as [|x l IH]; intros skip H; [easy|].
  cbn [replace_initials] in H. destruct skip as [|skip].
  - destruct (match_initial (x :: l)).
    + destruct H as [<-|H]; [now left|].
      destruct (IH _ H) as [->|Hc]; [now left | right; now right].
    + destruct H as [<-|H]; [right; now left|].
      destruct (IH _ H) as [->|Hc]; [now left | right; now right].
  - destruct (IH _ H) as [->|Hc]; [now left | right; now right].
Qed.

Lemma replace_initials_length l : forall skip,
  length (replace_initials skip l) <= length l.
Proof.
  induction l as [|x l IH]; intro skip; [apply Nat.le_refl|].
  cbn [replace_initials]. destruct skip as [|skip].
  - destruct (match_initial (x :: l)); cbn [length];
      apply le_n_S, IH.
  - cbn [length]. specialize (IH skip). lia.
Qed.

Lemma clean_name_chars name c :
  In c (list_ascii_of_string (clean_name name)) ->
  lower_char c = c /\ deaccent c = c.
Proof.
  rewrite clean_name_unfold, list_ascii_of_string_of_list_ascii. intro H.
  apply replace_initials_In in H. destruct H as [->|H]; [now split|].
  apply remove_suffix_In in H. apply in_map_iff in H.
  destruct H as (c0 & <- & _). apply deaccent_lower_fixed.
Qed.

Lemma deaccent_fixed_bool c :
  (if Ascii.eqb (deaccent c) c
   then negb (existsb (Nat.eqb (nat_of_ascii c)) (map fst special_chars))
   else true) = true.
Proof. destruct c as [[] [] [] [] [] [] [] []]; reflexivity. Qed.

Lemma deaccent_fixed_not_listed c :
  deaccent c = c -> ~ In (nat_of_ascii c) (map fst special_chars).
Proof.
  intros H Hin. pose proof (deaccent_fixed_bool c) as Hb.
  rewrite H, Ascii.eqb_refl in Hb. apply negb_true_iff in Hb.
  assert (Ht : existsb (Nat.eqb (nat_of_ascii c)) (map fst special_chars)
               = true).
  { apply existsb_exists. exists (nat_of_ascii c).
    split; [exact Hin | apply Nat.eqb_refl]. }
  rewrite Ht in Hb. discriminate.
Qed.

Lemma string_length_chars (s : string) :
  String.length s = length (list_ascii_of_string s).
Proof. induction s as [|c s IH]; cbn; [reflexivity | now rewrite IH]. Qed.

Lemma clean_name_length name :
  String.length (clean_name name) <= String.length name.
Proof.
  rewrite !string_length_chars, clean_name_unfold.
  rewrite list_ascii_of_string_of_list_ascii.
  eapply Nat.le_trans; [apply replace_initials_length|].
  eapply Nat.le_trans; [apply remove_suffix_length|].
  now rewrite length_map.
Qed.

(** ** Names of one word *)

Lemma clean_name_spaceless name :
  spaceless (list_ascii_of_string name) ->
  clean_name name
  = string_of_list_ascii
      (map (fun c => deaccent (lower_char c)) (list_ascii_of_string name)).
Proof.
  intro H. rewrite clean_name_unfold.
  apply spaceless_prepared in H.
  now rewrite (remove_suffix_spaceless _ H), (replace_initials_spaceless _ H).
Qed.

(** ** A closing suffix *)

Lemma remove_suffix_after l w :
  spaceless l -> match_suffix (" "%char :: w) = Some [] ->
  remove_suffix (l ++ " "%char :: w)%list = l.
Proof.
  intros Hl Hw. induction l as [|c l IH].
  - cbn [app remove_suffix]. now rewrite Hw.
  - apply spaceless_cons in Hl. destruct Hl as [Hc Hl].
    cbn [app remove_suffix match_suffix]. rewrite Hc. now rewrite IH.
Qed.

Lemma spelling_matches w :
  In (lower w) suffix_spellings ->
  match_suffix
    (" "%char :: map (fun c => deaccent (lower_char c)) (list_ascii_of_string w))
  = Some [].
Proof.
  intro H.
  assert (Hl : forall s, lower w = s ->
            map lower_char (list_ascii_of_string w) = list_ascii_of_string s).
  { intros s <-. unfold lower.
    now rewrite list_ascii_of_string_of_list_ascii. }
  rewrite <- (map_map lower_char deaccent).
  cbn [suffix_spellings In] in H.
  repeat (destruct H as [H|H]; [rewrite (Hl _ (eq_sym H)); reflexivity|]).
  destruct H.
Qed.

Lemma clean_name_suffix name w :
  spaceless (list_ascii_of_string name) ->
  In (lower w) suffix_spellings ->
  clean_name (name ++ " " ++ w) = clean_name name.
Proof.
  intros Hn Hw. rewrite (clean_name_spaceless _ Hn), clean_name_unfold.
  rewrite !chars_append, map_app. cbn [list_ascii_of_string app map].
  change (deaccent (lower_char " ")) with " "%char.
  apply spaceless_prepared in Hn.
  rewrite (remove_suffix_after _ _ Hn (spelling_matches _ Hw)).
  now rewrite (replace_initials_spaceless _ Hn).
Qed.

(** ** A middle initial *)

Lemma is_az_not_space c : is_az c = true -> isspace c = false.
Proof.
  destruct c as [[] [] [] [] [] [] [] []]; intro H;
    first [reflexivity | vm_compute in H; discriminate H].
Qed.

Lemma spaceless_lstrip l : spaceless l -> lstrip_chars l = l.
Proof.
  intro H. apply lstrip_chars_fixed. intros c l' ->. apply H. now left.
Qed.

Lemma chars_of_list l s :
  string_of_list_ascii l = s -> l = list_ascii_of_string s.
Proof. intros <-. now rewrite list_ascii_of_string_of_list_ascii. Qed.

Lemma string_of_list_app (a b : list ascii) :
  string_of_list_ascii (a ++ b)%list
  = string_of_list_ascii a ++ string_of_list_ascii b.
Proof. induction a as [|c a IH]; cbn; [reflexivity | now rewrite IH]. Qed.

Lemma after_prefix_exact w : forall l r,
  after_prefix w l = Some r -> l = (w ++ r)%list.
Proof.
  induction w as [|x w IH]; intros l r H.
  - cbn in H. injection H as <-. reflexivity.
  - destruct l as [|c l]; [discriminate|]. cbn in H.
    destruct (Ascii.eqb x c) eqn:E; [|discriminate].
    apply Ascii.eqb_eq in E. subst c. cbn. f_equal. now apply IH.
Qed.

Lemma dot_then_end_spaceless l r :
  spaceless l -> dot_then_end l = Some r -> l = [] \/ l = ["."%char].
Proof.
  intros Hl H. destruct l as [|c l]; [now left|]. right.
  cbn [dot_then_end] in H.
  assert (Hnl : forall d, In d (c :: l) -> (nat_of_ascii d =? 10)%nat = false).
  { intros d Hd. apply Hl in Hd.
    destruct (nat_of_ascii d =? 10)%nat eqn:E; [|reflexivity].
    apply Nat.eqb_eq in E.
    rewrite <- (ascii_nat_embedding d), E in Hd. discriminate. }
  destruct (nat_of_ascii c =? 46)%nat eqn:Ec.
  - apply Nat.eqb_eq in Ec.
    assert (c = "."%char) as ->
      by (rewrite <- (ascii_nat_embedding c), Ec; reflexivity).
    destruct l as [|d l]; [reflexivity|].
    destruct l as [|d' l].
    + cbn in H. rewrite (Hnl d) in H by (right; now left).
      cbn in H. discriminate.
    + cbn in H. discriminate.
  - cbn [andb] in H. destruct l as [|d l].
    + cbn in H. rewrite (Hnl c) in H by now left. discriminate.
    + cbn in H. discriminate.
Qed.

Lemma suffix_word_In words : forall l r,
  suffix_word words l = Some r ->
  exists w rest,
    In w words /\ l = (w ++ rest)%list /\ dot_then_end rest = Some r.
Proof.
  induction words as [|w words IH]; intros l r H; [discriminate|].
  cbn [suffix_word] in H.
  assert (Hnext : suffix_word words l = Some r ->
    exists w0 rest, In w0 (w :: words) /\ l = (w0 ++ rest)%list
                    /\ dot_then_end rest = Some r).
  { intro H'. destruct (IH _ _ H') as (w0 & rest & Hin & Hl & Hd).
    exists w0, rest. split; [now right | now split]. }
  destruct (after_prefix w l) as [rest|] eqn:Hw; [|now apply Hnext].
  destruct (dot_then_end rest) as [remainder|] eqn:Hd; [|now apply Hnext].
  injection H as <-. exists w, rest. split; [now left|]. split; [|exact Hd].
  now apply after_prefix_exact.
Qed.

(** On a word without white space the suffix pattern matches only the
    listed spellings. *)
Lemma match_suffix_spelling l r :
  spaceless l -> match_suffix (" "%char :: l) = Some r ->
  In (string_of_list_ascii l) suffix_spellings.
Proof.
  intros Hl H. cbn [match_suffix] in H.
  change (isspace " ") with true in H. cbv iota in H.
  rewrite (spaceless_lstrip _ Hl) in H.
  apply suffix_word_In in H. destruct H as (w & rest & Hin & -> & Hd).
  assert (Hrest : spaceless rest).
  { intros c Hc. apply Hl. apply in_or_app. now right. }
  apply dot_then_end_spaceless in Hd; [|exact Hrest].
  cbn in Hin.
  destruct Hd as [-> | ->];
    repeat (destruct Hin as [<-|Hin]; [vm_compute; tauto|]);
    destruct Hin.
Qed.

Lemma match_suffix_other l :
  spaceless l -> ~ In (string_of_list_ascii l) suffix_spellings ->
  match_suffix (" "%char :: l) = None.
Proof.
  intros Hl Hn. destruct (match_suffix (" "%char :: l)) as [r|] eqn:E;
    [|reflexivity].
  exfalso. apply Hn. now apply match_suffix_spelling with (r := r).
Qed.

Lemma remove_suffix_app l t :
  spaceless l -> remove_suffix (l ++ t) = (l ++ remove_suffix t)%list.
Proof.
  intro Hl. induction l as [|c l IH]; [reflexivity|].
  apply spaceless_cons in Hl. destruct Hl as [Hc Hl].
  cbn [app remove_suffix match_suffix]. rewrite Hc. now rewrite IH.
Qed.

Lemma replace_initials_app l t :
  spaceless l ->
  replace_initials 0 (l ++ t) = (l ++ replace_initials 0 t)%list.
Proof.
  intro Hl. induction l as [|c l IH]; [reflexivity|].
  apply spaceless_cons in Hl. destruct Hl as [Hc Hl].
  cbn [app replace_initials match_initial]. rewrite Hc. now rewrite IH.
Qed.

(** The text of an initial: the letter, with or without its dot. *)
Lemma suffix_word_initial x (dot : bool) l :
  suffix_word suffix_words
    (x :: (if dot then ["."%char] else []) ++ " "%char :: l)%list = None.
Proof.
  unfold suffix_words. cbn [map list_ascii_of_string suffix_word after_prefix].
  destruct dot, l as [|c l]; cbn [app];
    repeat match goal with
    | |- context [Ascii.eqb ?a x] => destruct (Ascii.eqb a x)
    end; reflexivity.
Qed.

Lemma match_initial_word l : spaceless l -> match_initial (" "%char :: l) = None.
Proof.
  intro Hl. cbn [match_initial]. change (isspace " ") with true. cbv iota.
  rewrite (spaceless_lstrip _ Hl).
  destruct l as [|x r]; [reflexivity|].
  destruct (is_az x); [|reflexivity].
  apply spaceless_cons in Hl. destruct Hl as [_ Hr].
  assert (Hgen : forall t, spaceless t ->
    match t with
    | w :: r' => if isspace w then Some (lstrip_chars r') else None
    | [] => None
    end = None).
  { intros [|w r'] Ht; [reflexivity|].
    apply spaceless_cons in Ht. destruct Ht as [Hw _]. now rewrite Hw. }
  destruct r as [|d r']; [reflexivity|].
  destruct (nat_of_ascii d =? 46)%nat.
  - apply (Hgen r'). apply spaceless_cons in Hr. now destruct Hr.
  - apply (Hgen (d :: r')). exact Hr.
Qed.

Lemma remove_suffix_word l :
  spaceless l -> ~ In (string_of_list_ascii l) suffix_spellings ->
  remove_suffix (" "%char :: l) = " "%char :: l.
Proof.
  intros Hl Hn. cbn [remove_suffix].
  rewrite (match_suffix_other _ Hl Hn).
  now rewrite (remove_suffix_spaceless _ Hl).
Qed.

Lemma replace_initials_word l :
  spaceless l -> replace_initials 0 (" "%char :: l) = " "%char :: l.
Proof.
  intro Hl. cbn [replace_initials]. rewrite (match_initial_word _ Hl).
  now rewrite (replace_initials_spaceless _ Hl).
Qed.

Lemma remove_suffix_initial x (dot : bool) l :
  is_az x = true -> spaceless l ->
  ~ In (string_of_list_ascii l) suffix_spellings ->
  remove_suffix
    (" "%char :: x :: (if dot then ["."%char] else []) ++ " "%char :: l)%list
  = (" "%char :: x :: (if dot then ["."%char] else []) ++ " "%char :: l)%list.
Proof.
  intros Hx Hl Hn. pose proof (is_az_not_space _ Hx) as Hs.
  assert (Hm : match_suffix
    (" "%char :: x :: (if dot then ["."%char] else []) ++ " "%char :: l)%list
    = None).
  { cbn [match_suffix]. change (isspace " ") with true. cbv iota.
    cbn [lstrip_chars]. rewrite Hs. apply suffix_word_initial. }
  cbn [remove_suffix]. rewrite Hm. f_equal.
  cbn [match_suffix]. rewrite Hs. f_equal.
  destruct dot; cbn [app].
  - cbn [remove_suffix match_suffix]. change (isspace ".") with false.
    cbv iota. f_equal. now apply remove_suffix_word.
  - now apply remove_suffix_word.
Qed.

Lemma replace_initials_initial x (dot : bool) l :
  is_az x = true -> spaceless l ->
  replace_initials 0
    (" "%char :: x :: (if dot then ["."%char] else []) ++ " "%char :: l)%list
  = " "%char :: l.
Proof.
  intros Hx Hl. pose proof (is_az_not_space _ Hx) as Hs.
  cbn [replace_initials match_initial]. change (isspace " ") with true.
  cbv iota. cbn [lstrip_chars]. rewrite Hs, Hx.
  destruct dot; cbn [app].
  - change (nat_of_ascii "." =? 46)%nat with true. cbv iota.
    change (isspace " ") with true. cbv iota.
    rewrite (spaceless_lstrip _ Hl). f_equal.
    replace (length (x :: "."%char :: " "%char :: l) - length l) with 3
      by (cbn [length]; lia).
    cbn [replace_initials]. now apply replace_initials_spaceless.
  - change (nat_of_ascii " " =? 46)%nat with false. cbv iota.
    change (isspace " ") with true. cbv iota.
    rewrite (spaceless_lstrip _ Hl). f_equal.
    replace (length (x :: " "%char :: l) - length l) with 2
      by (cbn [length]; lia).
    cbn [replace_initials]. now apply replace_initials_spaceless.
Qed.

Lemma clean_name_initial first x (dot : bool) last :
  spaceless (list_ascii_of_string first) ->
  spaceless (list_ascii_of_string last) ->
  is_az (deaccent (lower_char x)) = true ->
  ~ In (clean_name last) suffix_spellings ->
  clean_name
    (first ++ " " ++ String x (if dot then "." else EmptyString) ++ " " ++ last)
  = clean_name first ++ " " ++ clean_name last.
Proof.
  intros Hf Hl Hx Hn.
  rewrite (clean_name_spaceless _ Hf). rewrite (clean_name_spaceless _ Hl) in *.
  rewrite clean_name_unfold.
  apply spaceless_prepared in Hf. apply spaceless_prepared in Hl.
  set (prepare := fun c => deaccent (lower_char c)) in *.
  assert (Htext :
    map prepare
      (list_ascii_of_string
         (first ++ " " ++ String x (if dot then "." else EmptyString) ++ " " ++ last))
    = (map prepare (list_ascii_of_string first)
       ++ " "%char :: deaccent (lower_char x)
       :: (if dot then ["."%char] else [])
       ++ " "%char :: map prepare (list_ascii_of_string last))%list).
  { rewrite chars_append, map_app. f_equal.
    destruct dot; cbn [append list_ascii_of_string map];
      rewrite ?chars_append; reflexivity. }
  rewrite Htext.
  rewrite (remove_suffix_app _ _ Hf).
  rewrite (remove_suffix_initial _ dot _ Hx Hl Hn).
  rewrite (replace_initials_app _ _ Hf).
  rewrite (replace_initials_initial _ dot _ Hx Hl).
  rewrite string_of_list_app. reflexivity.
Qed.

(** ** The table *)

Lemma clean_player_names_rows df r :
  In r (clean_player_names df) ->
  clean_cell r = Some (clean_name (name_cell r)).
Proof.
  unfold clean_player_names. destruct (empty df) eqn:He.
  - destruct df; [easy | discriminate].
  - intro H. apply in_map_iff in H. destruct H as (r0 & <- & _). reflexivity.
Qed.

Lemma clean_player_names_names df :
  map name_cell (clean_player_names df) = map name_cell df.
Proof.
  unfold clean_player_names. destruct (empty df); [reflexivity|].
  rewrite map_map. reflexivity.
Qed.

End CleaningFacts.

(** * The claims *)

Import PlayerMapper Matcher MatcherFacts Samples.

Open Scope string_scope.

(** ** C1 *)

(** C1 (the code departs from it).  The claim: [map_players] never raises
    and returns an empty table when both tables are non-empty and nothing
    matches.  On the spec's De Bruyne example the team keys ["Man City"]
    and ["man city"] differ, no entry is made, and the call raises
    [KeyError] from its closing log statement. *)
Theorem map_players_raises_when_nothing_matches :
  map_players no_overlay de_bruyne_fpl de_bruyne_understat default_threshold
  = Raise KeyError.
Proof. vm_compute. reflexivity. Qed.

(** ** C4 *)

(** C4.  In the table [map_players] returns, no automated entry carries a
    secondary id that is the value of a manual mapping, whatever the
    scores are. *)
Theorem manual_values_never_automated self fpl us thr m :
  map_players self fpl us thr = Ok m ->
  forall e, In e m -> matching_type e = automated ->
  ~ In (understat_id e) (overlay_values self).
Proof.
  intros H e He Ht.
  apply map_players_inv in H. destruct H as [->|[zs [Hzs ->]]]; [contradiction|].
  apply in_app_or in He. destruct He as [He|He].
  - apply manual_In in He. destruct He as [Hm _]. congruence.
  - apply automated_In in He.
    destruct He as [p [c [_ [_ [[_ [Hn _]] [-> _]]]]]]. exact Hn.
Qed.

(** The second Kane would score 1 against [u1]; with [u1] taken by the
    overlay he is paired with [u2] instead. *)
Lemma manual_values_never_automated_witness :
  ~ In "u2" (overlay_values kane_overlay).
Proof.
  apply (@manual_values_never_automated kane_overlay kane_twice_fpl
           kane_two_understat (1 # 2)
           [mkMapping 1 "u1" "Harry Kane" "Harry Kane" manual 1;
            mkMapping 2 "u2" "Harry Kane" "H. Kane" automated (12 # 17)]
           eq_refl
           (mkMapping 2 "u2" "Harry Kane" "H. Kane" automated (12 # 17))).
  - simpl. right. left. reflexivity.
  - reflexivity.
Defined.

(** ** C5 *)

(** C5 (as stated it fails).  The keys ["1"] and ["01"] are two keys of
    the overlay and [int] reads both as 1: the manual pass then makes two
    entries for the primary id 1, although the ids of each table are
    unique. *)
Lemma aliased_keys_repeat_primary_id :
  NoDup (map (@row_id Z) [mkRow 1%Z "Harry Kane" "Spurs" None])
  /\ NoDup (map (@row_id string) kane_two_understat)
  /\ NoDup (overlay_keys aliased_overlay)
  /\ exists m,
       map_players aliased_overlay [mkRow 1%Z "Harry Kane" "Spurs" None]
         kane_two_understat default_threshold = Ok m
       /\ ~ NoDup (map fpl_id m).
Proof.
  split; [repeat constructor; simpl; tauto|].
  split; [repeat constructor; simpl; intuition discriminate|].
  split; [repeat constructor; simpl; intuition discriminate|].
  eexists. split; [vm_compute; reflexivity|].
  simpl. intros H. apply NoDup_cons_iff in H. destruct H as [H _].
  apply H. now left.
Qed.

(** C5 (amended).  When the ids of the primary table are unique and the
    keys of the overlay read as pairwise different integers, no primary id
    appears in two entries of the table [map_players] returns. *)
Theorem primary_id_in_one_entry self fpl us thr m :
  NoDup (map (@row_id Z) fpl) ->
  (forall zs, int_keys (overlay_keys self) = Ok zs -> NoDup zs) ->
  map_players self fpl us thr = Ok m ->
  NoDup (map fpl_id m).
Proof.
  intros Hfpl Hkeys H.
  apply map_players_inv in H. destruct H as [->|[zs [Hzs ->]]]; [constructor|].
  specialize (Hkeys zs Hzs).
  rewrite map_app. apply NoDup_app.
  - now apply manual_ids_NoDup.
  - apply automated_ids_NoDup. now apply remaining_fpl_ids_NoDup.
  - intros z Hm Ha.
    apply in_map_iff in Hm. destruct Hm as [e [<- He]].
    apply manual_In in He. destruct He as [_ [Hin _]].
    apply in_map_iff in Ha. destruct Ha as [e' [Heq He']].
    apply automated_In in He'.
    destruct He' as [p [c [_ [Hn [_ [-> _]]]]]]. simpl in Heq.
    apply Hn. now rewrite Heq.
Qed.

Lemma primary_id_in_one_entry_witness :
  NoDup (map fpl_id
           [mkMapping 1 "u1" "Harry Kane" "Harry Kane" manual 1;
            mkMapping 2 "u2" "Harry Kane" "H. Kane" automated (12 # 17)]).
Proof.
  apply (@primary_id_in_one_entry kane_overlay kane_twice_fpl
           kane_two_understat (1 # 2)).
  - repeat constructor; simpl; intuition discriminate.
  - intros zs H. vm_compute in H. inversion H.
    repeat constructor; simpl; tauto.
  - reflexivity.
Defined.

(** ** C6 *)

(** C6.  Every automated entry of the table [map_players] returns pairs
    two rows with the same normalized team key; so, ids being unique, two
    rows whose keys differ are in no automated entry together, whatever
    their names are. *)
Theorem automated_entries_share_team self fpl us thr m :
  map_players self fpl us thr = Ok m ->
  (forall e, In e m -> matching_type e = automated ->
     exists p c, In p fpl /\ In c us
       /\ e = automated_entry p c (row_similarity p c)
       /\ normalized_team p = normalized_team c)
  /\ (NoDup (map (@row_id Z) fpl) -> NoDup (map (@row_id string) us) ->
      forall p c, In p fpl -> In c us ->
        normalized_team p <> normalized_team c ->
        forall e, In e m -> matching_type e = automated ->
          ~ (fpl_id e = row_id p /\ understat_id e = row_id c)).
Proof.
  intros H.
  assert (Hex : forall e, In e m -> matching_type e = automated ->
     exists p c, In p fpl /\ In c us
       /\ e = automated_entry p c (row_similarity p c)
       /\ normalized_team p = normalized_team c).
  { intros e He Ht.
    apply map_players_inv in H. destruct H as [->|[zs [Hzs ->]]]; [contradiction|].
    apply in_app_or in He. destruct He as [He|He].
    - apply manual_In in He. destruct He as [Hm _]. congruence.
    - apply automated_In in He.
      destruct He as [p [c [Hp [_ [[Hc [_ Hk]] [-> _]]]]]].
      exists p, c. repeat split; try assumption. now symmetry. }
  split; [exact Hex|].
  intros Hfpl Hus p c Hp Hc Hneq e He Ht [Hid Hcid].
  destruct (Hex e He Ht) as [p' [c' [Hp' [Hc' [-> Hk]]]]]. simpl in Hid, Hcid.
  assert (p' = p) by (eapply NoDup_map_eq; eassumption).
  assert (c' = c) by (eapply NoDup_map_eq; eassumption).
  subst. contradiction.
Qed.

(** Two rows named alike on teams whose keys differ. *)
Lemma automated_entries_share_team_witness :
  (forall e,
     In e [mkMapping 2 "u2" "Harry Kane" "Harry Kane" automated 1] ->
     matching_type e = automated ->
     exists p c,
       In p [mkRow 1%Z "Harry Kane" "Spurs" None;
             mkRow 2%Z "Harry Kane" "Arsenal" None]
       /\ In c [mkRow "u1" "Harry Kane" "Chelsea" None;
                mkRow "u2" "Harry Kane" "Arsenal" None]
       /\ e = automated_entry p c (row_similarity p c)
       /\ normalized_team p = normalized_team c)
  /\ (NoDup (map (@row_id Z) [mkRow 1%Z "Harry Kane" "Spurs" None;
                              mkRow 2%Z "Harry Kane" "Arsenal" None]) ->
      NoDup (map (@row_id string) [mkRow "u1" "Harry Kane" "Chelsea" None;
                                   mkRow "u2" "Harry Kane" "Arsenal" None]) ->
      forall p c,
        In p [mkRow 1%Z "Harry Kane" "Spurs" None;
              mkRow 2%Z "Harry Kane" "Arsenal" None] ->
        In c [mkRow "u1" "Harry Kane" "Chelsea" None;
              mkRow "u2" "Harry Kane" "Arsenal" None] ->
        normalized_team p <> normalized_team c ->
        forall e,
          In e [mkMapping 2 "u2" "Harry Kane" "Harry Kane" automated 1] ->
          matching_type e = automated ->
          ~ (fpl_id e = row_id p /\ understat_id e = row_id c)).
Proof.
  apply (@automated_entries_share_team no_overlay
           [mkRow 1%Z "Harry Kane" "Spurs" None;
            mkRow 2%Z "Harry Kane" "Arsenal" None]
           [mkRow "u1" "Harry Kane" "Chelsea" None;
            mkRow "u2" "Harry Kane" "Arsenal" None]
           default_threshold).
  reflexivity.
Defined.

(** ** C9 *)

(** C9.  The automated pass scores every primary row against one and the
    same pool: a row of the pool that is the best candidate of a primary
    row, at or above the threshold, is paired with it whatever the rows
    before were paired with.  So two primary rows can both be paired with
    one secondary row, as the two Kanes are here. *)
Theorem automated_pass_reuses_secondary :
  (forall self fpl us thr zs,
     int_keys (overlay_keys self) = Ok zs ->
     collect_mappings self fpl us thr
     = Ok (flat_map (manual_entry fpl us) (combine zs (overlay_values self))
           ++ flat_map
                (match_row thr (remaining_understat (overlay_values self) us))
                (remaining_fpl zs fpl))%list)
  /\ exists m e1 e2,
       map_players no_overlay kane_twice_fpl kane_understat default_threshold
       = Ok m
       /\ NoDup (map (@row_id Z) kane_twice_fpl)
       /\ In e1 m /\ In e2 m
       /\ matching_type e1 = automated /\ matching_type e2 = automated
       /\ fpl_id e1 <> fpl_id e2
       /\ understat_id e1 = understat_id e2.
Proof.
  split; [intros; now apply collect_mappings_ok|].
  exists [mkMapping 1 "u1" "Harry Kane" "Harry Kane" automated 1;
          mkMapping 2 "u1" "Harry Kane" "Harry Kane" automated 1],
    (mkMapping 1 "u1" "Harry Kane" "Harry Kane" automated 1),
    (mkMapping 2 "u1" "Harry Kane" "Harry Kane" automated 1).
  split; [vm_compute; reflexivity|].
  split; [repeat constructor; simpl; intuition discriminate|].
  split; [now left|]. split; [right; now left|].
  repeat split. simpl. discriminate.
Qed.

(** ** C10 *)

(** C10.  In the table [map_players] returns: no automated entry is for a
    primary id that an overlay key reads as; a primary row whose id is an
    overlay key, all of whose overlay pairs point at a secondary id that
    is in no row of the secondary table, has no entry at all and is in the
    unmatched set; and no automated entry carries a secondary id that is
    an overlay value, whether the key it is paired with is in the primary
    table or not. *)
Theorem overlay_ids_withheld self fpl us thr m :
  map_players self fpl us thr = Ok m ->
  (forall k e, In k (overlay_keys self) -> In e m ->
     matching_type e = automated -> PyStr.int k <> Ok (fpl_id e))
  /\ (forall p, In p fpl ->
        (exists k, In k (overlay_keys self) /\ PyStr.int k = Ok (row_id p)) ->
        (forall k v, In (k, v) (manual_mappings self) ->
           PyStr.int k = Ok (row_id p) -> ~ In v (map (@row_id string) us)) ->
        (forall e, In e m -> fpl_id e <> row_id p)
        /\ In p (export_missing_mappings fpl m))
  /\ (forall v e, In v (overlay_values self) -> In e m ->
        matching_type e = automated -> understat_id e <> v).
Proof.
  intros H. split; [|split].
  - intros k e Hk He Ht. eapply automated_not_overlay_key; eassumption.
  - intros p Hp [k [Hk Hint]] Hstale.
    assert (Hno : forall e, In e m -> fpl_id e <> row_id p).
    { intros e He Hid.
      destruct (matching_type e) eqn:Ht.
      - pose proof H as H'.
        apply map_players_inv in H'.
        destruct H' as [->|[zs [Hzs ->]]]; [contradiction|].
        apply in_app_or in He. destruct He as [He|He].
        + apply manual_In in He.
          destruct He as [_ [_ [_ [Hpair [_ [_ Hus]]]]]].
          unfold overlay_keys in Hzs.
          destruct (int_keys_combine _ _ _ _ Hzs Hpair) as [k' [Hk' Hint']].
          apply (Hstale k' (understat_id e) Hk'); [congruence | assumption].
        + apply automated_In in He.
          destruct He as [p' [c' [_ [_ [_ [-> _]]]]]]. discriminate.
      - apply (automated_not_overlay_key _ _ _ _ _ _ _ H Hk He Ht). congruence. }
    split; [exact Hno | now apply export_missing_mappings_In].
  - intros v e Hv He Ht Heq.
    apply (automated_not_overlay_value _ _ _ _ _ _ H He Ht). congruence.
Qed.

(** The first Kane is claimed by a pair whose secondary id [u9] is gone:
    he is left without an entry although [u1] would score 1. *)
Lemma overlay_ids_withheld_witness :
  (forall e, In e [mkMapping 2 "u1" "Harry Kane" "Harry Kane" automated 1] ->
     fpl_id e <> 1%Z)
  /\ In (mkRow 1%Z "Harry Kane" "Spurs" None)
       (export_missing_mappings kane_twice_fpl
          [mkMapping 2 "u1" "Harry Kane" "Harry Kane" automated 1]).
Proof.
  apply (proj1 (proj2 (@overlay_ids_withheld stale_overlay kane_twice_fpl
                         kane_understat default_threshold
                         [mkMapping 2 "u1" "Harry Kane" "Harry Kane" automated 1]
                         eq_refl))
           (mkRow 1%Z "Harry Kane" "Spurs" None)).
  - simpl. left. reflexivity.
  - exists "1". split; [simpl; left; reflexivity | reflexivity].
  - intros k v Hin _ Hus. simpl in Hin. destruct Hin as [Heq|[]].
    inversion Heq; subst. simpl in Hus. destruct Hus as [Hus|[]]. discriminate.
Defined.

(** ** C3 *)

(** C3 (as stated it fails).  With the threshold 0, the rows ["ab"] and
    ["cd"] of one team score exactly the threshold, and no entry is made
    for them: the best score starts at 0 and only a strictly higher score
    replaces it. *)
Lemma zero_score_at_zero_threshold_not_paired :
  candidate no_overlay disjoint_understat
    (mkRow 1%Z "ab" "Spurs" None) (mkRow "u1" "cd" "Spurs" None)
  /\ row_similarity (mkRow 1%Z "ab" "Spurs" None) (mkRow "u1" "cd" "Spurs" None)
     == 0
  /\ exists m,
       map_players no_overlay disjoint_fpl disjoint_understat 0 = Ok m
       /\ forall e, In e m -> fpl_id e <> 1%Z.
Proof.
  split; [|split].
  - split; [simpl; now left|]. split; [simpl; tauto | reflexivity].
  - vm_compute. reflexivity.
  - eexists. split; [vm_compute; reflexivity|].
    intros e [<-|[]]. simpl. discriminate.
Qed.

(** C3 (amended).  In the automated pass:
    - when every key of the overlay reads as an integer and none as the
      id of the primary row [p], the threshold is positive and the
      highest score among the candidates of [p] equals the threshold,
      [map_players] returns a table with an automated entry that pairs
      [p] with a candidate of that score;
    - when no key of the overlay reads as the id of [p] and every
      candidate of [p] scores strictly below the threshold or scores 0,
      a table that is returned has no entry for [p], and [p] is in the
      unmatched set;
    - every automated entry of a table that is returned has a score above
      0 that is at least the threshold: a candidate that scores 0 is
      never paired, whatever the threshold. *)
Theorem threshold_boundary self fpl us thr :
  (forall p,
     In p fpl ->
     (forall k, In k (overlay_keys self) ->
        exists z, PyStr.int k = Ok z /\ z <> row_id p) ->
     (0 < thr)%Q ->
     forall c, candidate self us p c -> row_similarity p c == thr ->
     (forall c', candidate self us p c' -> (row_similarity p c' <= thr)%Q) ->
     exists m c',
       map_players self fpl us thr = Ok m
       /\ candidate self us p c' /\ row_similarity p c' == thr
       /\ In (automated_entry p c' (row_similarity p c')) m)
  /\ (forall p m,
        In p fpl ->
        (forall k, In k (overlay_keys self) -> PyStr.int k <> Ok (row_id p)) ->
        NoDup (map (@row_id Z) fpl) ->
        map_players self fpl us thr = Ok m ->
        (forall c', candidate self us p c' ->
           (row_similarity p c' < thr)%Q \/ row_similarity p c' == 0) ->
        (forall e, In e m -> fpl_id e <> row_id p)
        /\ In p (export_missing_mappings fpl m))
  /\ (forall m e,
        map_players self fpl us thr = Ok m -> In e m ->
        matching_type e = automated ->
        (0 < similarity e)%Q /\ (thr <= similarity e)%Q).
Proof.
  split; [|split].
  - intros p Hp Hkeys Hpos c Hc Heq Hmax.
    assert (Hnot : forall zs, int_keys (overlay_keys self) = Ok zs ->
                              ~ In (row_id p) zs).
    { intros zs Hzs Hin.
      destruct (int_keys_In_conv _ _ _ Hzs Hin) as [k [Hk Hint]].
      destruct (Hkeys k Hk) as [z [Hz Hne]]. congruence. }
    destruct (int_keys_total (overlay_keys self)) as [zs Hzs].
    { intros k Hk. destruct (Hkeys k Hk) as [z [Hz _]]. eauto. }
    destruct (@best_candidate_paired self fpl us thr zs p c Hp (Hnot zs Hzs) Hc)
      as [c' [Hc' [Hle Hin]]].
    { rewrite Heq. exact Hpos. }
    { rewrite Heq. apply Qle_refl. }
    eexists. exists c'. split; [|split; [exact Hc'|split]].
    + eapply map_players_ok.
      * exact Hp.
      * destruct Hc as [Hc _]. exact Hc.
      * intros Hnil. apply app_eq_nil in Hnil. destruct Hnil as [_ Hnil].
        rewrite Hnil in Hin. contradiction.
      * apply collect_mappings_ok. exact Hzs.
    + apply Qle_antisym; [now apply Hmax|]. rewrite <- Heq. exact Hle.
    + apply in_or_app. right. exact Hin.
  - intros p m Hp Hkeys Hnd H Hlow.
    assert (Hno : forall e, In e m -> fpl_id e <> row_id p).
    { intros e He Hid.
      destruct (map_players_inv _ _ _ _ _ H) as [->|[zs [Hzs Hm]]];
        [contradiction|].
      assert (Hnot : ~ In (row_id p) zs).
      { intros Hin.
        destruct (int_keys_In_conv _ _ _ Hzs Hin) as [k [Hk Hint]].
        exact (Hkeys k Hk Hint). }
      pose proof He as He'. rewrite Hm in He'.
      apply in_app_or in He'. destruct He' as [He'|He'].
      - apply manual_In in He'. destruct He' as [_ [Hin _]].
        apply Hnot. now rewrite <- Hid.
      - pose proof (match_row_automated_In _ _ _ _ _ _ He') as Ht.
        destruct (automated_positive _ _ _ _ _ _ H He Ht) as [Hpos Hthr].
        apply automated_In in He'.
        destruct He' as [p' [c' [Hp' [_ [Hc' [-> _]]]]]]. simpl in Hid.
        assert (p' = p) by (eapply NoDup_map_eq; eassumption). subst p'.
        cbn [automated_entry similarity] in Hpos, Hthr.
        destruct (Hlow c' Hc') as [Hlt|Hz].
        + exact (Qlt_not_le _ _ Hlt Hthr).
        + rewrite Hz in Hpos. exact (Qlt_irrefl 0 Hpos). }
    split; [exact Hno | now apply export_missing_mappings_In].
  - intros m e H He Ht. exact (automated_positive _ _ _ _ _ _ H He Ht).
Qed.

(** The De Bruyne pair put on one team scores 22/27: paired at the
    threshold 22/27, left unmatched at the threshold 23/27 (next to a
    pair that agrees, so that a table is returned); the entry of the
    pair that agrees scores 1, above 0 and above 23/27. *)
Lemma threshold_boundary_witness :
  (exists m c',
     map_players no_overlay [mkRow 2%Z "Kevin De Bruyne" "Man City" None]
       [mkRow "u2" "K. De Bruyne" "Man City" None] (22 # 27) = Ok m
     /\ candidate no_overlay [mkRow "u2" "K. De Bruyne" "Man City" None]
          (mkRow 2%Z "Kevin De Bruyne" "Man City" None) c'
     /\ row_similarity (mkRow 2%Z "Kevin De Bruyne" "Man City" None) c'
        == 22 # 27
     /\ In (automated_entry (mkRow 2%Z "Kevin De Bruyne" "Man City" None) c'
              (row_similarity (mkRow 2%Z "Kevin De Bruyne" "Man City" None) c'))
          m)
  /\ ((forall e,
         In e [mkMapping 1 "u1" "Harry Kane" "Harry Kane" automated 1] ->
         fpl_id e <> 2%Z)
      /\ In (mkRow 2%Z "Kevin De Bruyne" "Man City" None)
           (export_missing_mappings
              [mkRow 1%Z "Harry Kane" "Spurs" None;
               mkRow 2%Z "Kevin De Bruyne" "Man City" None]
              [mkMapping 1 "u1" "Harry Kane" "Harry Kane" automated 1]))
  /\ ((0 < 1)%Q /\ (23 # 27 <= 1)%Q).
Proof.
  split; [|split].
  - apply (proj1 (threshold_boundary no_overlay
                    [mkRow 2%Z "Kevin De Bruyne" "Man City" None]
                    [mkRow "u2" "K. De Bruyne" "Man City" None] (22 # 27))
             (mkRow 2%Z "Kevin De Bruyne" "Man City" None)
             (or_introl eq_refl)
             (fun k (H : In k []) => match H with end)
             eq_refl (mkRow "u2" "K. De Bruyne" "Man City" None)).
    + split; [simpl; now left|]. split; [simpl; tauto | reflexivity].
    + vm_compute. reflexivity.
    + intros c' [[<-|[]] _]. vm_compute. discriminate.
  - apply (proj1 (proj2 (threshold_boundary no_overlay
                    [mkRow 1%Z "Harry Kane" "Spurs" None;
                     mkRow 2%Z "Kevin De Bruyne" "Man City" None]
                    [mkRow "u1" "Harry Kane" "Spurs" None;
                     mkRow "u2" "K. De Bruyne" "Man City" None] (23 # 27)))
             (mkRow 2%Z "Kevin De Bruyne" "Man City" None)
             [mkMapping 1 "u1" "Harry Kane" "Harry Kane" automated 1]
             (or_intror (or_introl eq_refl))
             (fun k (H : In k []) => match H with end)).
    + repeat constructor; simpl; intuition discriminate.
    + reflexivity.
    + intros c' [[<-|[<-|[]]] [_ Hk]].
      * vm_compute in Hk. discriminate.
      * left. vm_compute. reflexivity.
  - apply (proj2 (proj2 (threshold_boundary no_overlay
                    [mkRow 1%Z "Harry Kane" "Spurs" None;
                     mkRow 2%Z "Kevin De Bruyne" "Man City" None]
                    [mkRow "u1" "Harry Kane" "Spurs" None;
                     mkRow "u2" "K. De Bruyne" "Man City" None] (23 # 27)))
             [mkMapping 1 "u1" "Harry Kane" "Harry Kane" automated 1]
             (mkMapping 1 "u1" "Harry Kane" "Harry Kane" automated 1)
             eq_refl (or_introl eq_refl) eq_refl).
Defined.

(** ** C2 *)

Import DataCleaner CleanerFacts.

(** C2 (as stated it fails).  The cell is not stripped before the look-up:
    [" tottenham"] is returned as it is where the description gives
    ["spurs"]; and ["Arsenal"], which is not in the table, is not returned
    lower-cased. *)
Lemma normalize_cell_is_not_the_described :
  normalize_cell " tottenham" = " tottenham"
  /\ normalize_described " tottenham" = "spurs"
  /\ normalize_cell " tottenham" <> normalize_described " tottenham"
  /\ normalize_cell "Arsenal" <> PyStr.lower "Arsenal".
Proof.
  split; [reflexivity|]. split; [reflexivity|].
  split; vm_compute; discriminate.
Qed.

(** C2 (amended).  For every string the normalizer looks the lower-cased,
    unstripped cell up in the alias table: when that is an alias the
    result is the canonical key of the alias, so that spellings that
    differ in case only agree; a cell that is in lower case already and is
    not an alias is returned unchanged, white space included. *)
Theorem normalize_cell_looks_up_lowercase (x : string) :
  (forall canonical, In (PyStr.lower x, canonical) team_mapping ->
     normalize_cell x = canonical)
  /\ (forall y, PyStr.lower x = PyStr.lower y ->
        In (PyStr.lower x) (map fst team_mapping) ->
        normalize_cell x = normalize_cell y)
  /\ (PyStr.lower x = x -> ~ In x (map fst team_mapping) ->
      normalize_cell x = x).
Proof.
  split; [|split].
  - intros canonical H. unfold normalize_cell.
    apply dict_get_In; [apply team_mapping_keys_NoDup | assumption].
  - intros y Heq Hin. apply in_map_iff in Hin.
    destruct Hin as [[k v] [Hk Hin]]. simpl in Hk. subst k.
    unfold normalize_cell.
    rewrite (dict_get_In team_mapping (PyStr.lower x) x v
               team_mapping_keys_NoDup Hin).
    rewrite Heq in Hin.
    now rewrite (dict_get_In team_mapping (PyStr.lower y) y v
                   team_mapping_keys_NoDup Hin).
  - intros Hlow Hn. unfold normalize_cell. rewrite Hlow.
    now apply dict_get_absent.
Qed.

Lemma normalize_cell_looks_up_lowercase_witness :
  normalize_cell "Tottenham Hotspur" = "spurs"
  /\ normalize_cell "MANCHESTER CITY" = normalize_cell "Manchester City"
  /\ normalize_cell " arsenal " = " arsenal ".
Proof.
  split; [|split].
  - apply (proj1 (normalize_cell_looks_up_lowercase "Tottenham Hotspur") "spurs").
    simpl. do 4 right. left. reflexivity.
  - apply (proj1 (proj2 (normalize_cell_looks_up_lowercase "MANCHESTER CITY"))
             "Manchester City").
    + reflexivity.
    + simpl. right. left. reflexivity.
  - apply (proj2 (proj2 (normalize_cell_looks_up_lowercase " arsenal "))).
    + reflexivity.
    + simpl. intuition discriminate.
Defined.

(** ** C7 *)

(** C7 (as stated it fails).  When the file is missing the load is
    guarded by [os.path.exists]: the mapping stays empty and nothing is
    logged. *)
Lemma load_of_missing_file_logs_nothing :
  exists self,
    _load_mappings (mkMapper Absent [] []) = Ok self
    /\ manual_mappings self = []
    /\ logged self = [].
Proof. eexists. split; [reflexivity|]. split; reflexivity. Qed.

(** C7 (amended).  Neither [_load_mappings] nor the constructor raises,
    whatever the file is.  After construction, a missing file leaves the
    mapping empty without a log record of the load; a file that cannot be
    opened or parsed leaves the mapping empty and logs the error; and in
    these cases the list the matcher builds is the automated pass over the
    whole of both tables, so every entry returned is automated. *)
Theorem load_never_raises (file : file_state) :
  (forall self, exists self', _load_mappings self = Ok self')
  /\ exists self,
       init file = Ok self
       /\ (file = Absent ->
           manual_mappings self = [] /\ logged self = [InfoInitialized])
       /\ (file = Unreadable \/ file = Malformed ->
           manual_mappings self = []
           /\ exists e, logged self = [ErrorLoading e; InfoInitialized])
       /\ ((forall d, file <> Holds d) ->
           forall fpl us thr,
             collect_mappings self fpl us thr
             = Ok (flat_map (match_row thr (normalize_team_names us))
                     (normalize_team_names fpl))
             /\ forall m e, map_players self fpl us thr = Ok m -> In e m ->
                  matching_type e = automated).
Proof.
  split.
  - intros self. unfold _load_mappings.
    destruct (mapping_file self); simpl; eauto.
  - assert (Hauto : forall self, manual_mappings self = [] ->
       forall fpl us thr,
         collect_mappings self fpl us thr
         = Ok (flat_map (match_row thr (normalize_team_names us))
                 (normalize_team_names fpl))
         /\ forall m e, map_players self fpl us thr = Ok m -> In e m ->
              matching_type e = automated).
    { intros self Hnil fpl us thr.
      pose proof (collect_mappings_no_overlay self fpl us thr Hnil) as Hc.
      split; [exact Hc|].
      intros m e Hm He. unfold map_players in Hm.
      destruct (empty fpl || empty us).
      - inversion Hm; subst. contradiction.
      - rewrite Hc in Hm. simpl in Hm.
        destruct (flat_map _ _) as [|e0 l] eqn:E; [discriminate|].
        inversion Hm; subst. rewrite <- E in He.
        apply in_flat_map in He. destruct He as [p [_ He]].
        eapply match_row_automated; eassumption. }
    destruct file as [| | |d]; eexists; (split; [reflexivity|]).
    + split; [intros _; split; reflexivity|].
      split; [intros [H|H]; discriminate|].
      intros _. now apply Hauto.
    + split; [discriminate|].
      split; [intros _; split; [reflexivity | eexists; reflexivity]|].
      intros _. now apply Hauto.
    + split; [discriminate|].
      split; [intros _; split; [reflexivity | eexists; reflexivity]|].
      intros _. now apply Hauto.
    + split; [discriminate|].
      split; [intros [H|H]; discriminate|].
      intros H. exfalso. now apply (H d).
Qed.

(** ** C8 *)

Import DifflibFacts NameFacts.



(** * Further properties *)

Import ManualStore Overlay DigitsFacts StoreFacts PassFacts.

(** ** The manual store *)

(** X1.  The key [add_manual_mapping] writes for a primary id,
    [str(fpl_id)], is read back by the [int] of the manual pass as that
    id; so different ids are written as different keys. *)
Theorem key_written_is_key_read (z : Z) :
  PyStr.int (PyStr.str (PyStr.VInt z)) = Ok z
  /\ forall z', PyStr.str (PyStr.VInt z) = PyStr.str (PyStr.VInt z') -> z = z'.
Proof.
  split; [apply int_str|].
  intros z' H. pose proof (int_str z) as Hz. rewrite H, int_str in Hz.
  now inversion Hz.
Qed.

(** X2.  [add_manual_mapping(fpl_id, understat_id)] on a mapper whose
    overlay is a dict raises in one case only: [ValueError], when
    [fpl_id] has more decimal digits than CPython writes as text.
    Otherwise it returns whatever the disk does, since the save catches
    what the write raises: the overlay in memory then maps [fpl_id] to
    [understat_id] and every other primary id as before, and a write
    that failed is in the log as an error. *)
Theorem add_manual_mapping_raises_only_for_long_ids dk self z u :
  (str_digits z <= max_str_digits ->
   exists self',
     add_manual_mapping dk self z u = Ok self'
     /\ dict_find (manual_mappings (mapper self')) (PyStr.str (PyStr.VInt z))
        = Some u
     /\ (forall z', z' <> z ->
           dict_find (manual_mappings (mapper self'))
             (PyStr.str (PyStr.VInt z'))
           = dict_find (manual_mappings (mapper self))
               (PyStr.str (PyStr.VInt z')))
     /\ (dk <> Writable -> In (ErrorSaving OSError) (save_logged self')))
  /\ (max_str_digits < str_digits z ->
      add_manual_mapping dk self z u = Raise ValueError)
  /\ (forall e, add_manual_mapping dk self z u = Raise e ->
        e = ValueError /\ max_str_digits < str_digits z).
Proof.
  split; [|split].
  - intro Hz.
    destruct (add_manual_mapping_result dk self z u Hz)
      as [self' [E [Hm [_ [_ Hl]]]]].
    exists self'. split; [exact E|]. rewrite Hm.
    split; [apply dict_find_set_same|]. split.
    + intros z' Hz'. apply dict_find_set_other. intros Heq.
      apply Hz'. now apply str_int_injective.
    + intros Hdk. rewrite Hl. apply in_or_app. right. left.
      destruct dk; [contradiction | reflexivity..].
  - intro Hz. unfold add_manual_mapping. now rewrite (str_int_long z Hz).
  - intros e. apply add_manual_mapping_raises.
Qed.

Lemma add_manual_mapping_raises_only_for_long_ids_witness :
  exists self',
    add_manual_mapping CutShort (mkStore stale_overlay []) 2 "u1" = Ok self'
    /\ dict_find (manual_mappings (mapper self')) (PyStr.str (PyStr.VInt 2))
       = Some "u1"
    /\ (forall z', z' <> 2%Z ->
          dict_find (manual_mappings (mapper self'))
            (PyStr.str (PyStr.VInt z'))
          = dict_find (manual_mappings (mapper (mkStore stale_overlay [])))
              (PyStr.str (PyStr.VInt z')))
    /\ (CutShort <> Writable -> In (ErrorSaving OSError) (save_logged self')).
Proof.
  apply (proj1 (add_manual_mapping_raises_only_for_long_ids CutShort
                  (mkStore stale_overlay []) 2 "u1")).
  apply Nat.leb_le. vm_compute. reflexivity.
Defined.

(** X4.  A pair added with [add_manual_mapping] is honoured by the next
    [map_players]: when the id is short enough to be written, the keys
    the overlay held convert and the two ids are in the tables, the call
    returns a table with the manual entry of the pair, of similarity 1. *)
Theorem added_pair_is_matched dk self z u fpl us thr :
  str_digits z <= max_str_digits ->
  (forall k, In k (overlay_keys (mapper self)) ->
     exists z', PyStr.int k = Ok z') ->
  In z (map (@row_id Z) fpl) -> In u (map (@row_id string) us) ->
  exists self' m p c,
    add_manual_mapping dk self z u = Ok self'
    /\ map_players (mapper self') fpl us thr = Ok m
    /\ In (mkMapping z u (row_name p) (row_name c) manual 1%Q) m
    /\ In p fpl /\ row_id p = z /\ In c us /\ row_id c = u.
Proof.
  intros Hlen Hkeys Hz Hu.
  destruct (add_manual_mapping_result dk self z u Hlen) as [self' [E [Hm _]]].
  destruct (manual_pair_honoured (mapper self') fpl us thr
              (PyStr.str (PyStr.VInt z)) u z) as [m [p [c H]]].
  - unfold overlay_keys. rewrite Hm. intros k Hk.
    apply dict_set_keys in Hk. destruct Hk as [->|Hk].
    + exists z. apply int_str.
    + now apply Hkeys.
  - rewrite Hm. apply dict_set_In.
  - apply int_str.
  - exact Hz.
  - exact Hu.
  - exists self', m, p, c. tauto.
Qed.

Lemma added_pair_is_matched_witness :
  exists self' m p c,
    add_manual_mapping ReadOnly (mkStore stale_overlay []) 2 "u1" = Ok self'
    /\ map_players (mapper self') kane_twice_fpl kane_understat
         default_threshold = Ok m
    /\ In (mkMapping 2 "u1" (row_name p) (row_name c) manual 1%Q) m
    /\ In p kane_twice_fpl /\ row_id p = 2%Z
    /\ In c kane_understat /\ row_id c = "u1".
Proof.
  apply (added_pair_is_matched ReadOnly (mkStore stale_overlay []) 2 "u1"
           kane_twice_fpl kane_understat default_threshold).
  - apply Nat.leb_le. vm_compute. reflexivity.
  - intros k [<-|[]]. exists 1%Z. reflexivity.
  - simpl. right. left. reflexivity.
  - simpl. left. reflexivity.
Defined.

(** X5.  An overlay that starts empty and is filled by calls of
    [add_manual_mapping] only, with ids short enough to be written, has
    keys that are the texts of different integers: with it [map_players]
    never raises [ValueError], and with unique primary ids no primary id
    is in two entries of its table. *)
Theorem added_overlay_is_canonical calls :
  (forall dk z u, In (dk, z, u) calls -> str_digits z <= max_str_digits) ->
  exists self,
    (start <- ManualStore.init Absent ;; add_all start calls) = Ok self
    /\ canonical (manual_mappings (mapper self))
    /\ forall fpl us thr,
         map_players (mapper self) fpl us thr <> Raise ValueError
         /\ (NoDup (map (@row_id Z) fpl) ->
             forall m, map_players (mapper self) fpl us thr = Ok m ->
               NoDup (map fpl_id m)).
Proof.
  intro Hlen.
  cbn [ManualStore.init PlayerMapper.init bind].
  change (_load_mappings (mkMapper Absent [] []))
    with (@Ok PlayerMapper.t (mkMapper Absent [] [])).
  cbn [bind].
  destruct (add_all_ok calls
              (mkStore (PlayerMapper.log InfoInitialized (mkMapper Absent [] []))
                 []) Hlen) as [self E].
  exists self. split; [exact E|].
  assert (Hc : canonical (manual_mappings (mapper self))).
  { eapply add_all_canonical; [|exact E].
    split; [constructor | intros k []]. }
  split; [exact Hc|].
  destruct (canonical_int_keys _ Hc) as [zs [Hzs Hnd]].
  intros fpl us thr. split.
  - unfold map_players. destruct (empty fpl || empty us); [discriminate|].
    rewrite (collect_mappings_ok (mapper self) fpl us thr zs Hzs).
    cbn [bind]. destruct (_ ++ _)%list; discriminate.
  - intros Hfpl m Hm.
    exact (primary_ids_NoDup (mapper self) fpl us thr m zs Hfpl Hzs Hnd Hm).
Qed.

Lemma added_overlay_is_canonical_witness :
  exists self,
    (start <- ManualStore.init Absent ;;
     add_all start
       [(Writable, 1%Z, "u1"); (CutShort, 7%Z, "u7"); (ReadOnly, 1%Z, "u2");
        (CloseFails, 3%Z, "u3")])
    = Ok self
    /\ canonical (manual_mappings (mapper self))
    /\ forall fpl us thr,
         map_players (mapper self) fpl us thr <> Raise ValueError
         /\ (NoDup (map (@row_id Z) fpl) ->
             forall m, map_players (mapper self) fpl us thr = Ok m ->
               NoDup (map fpl_id m)).
Proof.
  apply (added_overlay_is_canonical
           [(Writable, 1%Z, "u1"); (CutShort, 7%Z, "u7");
            (ReadOnly, 1%Z, "u2"); (CloseFails, 3%Z, "u3")]).
  intros dk z u H. apply Nat.leb_le.
  repeat (destruct H as [H|H]; [inversion H; subst; vm_compute; reflexivity|]).
  destruct H.
Defined.

(** ** The two passes *)

(** X6.  Every pair of the overlay whose key converts to the id of a
    primary row and whose value is the id of a secondary row is honoured:
    when all keys convert, [map_players] returns a table that holds the
    manual entry of the pair, with similarity 1 and the names of the
    first row of the primary table that carries the one id and of the
    first row of the secondary table that carries the other. *)
Theorem overlay_pair_is_matched self fpl us thr k v z :
  (forall k', In k' (overlay_keys self) -> exists z', PyStr.int k' = Ok z') ->
  In (k, v) (manual_mappings self) -> PyStr.int k = Ok z ->
  In z (map (@row_id Z) fpl) -> In v (map (@row_id string) us) ->
  exists m p u,
    map_players self fpl us thr = Ok m
    /\ In (mkMapping z v (row_name p) (row_name u) manual 1%Q) m
    /\ first_with_id fpl z p /\ first_with_id us v u.
Proof.
  intros Hkeys Hin Hint Hz Hv.
  exact (manual_pair_first self fpl us thr k v z Hkeys Hin Hint Hz Hv).
Qed.

Lemma overlay_pair_is_matched_witness :
  exists m p u,
    map_players kane_overlay kane_twice_fpl kane_two_understat (1 # 2) = Ok m
    /\ In (mkMapping 1 "u1" (row_name p) (row_name u) manual 1%Q) m
    /\ first_with_id kane_twice_fpl 1%Z p
    /\ first_with_id kane_two_understat "u1" u.
Proof.
  apply (overlay_pair_is_matched kane_overlay kane_twice_fpl
           kane_two_understat (1 # 2) "1" "u1" 1).
  - intros k [<-|[]]. exists 1%Z. reflexivity.
  - simpl. left. reflexivity.
  - reflexivity.
  - simpl. left. reflexivity.
  - simpl. left. reflexivity.
Defined.

(** X7.  Every entry of the table [map_players] returns names a row of
    the primary table and a row of the secondary table, by id and by
    name; its similarity lies between 0 and 1, is 1 for a manual entry
    and is at least the threshold for an automated one. *)
Theorem entries_name_rows self fpl us thr m e :
  map_players self fpl us thr = Ok m -> In e m ->
  (exists p, In p fpl /\ row_id p = fpl_id e /\ row_name p = fpl_name e)
  /\ (exists c, In c us /\ row_id c = understat_id e
                /\ row_name c = understat_name e)
  /\ (0 <= similarity e)%Q /\ (similarity e <= 1)%Q
  /\ (matching_type e = manual -> similarity e = 1%Q)
  /\ (matching_type e = automated -> (thr <= similarity e)%Q).
Proof.
  intros Hm He. exact (entry_rows self fpl us thr m e Hm He).
Qed.

Lemma entries_name_rows_witness :
  (exists p, In p kane_twice_fpl /\ row_id p = 2%Z
             /\ row_name p = "Harry Kane")
  /\ (exists c, In c kane_two_understat /\ row_id c = "u2"
                /\ row_name c = "H. Kane")
  /\ (0 <= 12 # 17)%Q /\ (12 # 17 <= 1)%Q
  /\ (automated = manual -> 12 # 17 = 1%Q)
  /\ (automated = automated -> (1 # 2 <= 12 # 17)%Q).
Proof.
  apply (entries_name_rows kane_overlay kane_twice_fpl kane_two_understat
           (1 # 2)
           [mkMapping 1 "u1" "Harry Kane" "Harry Kane" manual 1;
            mkMapping 2 "u2" "Harry Kane" "H. Kane" automated (12 # 17)]
           (mkMapping 2 "u2" "Harry Kane" "H. Kane" automated (12 # 17))).
  - reflexivity.
  - simpl. right. left. reflexivity.
Defined.

(** X8.  Ties go to the row seen first: an automated entry pairs its
    primary row with a candidate that every candidate before it in the
    secondary table scores strictly below, and no candidate after it
    scores above. *)
Theorem first_best_candidate_wins self fpl us thr m e :
  map_players self fpl us thr = Ok m -> In e m ->
  matching_type e = automated ->
  exists p l1 c l2,
    In p fpl /\ us = (l1 ++ c :: l2)%list /\ candidate self us p c
    /\ e = automated_entry p c (row_similarity p c)
    /\ (forall c', In c' l1 -> candidate self us p c' ->
          (row_similarity p c' < row_similarity p c)%Q)
    /\ (forall c', In c' l2 -> candidate self us p c' ->
          (row_similarity p c' <= row_similarity p c)%Q).
Proof.
  intros Hm He Ht. exact (automated_first_best self fpl us thr m e Hm He Ht).
Qed.

Lemma first_best_candidate_wins_witness :
  exists p l1 c l2,
    In p [mkRow 1%Z "Harry Kane" "Spurs" None]
    /\ kane_two_alike = (l1 ++ c :: l2)%list
    /\ candidate no_overlay kane_two_alike p c
    /\ mkMapping 1 "u1" "Harry Kane" "Harry Kane" automated 1
       = automated_entry p c (row_similarity p c)
    /\ (forall c', In c' l1 -> candidate no_overlay kane_two_alike p c' ->
          (row_similarity p c' < row_similarity p c)%Q)
    /\ (forall c', In c' l2 -> candidate no_overlay kane_two_alike p c' ->
          (row_similarity p c' <= row_similarity p c)%Q).
Proof.
  apply (first_best_candidate_wins no_overlay
           [mkRow 1%Z "Harry Kane" "Spurs" None] kane_two_alike
           default_threshold
           [mkMapping 1 "u1" "Harry Kane" "Harry Kane" automated 1]).
  - reflexivity.
  - simpl. left. reflexivity.
  - reflexivity.
Defined.

(** X9.  With unique primary ids and overlay keys that convert to
    different integers, the rows [export_missing_mappings] returns for
    the table of [map_players] are the primary rows without an entry, and
    their number and the number of entries add up to the number of
    primary rows. *)
Theorem unmatched_and_matched_add_up self fpl us thr m zs :
  NoDup (map (@row_id Z) fpl) ->
  int_keys (overlay_keys self) = Ok zs -> NoDup zs ->
  map_players self fpl us thr = Ok m ->
  (forall p, In p (export_missing_mappings fpl m)
             <-> In p fpl /\ forall e, In e m -> fpl_id e <> row_id p)
  /\ length (export_missing_mappings fpl m) + length m = length fpl.
Proof.
  intros Hfpl Hzs Hnd Hm. split; [intros p; apply export_missing_mappings_iff|].
  rewrite export_missing_mappings_filter.
  rewrite <- (length_map (@row_id Z)
                (filter (fun r => negb (isin Z.eqb (row_id r) (map fpl_id m)))
                   fpl)).
  rewrite <- (filter_map_swap
                (fun x => negb (isin Z.eqb x (map fpl_id m))) (@row_id Z) fpl).
  rewrite <- (length_map fpl_id m), <- (length_map (@row_id Z) fpl).
  apply unmatched_count.
  - exact Hfpl.
  - exact (primary_ids_NoDup self fpl us thr m zs Hfpl Hzs Hnd Hm).
  - intros z Hz. apply in_map_iff in Hz. destruct Hz as [e [<- He]].
    destruct (entry_rows self fpl us thr m e Hm He) as [[p [Hp [Hid _]]] _].
    rewrite <- Hid. now apply in_map.
Qed.

Lemma unmatched_and_matched_add_up_witness :
  (forall p,
     In p (export_missing_mappings kane_twice_fpl
             [mkMapping 2 "u1" "Harry Kane" "Harry Kane" automated 1])
     <-> In p kane_twice_fpl
         /\ forall e,
              In e [mkMapping 2 "u1" "Harry Kane" "Harry Kane" automated 1] ->
              fpl_id e <> row_id p)
  /\ length (export_missing_mappings kane_twice_fpl
               [mkMapping 2 "u1" "Harry Kane" "Harry Kane" automated 1])
     + length [mkMapping 2 "u1" "Harry Kane" "Harry Kane" automated 1]
     = length kane_twice_fpl.
Proof.
  apply (unmatched_and_matched_add_up stale_overlay kane_twice_fpl
           kane_understat default_threshold
           [mkMapping 2 "u1" "Harry Kane" "Harry Kane" automated 1] [1%Z]).
  - repeat constructor; simpl; intuition discriminate.
  - reflexivity.
  - repeat constructor; simpl; tauto.
  - reflexivity.
Defined.

(** ** The cleaner *)

Import Validation Flags ValidationFacts CleanerMoreFacts.
Import DataCleaner.

(** X11.  On a table that is not empty, [validate_player_data] keeps the
    rows, their order and their cells, and gives each row a [data_flags]
    text that is empty exactly when neither check fires: more than 3420
    minutes (when the table has the column), or more than 10 goals for a
    defender or goalkeeper (when it has both columns).  The text names
    the checks that fired, separated by a comma, with no comma left at
    its end. *)
Theorem validate_player_data_flags df :
  stats_rows df <> [] ->
  Forall2
    (fun r r' =>
       minutes r' = minutes r /\ goals r' = goals r
       /\ position r' = position r
       /\ data_flags r' = Some (flag_text df r)
       /\ (flag_text df r <> ""
           <-> high_minutes df r = true \/ high_goals df r = true)
       /\ rstrip_commas (flag_text df r) = flag_text df r)
    (stats_rows df) (stats_rows (validate_player_data df)).
Proof.
  intros Hne. rewrite (validate_player_data_rows df Hne).
  clear Hne. induction (stats_rows df) as [|r rows IH]; cbn [map];
    constructor; [|exact IH].
  cbn [set_flags minutes goals position data_flags].
  split; [reflexivity|]. split; [reflexivity|]. split; [reflexivity|].
  split; [reflexivity|]. unfold flag_text.
  destruct (high_minutes df r), (high_goals df r);
    (split; [split; [intros H | intros [H|H]] | reflexivity]);
    try discriminate; try tauto; now contradiction H.
Qed.

(** A midfielder with 30 goals and 3420 minutes; a defender with 11
    goals and 3421 minutes. *)
Lemma validate_player_data_flags_witness :
  Forall2
    (fun r r' =>
       minutes r' = minutes r /\ goals r' = goals r
       /\ position r' = position r
       /\ data_flags r' = Some (flag_text boundary_stats r)
       /\ (flag_text boundary_stats r <> ""
           <-> high_minutes boundary_stats r = true
               \/ high_goals boundary_stats r = true)
       /\ rstrip_commas (flag_text boundary_stats r)
          = flag_text boundary_stats r)
    (stats_rows boundary_stats)
    (stats_rows (validate_player_data boundary_stats)).
Proof.
  apply (validate_player_data_flags boundary_stats). discriminate.
Defined.

(** X12.  Normalizing a team name twice gives what normalizing it once
    gives: the canonical keys and the names the table does not know are
    left as they are. *)
Theorem normalize_cell_idempotent (x : string) :
  normalize_cell (normalize_cell x) = normalize_cell x.
Proof.
  assert (H : normalize_cell x = x
              \/ In (normalize_cell x) (map snd team_mapping))
    by apply dict_get_cases.
  destruct H as [H|H].
  - rewrite H. exact H.
  - now apply normalize_cell_canonical.
Qed.

(** ** The scorer *)

Import ScoreFacts NameFacts.

(** X13.  The score does not see case or surrounding white space:
    replacing either name by its lower-cased or by its stripped text
    leaves the score as it is. *)
Theorem similarity_ignores_case_and_padding (s t : string) :
  get_name_similarity (PyStr.VStr (PyStr.lower s)) (PyStr.VStr t)
  = get_name_similarity (PyStr.VStr s) (PyStr.VStr t)
  /\ get_name_similarity (PyStr.VStr (PyStr.strip s)) (PyStr.VStr t)
     = get_name_similarity (PyStr.VStr s) (PyStr.VStr t)
  /\ get_name_similarity (PyStr.VStr s) (PyStr.VStr (PyStr.lower t))
     = get_name_similarity (PyStr.VStr s) (PyStr.VStr t)
  /\ get_name_similarity (PyStr.VStr s) (PyStr.VStr (PyStr.strip t))
     = get_name_similarity (PyStr.VStr s) (PyStr.VStr t).
Proof.
  assert (E : forall x y,
            get_name_similarity x y
            = Difflib.ratio (Difflib.new (cleaned x) (cleaned y)))
    by reflexivity.
  rewrite !E, !cleaned_lower, !cleaned_strip. repeat split.
Qed.

(** X14.  For a second name of fewer than 200 characters once cleaned, and
    names that are not both empty, the score is positive exactly when the
    two cleaned names have a character in common. *)
Theorem similarity_positive_iff_common_character (x y : PyStr.pyval) :
  length (cleaned y) < 200 ->
  cleaned x <> [] \/ cleaned y <> [] ->
  ((0 < get_name_similarity x y)%Q
   <-> exists c, In c (cleaned x) /\ In c (cleaned y)).
Proof.
  intros Hlen Hne.
  change (get_name_similarity x y)
    with (Difflib.ratio (Difflib.new (cleaned x) (cleaned y))).
  split.
  - intros Hpos.
    destruct (common_char_dec (cleaned x) (cleaned y)) as [H|H]; [exact H|].
    rewrite (ratio_disjoint (cleaned x) (cleaned y) H Hne) in Hpos.
    discriminate.
  - intros H. now apply ratio_positive.
Qed.

Lemma similarity_positive_iff_common_character_witness :
  (0 < get_name_similarity (PyStr.VStr "Kane") (PyStr.VStr "Son"))%Q
  <-> exists c, In c (cleaned (PyStr.VStr "Kane"))
                /\ In c (cleaned (PyStr.VStr "Son")).
Proof.
  apply (similarity_positive_iff_common_character (PyStr.VStr "Kane")
           (PyStr.VStr "Son")).
  - vm_compute. repeat constructor.
  - left. vm_compute. discriminate.
Defined.

(** ** Name cleaning *)

Import NameCleaning Names CleaningFacts.

(** X15.  [DataCleaner.clean_player_names] gives every row of a table
    that has rows a clean name beside its name: the clean name is no
    longer than the name, none of its characters is changed by lowering,
    and none is one of the accented letters of the replacement table. *)
Theorem clean_names_lowered_and_unaccented df r :
  In r (clean_player_names df) ->
  exists s,
    clean_cell r = Some s
    /\ String.length s <= String.length (name_cell r)
    /\ forall c, In c (list_ascii_of_string s) ->
         PyStr.lower_char c = c
         /\ ~ In (nat_of_ascii c) (map fst special_chars).
Proof.
  intro H. exists (clean_name (name_cell r)). split; [|split].
  - now apply clean_player_names_rows with (df := df).
  - apply clean_name_length.
  - intros c Hc. apply clean_name_chars in Hc. destruct Hc as [Hl Hd].
    split; [exact Hl | now apply deaccent_fixed_not_listed].
Qed.

Lemma clean_names_lowered_and_unaccented_witness :
  exists s,
    clean_cell (mkNamed "Neymar Jr." (Some "neymar")) = Some s
    /\ String.length s <= String.length "Neymar Jr."
    /\ forall c, In c (list_ascii_of_string s) ->
         PyStr.lower_char c = c
         /\ ~ In (nat_of_ascii c) (map fst special_chars).
Proof.
  apply (clean_names_lowered_and_unaccented three_names
           (mkNamed "Neymar Jr." (Some "neymar"))).
  vm_compute. right. right. left. reflexivity.
Defined.

(** X16.  A name without a white-space character is only lowered and
    stripped of its accents: neither of the two pattern substitutions
    touches it. *)
Theorem one_word_name_only_lowered name :
  spaceless (list_ascii_of_string name) ->
  clean_name name
  = string_of_list_ascii
      (map (fun c => deaccent (PyStr.lower_char c))
         (list_ascii_of_string name)).
Proof. apply clean_name_spaceless. Qed.

Lemma one_word_name_only_lowered_witness :
  clean_name "O'Brien-Kane"
  = string_of_list_ascii
      (map (fun c => deaccent (PyStr.lower_char c))
         (list_ascii_of_string "O'Brien-Kane")).
Proof.
  apply (one_word_name_only_lowered "O'Brien-Kane").
  intros c Hc. cbn in Hc.
  repeat (destruct Hc as [<-|Hc]; [reflexivity|]). destruct Hc.
Defined.

(** X17.  A one-word name followed by a blank and a generational suffix
    (jr, sr, i, ii, iii or iv, in any case, with or without a closing
    dot) is cleaned to what the name alone is cleaned to. *)
Theorem closing_suffix_dropped name w :
  spaceless (list_ascii_of_string name) ->
  In (PyStr.lower w) suffix_spellings ->
  clean_name (name ++ " " ++ w) = clean_name name.
Proof. apply clean_name_suffix. Qed.

Lemma closing_suffix_dropped_witness :
  clean_name ("Neymar" ++ " " ++ "Jr.") = clean_name "Neymar".
Proof.
  apply (closing_suffix_dropped "Neymar" "Jr.").
  - intros c Hc. cbn in Hc.
    repeat (destruct Hc as [<-|Hc]; [reflexivity|]). destruct Hc.
  - vm_compute. right. left. reflexivity.
Defined.

(** X18.  A middle initial between two one-word names (a single letter
    that lowers to one of a to z, with or without its dot) is dropped
    together with the white space around it, and one blank is left, when
    the last name is not itself a generational suffix. *)
Theorem middle_initial_dropped first x (dot : bool) last :
  spaceless (list_ascii_of_string first) ->
  spaceless (list_ascii_of_string last) ->
  is_az (deaccent (PyStr.lower_char x)) = true ->
  ~ In (clean_name last) suffix_spellings ->
  clean_name
    (first ++ " " ++ String x (if dot then "." else EmptyString) ++ " "
       ++ last)
  = clean_name first ++ " " ++ clean_name last.
Proof. apply clean_name_initial. Qed.

Lemma middle_initial_dropped_witness :
  clean_name ("John" ++ " " ++ String "F" "." ++ " " ++ "Stones")
  = clean_name "John" ++ " " ++ clean_name "Stones".
Proof.
  apply (middle_initial_dropped "John" "F"%char true "Stones").
  - intros c Hc. cbn in Hc.
    repeat (destruct Hc as [<-|Hc]; [reflexivity|]). destruct Hc.
  - intros c Hc. cbn in Hc.
    repeat (destruct Hc as [<-|Hc]; [reflexivity|]). destruct Hc.
  - reflexivity.
  - intro H. vm_compute in H.
    repeat (destruct H as [H|H]; [discriminate H|]). exact H.
Defined.
